(** * itch launch task: a shallow embedding of [tasks/launch]

    The launch pipeline ([doStart], [caveProblem],
    [launchTypeForAction], [appExt]) is embedded as state-passing
    functions over an explicit record store, an event trace and a
    record of oracles standing for the external collaborators
    (file system, game lookup, modal, sub-key client, process spawn,
    launchers, wall clock). The body of [doStart] is cut into its
    successive parts ([diagnose], [resolveManifest] with [pickAction],
    then [dispatch] made of [prepare], [ue4Prereq] and [supervise]);
    [doStart] is their sequence, in the order of the source.

    Strings are Rocq strings: every character is one code unit in the
    Latin-1 range.  Numbers that the program only ever adds or compares
    as integers (timestamps in milliseconds, seconds of play time, exit
    codes) are [Z]; the one division of the program is done in [Q]. *)

From Stdlib Require Import ZArith QArith Ascii Bool Lia Sorted.
From stdpp Require Import base option list gmap strings pretty.

Local Open Scope Z_scope.

(** ** JavaScript truthiness of the values the program tests *)

Module Js.

(** [!!s] for a string. *)
Definition truthy (s : string) : bool :=
  match s with EmptyString => false | String _ _ => true end.

(** [!!s] for a string-valued property that may be [undefined]. *)
Definition truthy_opt (o : option string) : bool :=
  match o with Some s => truthy s | None => false end.

(** [a || b] on string-valued properties that may be [undefined]. *)
Definition or_else (a b : option string) : option string :=
  if truthy_opt a then a else b.

End Js.

(** ** Regular expressions

    The backtracking matcher of ECMAScript, with continuations, for the
    constructs the program's regular expression literals use. A match
    state is the rest of the input together with a flag saying whether
    the position is the start of the input. *)

Module RegExp.

Inductive regex : Type :=
| Empty                     (* the empty pattern *)
| Char (c : ascii)          (* a pattern character *)
| Dot                       (* [.] *)
| Seq (r1 r2 : regex)
| Alt (r1 r2 : regex)       (* [r1|r2] *)
| Opt (r : regex)           (* [r?] *)
| Bol                       (* [^] *)
| Eol.                      (* [$], no multiline flag *)

(** Line terminators a [.] refuses: LF and CR (U+2028 and U+2029 are
    outside the Latin-1 range). *)
Definition isLineTerminator (a : ascii) : bool :=
  (N_of_ascii a =? 10)%N || (N_of_ascii a =? 13)%N.

(** Canonicalize of a code unit under the [i] flag (upper-casing that
    stays a single code unit and does not map a non-ASCII unit to an
    ASCII one). *)
Definition canonicalize (a : ascii) : N :=
  let n := N_of_ascii a in
  if (97 <=? n)%N && (n <=? 122)%N then (n - 32)%N
  else if (224 <=? n)%N && (n <=? 254)%N && negb (n =? 247)%N then (n - 32)%N
  else n.

Definition char_eqb (ignoreCase : bool) (c a : ascii) : bool :=
  if ignoreCase then (canonicalize c =? canonicalize a)%N
  else (N_of_ascii c =? N_of_ascii a)%N.

Definition cont : Type := bool -> string -> option string.

(** [rmatch i r bos s k]: match [r] at the state [(bos, s)] and
    continue with [k]; the result is what is left of the input after
    the whole match, or [None] on failure. *)
Fixpoint rmatch (ignoreCase : bool) (r : regex) (bos : bool) (s : string)
    (k : cont) : option string :=
  match r with
  | Empty => k bos s
  | Char c =>
      match s with
      | String a s' => if char_eqb ignoreCase c a then k false s' else None
      | EmptyString => None
      end
  | Dot =>
      match s with
      | String a s' => if isLineTerminator a then None else k false s'
      | EmptyString => None
      end
  | Seq r1 r2 =>
      rmatch ignoreCase r1 bos s (fun b s' => rmatch ignoreCase r2 b s' k)
  | Alt r1 r2 =>
      match rmatch ignoreCase r1 bos s k with
      | Some x => Some x
      | None => rmatch ignoreCase r2 bos s k
      end
  | Opt r1 =>
      match rmatch ignoreCase r1 bos s k with
      | Some x => Some x
      | None => k bos s
      end
  | Bol => if bos then k bos s else None
  | Eol => match s with EmptyString => k bos s | String _ _ => None end
  end.

Definition accept : cont := fun _ s => Some s.

(** [exec]: try every start position from the left; the result is the
    text before the match and the text after it. *)
Fixpoint exec_from (ignoreCase : bool) (r : regex) (bos : bool) (s : string)
    : option (string * string) :=
  match rmatch ignoreCase r bos s accept with
  | Some rest => Some ("", rest)
  | None =>
      match s with
      | EmptyString => None
      | String a s' =>
          match exec_from ignoreCase r false s' with
          | Some (pre, rest) => Some (String a pre, rest)
          | None => None
          end
      end
  end.

Definition exec (ignoreCase : bool) (r : regex) (s : string) :=
  exec_from ignoreCase r true s.

(** [re.test(s)] *)
Definition test (ignoreCase : bool) (r : regex) (s : string) : bool :=
  match exec ignoreCase r s with Some _ => true | None => false end.

(** [s.replace(re, by)] for a regular expression without the global
    flag and a replacement text without [$] patterns. *)
Definition replace (ignoreCase : bool) (r : regex) (by_ : string) (s : string)
    : string :=
  match exec ignoreCase r s with
  | Some (pre, rest) => pre +:+ by_ +:+ rest
  | None => s
  end.

(** The pattern that matches the characters of [s] in sequence. *)
Fixpoint lit (s : string) : regex :=
  match s with
  | EmptyString => Empty
  | String c EmptyString => Char c
  | String c s' => Seq (Char c) (lit s')
  end.

End RegExp.

(** ** Data model (the fields of [../types] that the task reads) *)

Record GameRecord : Type := {
  game_id : Z;
  title : string;
  coverUrl : option string;
  stillCoverUrl : option string;
}.

Record UploadRecord : Type := { upload_id : Z }.

Record CaveRecord : Type := {
  cave_id : string;
  gameId : Z;
  cave_game : option GameRecord;
  cave_launchType : option string;
  executables : option (list string);
  gamePath : option string;
  uploadId : Z;
  uploads : gmap Z UploadRecord;
  secondsRun : option Z;
  lastTouched : option Z;
  installedUE4Prereq : option bool;
}.

(** The object literal handed to [saveEntity]: the fields to overwrite. *)
Record CavePatch : Type := {
  patch_secondsRun : option Z;
  patch_lastTouched : option Z;
  patch_installedUE4Prereq : option bool;
}.

Record ManifestAction : Type := {
  action_name : string;
  action_path : string;
  action_icon : option string;
  action_args : option (list string);
  action_scope : option string;
}.

Record Manifest : Type := { actions : list ManifestAction }.

Record StartTaskOpts : Type := {
  opts_cave : CaveRecord;
  credentials_key : string;
  manifestActionName : option string;
}.

(** [gameOpts]: a copy of the options, extended before dispatch. *)
Record GameOpts : Type := {
  base_opts : StartTaskOpts;
  manifestAction : option ManifestAction;
  env : gmap string string;
  args : list string;
}.

(** A thrown value: whether it is an instance of [Crash], its message,
    and the [reason] property the task attaches to one of its errors. *)
Record Error : Type := {
  isCrash : bool;
  message : string;
  reason : option (list string);
}.

Inductive Result (A : Type) : Type :=
| Ok (a : A)
| Err (e : Error).
Arguments Ok {A} a.
Arguments Err {A} e.

(** A button of a modal: the string ["cancel"] or a button object. *)
Inductive IModalButtonSpec : Type :=
| ButtonCancel
| Button (label : string) (defaultValue : string)
         (action_manifestActionName : string) (icon : string)
         (className : string).

Record ModalSpec : Type := {
  modal_title : string;
  modal_cover : option string;
  modal_message : string;
  bigButtons : list IModalButtonSpec;
  buttons : list IModalButtonSpec;
}.

(** What [promisedModal] resolves to: a [MODAL_RESPONSE] action with its
    payload, or any other action (the modal was closed). *)
Inductive ModalAnswer : Type :=
| ModalResponse (payload_manifestActionName : string)
| ModalClosed.

Record SniffResult : Type := {
  linuxExecutable : bool;
  macExecutable : bool;
}.

(** The answer of the sub-key client: the log reads [expires_at], the
    environment gets [expiresAt]. *)
Record Subkey : Type := {
  subkey_key : string;
  expires_at : string;
  expiresAt : string;
}.

Inductive SpawnToken : Type :=
| OutToken (tok : string)
| ErrToken (tok : string).

(** What happens on the event loop while the launcher is awaited: the
    play-time timer fires, or somebody else saves to the store. *)
Inductive Activity : Type :=
| TimerFires
| OtherWriter (id : string) (patch : CavePatch).

Inductive LogMsg : Type :=
| LogReconfiguring (problem : list string)
| LogLaunching (version : string) (gameId : Z) (title : string)
| LogLookingForManifest (manifestPath : string)
| LogFoundManifest
| LogErrorReadingManifest (e : Error)
| LogManifest (m : Manifest)
| LogPickedInvalidAction (name : string) (had : list ManifestAction)
| LogNoManifest
| LogRequestingSubkey (scope : string)
| LogGotSubkey (chars : nat) (expires : string)
| LogLookingForPrereq
| LogLaunchingInstaller (reqFile : string)
| LogPrereqOut (tok : string)
| LogPrereqErr (tok : string)
| LogPrereqInstalled
| LogPrereqExitCode (code : Z)
| LogPrereqError (caveId : string) (e : Error)
| LogLaunchError (caveId : string) (e : Error)
| LogIgnoringCrash (secondsRunning : Q) (e : Error).

(** The calls the task makes on its collaborators, in program order. *)
Inductive Event : Type :=
| ELog (m : LogMsg)
| EGameLazily (gameId : Z) (cached : option GameRecord)
| EExplorerOpen (path : string)
| EStartTask (name : string) (game : GameRecord) (cave : CaveRecord)
             (upload : option UploadRecord)
| ESfExists (path : string)
| ESfReadFile (path : string)
| ETomlParse (contents : string)
| EValidateManifest (m : Manifest)
| EPromisedModal (spec : ModalSpec)
| EFnoutPath (fullPath : string)
| ESubkey (apiKey : string) (gameId : Z) (scope : string)
| ESpawn (command : string) (args : list string)
| ESaveEntity (id : string) (patch : CavePatch)
| ESetInterval (ms : Z)
| EClearInterval
| EUncaughtInTimer (e : Error)
| ELauncher (launchType : string) (opts : GameOpts).

(** ** The collaborators

    Everything the task imports and calls but does not define is an
    oracle of the world; an oracle that can fail answers a [Result]. *)

Record World : Type := {
  (* fetch.gameLazily(market, credentials, cave.gameId, {game: cave.game}) *)
  gameLazily : Z -> option GameRecord -> Result GameRecord;
  (* actionForGame(caveGame, cave); [None] is the empty object *)
  actionForGame : option GameRecord -> CaveRecord -> string;
  (* pathmaker.appPath(cave) *)
  appPath_of : CaveRecord -> string;
  (* ospath.join(a, b) *)
  ospath_join : string -> string -> string;
  explorer_open : string -> Result unit;
  (* startTask(store, {name: "configure", ...}): its outcome and what it
     leaves in the caves table *)
  startTask :
    string -> GameRecord -> CaveRecord -> option UploadRecord ->
    gmap string CaveRecord -> Result unit * gmap string CaveRecord;
  app_getVersion : string;
  sf_exists : string -> Result bool;
  sf_readFile : string -> Result string;
  toml_parse : string -> Result Manifest;
  validateManifest : Manifest -> Result unit;
  promisedModal : ModalSpec -> Result ModalAnswer;
  defaultManifestIcons : string -> option string;
  (* os.itchPlatform() *)
  itchPlatform : string;
  (* fnout.path(fullPath) *)
  fnout_path : string -> Result (option SniffResult);
  (* api.withKey(key).subkey(gameId, scope) *)
  client_subkey : string -> Z -> string -> Result Subkey;
  (* spawn({command, args, onToken, onErrToken}): the tokens it streams
     and the exit code it resolves to *)
  spawn : string -> list string -> list SpawnToken * Result Z;
  (* launchers[launchType](out, gameOpts): what happens while it is
     awaited and how it settles *)
  launcher : string -> GameOpts -> list Activity * Result unit;
  (* the successive values of Date.now(), in milliseconds *)
  clock : nat -> Z;
}.

(** ** The record store *)

(** The record that a save makes when the id has none: only the fields
    of the save are set. *)
Definition blankCave (id : string) : CaveRecord :=
  {| cave_id := id; gameId := 0; cave_game := None; cave_launchType := None;
     executables := None; gamePath := None; uploadId := 0; uploads := ∅;
     secondsRun := None; lastTouched := None; installedUE4Prereq := None |}.

(** A field after a save: the new value if the save names the field. *)
Definition over {A} (new old : option A) : option A :=
  match new with Some _ => new | None => old end.

Definition applyPatch (p : CavePatch) (c : CaveRecord) : CaveRecord :=
  {| cave_id := cave_id c; gameId := gameId c; cave_game := cave_game c;
     cave_launchType := cave_launchType c; executables := executables c;
     gamePath := gamePath c; uploadId := uploadId c; uploads := uploads c;
     secondsRun := over (patch_secondsRun p) (secondsRun c);
     lastTouched := over (patch_lastTouched p) (lastTouched c);
     installedUE4Prereq :=
       over (patch_installedUE4Prereq p) (installedUE4Prereq c) |}.

(** Modelled from the spec: the persistent store ("market") is not part
    of the sources at hand; the spec gives its contract as
    [getEntity]/[saveEntity] for cave records keyed by id, the save
    being a read-modify-write of the fields named in the call. The
    caves table is a finite map from ids to records; a save overwrites
    the named fields of the record of the id and keeps the others. *)
Definition market_save (id : string) (p : CavePatch)
    (caves : gmap string CaveRecord) : gmap string CaveRecord :=
  <[id := applyPatch p (default (blankCave id) (caves !! id))]> caves.

Definition touch (now : Z) : CavePatch :=
  {| patch_secondsRun := None; patch_lastTouched := Some now;
     patch_installedUE4Prereq := None |}.

(** ** The task monad: store, trace and clock, with [return] and [throw] *)

Record State : Type := {
  caves : gmap string CaveRecord;
  trace : list Event;
  clockReads : nat;
}.

Inductive Outcome (A : Type) : Type :=
| Val (a : A)          (* the statement completed with a value *)
| Returned             (* a [return;] of the enclosing function *)
| Threw (e : Error).   (* a [throw] *)
Arguments Val {A} a.
Arguments Returned {A}.
Arguments Threw {A} e.

Definition M (A : Type) : Type := State -> Outcome A * State.

Definition ret {A} (a : A) : M A := fun s => (Val a, s).
Definition return_ {A} : M A := fun s => (Returned, s).
Definition throw {A} (e : Error) : M A := fun s => (Threw e, s).

Definition bind {A B} (m : M A) (k : A -> M B) : M B :=
  fun s =>
    match m s with
    | (Val a, s') => k a s'
    | (Returned, s') => (Returned, s')
    | (Threw e, s') => (Threw e, s')
    end.

Notation "'do' x <- m ; k" := (bind m (fun x => k))
  (at level 10, x name, m at level 100, k at level 200).
Notation "'run' m ; k" := (bind m (fun _ => k))
  (at level 10, m at level 100, k at level 200).

Definition appendTrace (evs : list Event) (s : State) : State :=
  {| caves := caves s; trace := trace s ++ evs; clockReads := clockReads s |}.

Definition emit (e : Event) : M unit := fun s => (Val tt, appendTrace [e] s).

Definition log (m : LogMsg) : M unit := emit (ELog m).

Definition lift {A} (r : Result A) : M A :=
  match r with Ok a => ret a | Err e => throw e end.

(** A call on a collaborator: recorded, then answered. *)
Definition call {A} (e : Event) (r : Result A) : M A := run emit e; lift r.

Definition getCaves : M (gmap string CaveRecord) := fun s => (Val (caves s), s).

Definition setCaves (m : gmap string CaveRecord) : M unit :=
  fun s => (Val tt, {| caves := m; trace := trace s; clockReads := clockReads s |}).

(** [globalMarket.getEntity("caves", id)] *)
Definition getEntity (id : string) : M (option CaveRecord) :=
  do m <- getCaves; ret (m !! id).

(** [globalMarket.saveEntity("caves", id, patch)] *)
Definition saveEntity (id : string) (p : CavePatch) : M unit :=
  run emit (ESaveEntity id p);
  do m <- getCaves; setCaves (market_save id p m).

(** A function body: a [return;] inside it settles the call. *)
Definition function_ (body : M unit) : M unit :=
  fun s =>
    match body s with
    | (Returned, s') => (Val tt, s')
    | other => other
    end.

(** [try { body } catch (e) { handler e } finally { fin }] *)
Definition try_catch_finally {A} (body : M A) (handler : Error -> M A)
    (fin : M unit) : M A :=
  fun s =>
    let '(r1, s1) := body s in
    let '(r2, s2) :=
      match r1 with
      | Threw e => handler e s1
      | _ => (r1, s1)
      end in
    match fin s2 with
    | (Val _, s3) => (r2, s3)
    | (Returned, s3) => (Returned, s3)
    | (Threw e, s3) => (Threw e, s3)
    end.

Definition try_catch {A} (body : M A) (handler : Error -> M A) : M A :=
  try_catch_finally body handler (ret tt).

(** [each(list, f)] *)
Fixpoint each {A} (f : A -> nat -> M unit) (i : nat) (l : list A) : M unit :=
  match l with
  | [] => ret tt
  | x :: l' => run f x i; each f (S i) l'
  end.

(** The error of a property read on [undefined]. *)
Definition TypeError (msg : string) : Error :=
  {| isCrash := false; message := msg; reason := None |}.

(** [new Error(msg)] *)
Definition mkError (msg : string) : Error :=
  {| isCrash := false; message := msg; reason := None |}.

(** ** The regular expression literals of the task *)

Module Pattern.
Import RegExp.

(** [/.(app|exe|bat|sh)$/i] *)
Definition nativeExt : regex :=
  Seq Dot (Seq (Alt (lit "app") (Alt (lit "exe") (Alt (lit "bat") (lit "sh"))))
               Eol).

(** [/.html?$/i] *)
Definition htmlExt : regex :=
  Seq Dot (Seq (lit "htm") (Seq (Opt (Char "l")) Eol)).

(** [/^https?:/i] *)
Definition httpUrl : regex :=
  Seq Bol (Seq (lit "http") (Seq (Opt (Char "s")) (Char ":"))).

(** [/UE4PrereqSetup(_x64)?.exe/i] *)
Definition ue4Prereq : regex :=
  Seq (lit "UE4PrereqSetup") (Seq (Opt (lit "_x64")) (Seq Dot (lit "exe"))).

(** [/{{EXT}}/] *)
Definition extPlaceholder : regex := lit "{{EXT}}".

End Pattern.

(** ** The task *)

Section Task.

Variable w : World.

(** [Date.now()] *)
Definition now : M Z :=
  fun s => (Val (clock w (clockReads s)),
            {| caves := caves s; trace := trace s;
               clockReads := S (clockReads s) |}).

(** [function caveProblem (cave)] *)
Definition caveProblem (cave : CaveRecord) : option (list string) :=
  match cave_launchType cave with
  | Some t =>
      if String.eqb t "native" then
        match executables cave with
        | None | Some [] => Some ["game.install.no_executables_found"]
        | Some (_ :: _) => None
        end
      else if String.eqb t "html" then
        if Js.truthy_opt (gamePath cave) then None
        else Some ["game.install.no_html_index_found"]
      else None
  | None => None
  end.

(** [function appExt ()] *)
Definition appExt : string :=
  let platform := itchPlatform w in
  if String.eqb platform "osx" then ".app"
  else if String.eqb platform "windows" then ".exe"
  else "".

(** [async function launchTypeForAction (appPath, actionPath)] *)
Definition launchTypeForAction (appPath actionPath : string) : M string :=
  if RegExp.test true Pattern.nativeExt actionPath then ret "native"
  else if RegExp.test true Pattern.htmlExt actionPath then ret "html"
  else if RegExp.test true Pattern.httpUrl actionPath then ret "external"
  else
    let platform := itchPlatform w in
    let fullPath := ospath_join w appPath actionPath in
    do sniffRes <- call (EFnoutPath fullPath) (fnout_path w fullPath);
    match sniffRes with
    | None =>
        (* fnout resolves to null for a file without a known signature *)
        throw (TypeError "Cannot read property 'linuxExecutable' of null")
    | Some sniffRes =>
        if (linuxExecutable sniffRes && String.eqb platform "linux")
           || (macExecutable sniffRes && String.eqb platform "osx")
        then ret "native"
        else ret "shell"
    end.

(** [await startTask(store, {name, gameId: game.id, game, cave, upload})] *)
Definition awaitStartTask (name : string) (game : GameRecord)
    (cave : CaveRecord) (upload : option UploadRecord) : M unit :=
  run emit (EStartTask name game cave upload);
  do m <- getCaves;
  let '(r, m') := startTask w name game cave upload m in
  run setCaves m';
  lift r.

(** The error of the second diagnostic:
    [new Error(`game.install.could_not_launch (${problem})`)] with
    [reason] set to the problem; the spec calls it UnlaunchableInstall. *)
Definition UnlaunchableInstall (problem : list string) : Error :=
  {| isCrash := false;
     message := "game.install.could_not_launch (" +:+
                String.concat "," problem +:+ ")";
     reason := Some problem |}.

(** doStart, the diagnostic and the repair: from
    [let problem = caveProblem(cave)] to the [throw err] of the second
    diagnostic. The result is the cave the rest of the body uses. *)
Definition diagnose (game : GameRecord) (cave : CaveRecord) : M CaveRecord :=
  do cave' <-
    match caveProblem cave with
    | Some problem =>
        run log (LogReconfiguring problem);
        run awaitStartTask "configure" game cave
              (uploads cave !! uploadId cave);
        do m <- getCaves;
        ret (m !! cave_id cave)
    | None => ret (Some cave)
    end;
  match cave' with
  | None => throw (TypeError "Cannot read property 'launchType' of undefined")
  | Some cave =>
      match caveProblem cave with
      | Some problem => throw (UnlaunchableInstall problem)
      | None => ret cave
      end
  end.

(** [findWhere(manifest.actions, {name})] *)
Definition findWhere_name (l : list ManifestAction) (name : string)
    : option ManifestAction :=
  List.find (fun a => String.eqb (action_name a) name) l.

(** The big button of one action of the manifest. *)
Definition bigButton (actionOption : ManifestAction) : IModalButtonSpec :=
  let name := action_name actionOption in
  Button ("action.name." +:+ name) name name
    (default "star"
       (Js.or_else
          (Js.or_else (action_icon actionOption) (defaultManifestIcons w name))
          (Some "star")))
    ("action-" +:+ name).

(** [each(manifest.actions, (actionOption, i) => ...)] of the chooser:
    the buttons pushed so far are [acc]. *)
Fixpoint pushBigButtons (i : nat) (l : list ManifestAction)
    (acc : list IModalButtonSpec) : M (list IModalButtonSpec) :=
  match l with
  | [] => ret acc
  | actionOption :: l' =>
      if negb (Js.truthy (action_name actionOption)) then
        throw (mkError ("in manifest, action " +:+ pretty i +:+
                        " is missing a name"))
      else pushBigButtons (S i) l' (acc ++ [bigButton actionOption])
  end.

Definition chooserSpec (game : GameRecord)
    (bigButtons : list IModalButtonSpec) : ModalSpec :=
  {| modal_title := title game;
     modal_cover := Js.or_else (stillCoverUrl game) (coverUrl game);
     modal_message := "";
     bigButtons := bigButtons;
     buttons := [ButtonCancel] |}.

(** doStart, the choice of the manifest action: the statement
    [if (manifest.actions.length > 1) ... else ...]. [action] is the
    result of [actionForGame] computed at the top of the body. *)
Definition pickAction (opts : StartTaskOpts) (action : string)
    (game : GameRecord) (manifest : Manifest) : M (option ManifestAction) :=
  if (1 <? length (actions manifest))%nat then
    if Js.truthy_opt (manifestActionName opts) then
      let manifestAction :=
        findWhere_name (actions manifest)
          (default "" (manifestActionName opts)) in
      if negb (Js.truthy action) then
        run log (LogPickedInvalidAction
                   (default "" (manifestActionName opts)) (actions manifest));
        return_
      else ret manifestAction
    else
      do bigButtons <- pushBigButtons 0 (actions manifest) [];
      let spec := chooserSpec game bigButtons in
      do response <- call (EPromisedModal spec) (promisedModal w spec);
      match response with
      | ModalResponse name => ret (findWhere_name (actions manifest) name)
      | ModalClosed => return_ (* cancelled by user *)
      end
  else ret (actions manifest !! 0%nat).

(** doStart, the manifest: the statement [if (hasManifest) ... else ...]. *)
Definition resolveManifest (opts : StartTaskOpts) (action : string)
    (game : GameRecord) (manifestPath : string) (hasManifest : bool)
    : M (option ManifestAction) :=
  if hasManifest then
    run log LogFoundManifest;
    do manifest <-
      try_catch
        (do contents <- call (ESfReadFile manifestPath)
                             (sf_readFile w manifestPath);
         call (ETomlParse contents) (toml_parse w contents))
        (fun e => run log (LogErrorReadingManifest e); throw e);
    run log (LogManifest manifest);
    run call (EValidateManifest manifest) (validateManifest w manifest);
    pickAction opts action game manifest
  else
    run log LogNoManifest;
    ret None.

(** The environment after a sub-key was issued: the two assignments
    [env.ITCHIO_API_KEY = subkey.key] and
    [env.ITCHIO_API_KEY_EXPIRES_AT = subkey.expiresAt] on [{}]. *)
Definition subkeyEnv (subkey : Subkey) : gmap string string :=
  <["ITCHIO_API_KEY_EXPIRES_AT" := expiresAt subkey]>
    (<["ITCHIO_API_KEY" := subkey_key subkey]> ∅).

(** doStart, the statement [if (manifestAction) ...] followed by the
    three assignments to [gameOpts]: the launch type and the options
    the launcher will get. [launchType] is the type read from the cave
    at the top of the body. *)
Definition prepare (opts : StartTaskOpts) (game : GameRecord)
    (appPath : string) (launchType : string)
    (manifestAction : option ManifestAction) : M (string * GameOpts) :=
  match manifestAction with
  | Some ma =>
      let manifestAction :=
        {| action_name := action_name ma;
           action_path :=
             RegExp.replace false Pattern.extPlaceholder appExt (action_path ma);
           action_icon := action_icon ma;
           action_args := action_args ma;
           action_scope := action_scope ma |} in
      do launchType <- launchTypeForAction appPath (action_path manifestAction);
      do env <-
        (if Js.truthy_opt (action_scope manifestAction) then
           let scope := default "" (action_scope manifestAction) in
           run log (LogRequestingSubkey scope);
           do subkey <- call (ESubkey (credentials_key opts) (game_id game) scope)
                             (client_subkey w (credentials_key opts)
                                (game_id game) scope);
           run log (LogGotSubkey (String.length (subkey_key subkey))
                      (expires_at subkey));
           ret (subkeyEnv subkey)
         else ret ∅);
      let args := default [] (action_args manifestAction) in
      ret (launchType,
           {| base_opts := opts; manifestAction := Some manifestAction;
              env := env; args := args |})
  | None =>
      ret (launchType,
           {| base_opts := opts; manifestAction := None;
              env := ∅; args := [] |})
  end.

(** The names of the properties that an object literal inherits from
    [Object.prototype]; each of them reads as a truthy value. *)
Definition objectPrototypeKeys : list string :=
  ["constructor"; "__defineGetter__"; "__defineSetter__"; "hasOwnProperty";
   "__lookupGetter__"; "__lookupSetter__"; "isPrototypeOf";
   "propertyIsEnumerable"; "toString"; "valueOf"; "__proto__";
   "toLocaleString"].

(** [launchers[launchType]] is truthy: the launch type is one of the
    four keys of the table, or the name of a property that the object
    literal inherits. What is found is called as [launcher] in either
    case. *)
Definition isLauncher (launchType : string) : bool :=
  String.eqb launchType "native" || String.eqb launchType "html"
  || String.eqb launchType "shell" || String.eqb launchType "external"
  || existsb (String.eqb launchType) objectPrototypeKeys.

Definition UnsupportedLaunchType (cave : CaveRecord) : Error :=
  mkError ("Unsupported launch type '" +:+
           default "undefined" (cave_launchType cave) +:+ "'").

(** [await spawn({command, args, onToken, onErrToken})] *)
Definition awaitSpawn (command : string) (args : list string)
    (onToken onErrToken : string -> M unit) : M Z :=
  run emit (ESpawn command args);
  let '(toks, r) := spawn w command args in
  run each (fun t _ =>
              match t with
              | OutToken tok => onToken tok
              | ErrToken tok => onErrToken tok
              end) 0%nat toks;
  lift r.

Definition prereqInstalled : CavePatch :=
  {| patch_secondsRun := None; patch_lastTouched := None;
     patch_installedUE4Prereq := Some true |}.

Definition undefinedProperty (prop : string) : Error :=
  TypeError ("Cannot read property '" +:+ prop +:+ "' of undefined").

(** doStart, the statement [if (os.itchPlatform() === "windows") ...]. *)
Definition ue4Prereq (cave : CaveRecord) (appPath : string) : M unit :=
  if String.eqb (itchPlatform w) "windows" then
    do stored <- getEntity (cave_id cave);
    match stored with
    | None => throw (undefinedProperty "installedUE4Prereq")
    | Some stored =>
        if negb (default false (installedUE4Prereq stored)) then
          run log LogLookingForPrereq;
          try_catch
            (do stored <- getEntity (cave_id cave);
             match stored with
             | None => throw (undefinedProperty "executables")
             | Some stored =>
                 let reqFile :=
                   List.find (RegExp.test true Pattern.ue4Prereq)
                     (default [] (executables stored)) in
                 if Js.truthy_opt reqFile then
                   let reqFile := default "" reqFile in
                   run log (LogLaunchingInstaller reqFile);
                   do code <- awaitSpawn (ospath_join w appPath reqFile)
                                ["/quiet"; "/norestart"]
                                (fun tok => log (LogPrereqOut tok))
                                (fun tok => log (LogPrereqErr tok));
                   if code =? 0 then
                     run log LogPrereqInstalled;
                     saveEntity (cave_id cave) prereqInstalled
                   else log (LogPrereqExitCode code)
                 else ret tt
             end)
            (fun e => log (LogPrereqError (cave_id cave) e))
        else ret tt
    end
  else ret tt.

Definition UPDATE_PLAYTIME_INTERVAL : Z := 10.

Definition playtimePatch (newSecondsRun now_ : Z) : CavePatch :=
  {| patch_secondsRun := Some newSecondsRun; patch_lastTouched := Some now_;
     patch_installedUE4Prereq := None |}.

(** The callback given to [setInterval]. What it throws is not thrown
    into the task. *)
Definition updatePlaytime (cave : CaveRecord) : M unit :=
  do now_ <- now;
  do stored <- getEntity (cave_id cave);
  match stored with
  | None => emit (EUncaughtInTimer (undefinedProperty "secondsRun"))
  | Some stored =>
      let previousSecondsRun := default 0 (secondsRun stored) in
      let newSecondsRun := UPDATE_PLAYTIME_INTERVAL + previousSecondsRun in
      saveEntity (cave_id cave) (playtimePatch newSecondsRun now_)
  end.

Definition activity (cave : CaveRecord) (a : Activity) : M unit :=
  match a with
  | TimerFires => updatePlaytime cave
  | OtherWriter id patch =>
      do m <- getCaves; setCaves (market_save id patch m)
  end.

(** [await launcher(out, gameOpts)], the timer being set. *)
Definition awaitLauncher (launchType : string) (gameOpts : GameOpts)
    (cave : CaveRecord) : M unit :=
  run emit (ELauncher launchType gameOpts);
  let '(acts, r) := launcher w launchType gameOpts in
  run each (fun a _ => activity cave a) 0%nat acts;
  lift r.

(** [(now - startedAt) / 1000]: the exact quotient. The operands are
    integers (milliseconds), and the program only compares the quotient
    with 2: rounding to a double does not change that comparison. *)
Definition secondsBetween (startedAt now_ : Z) : Q :=
  (inject_Z (now_ - startedAt) / inject_Z 1000)%Q.

(** [a > b] *)
Definition Qgtb (a b : Q) : bool := negb (Qle_bool a b).

(** doStart, from [const startedAt = Date.now()] to the end. *)
Definition supervise (launchType : string) (gameOpts : GameOpts)
    (cave : CaveRecord) : M unit :=
  do startedAt <- now;
  run saveEntity (cave_id cave) (touch startedAt);
  try_catch_finally
    (run emit (ESetInterval (UPDATE_PLAYTIME_INTERVAL * 1000));
     awaitLauncher launchType gameOpts cave)
    (fun e =>
       run log (LogLaunchError (cave_id cave) e);
       if isCrash e then
         do now_ <- now;
         let secondsRunning := secondsBetween startedAt now_ in
         if Qgtb secondsRunning (inject_Z 2) then
           (* looks like the game actually launched fine! *)
           run log (LogIgnoringCrash secondsRunning e);
           return_
         else throw e
       else throw e)
    (run emit EClearInterval;
     do now_ <- now;
     saveEntity (cave_id cave) (touch now_)).

(** doStart, from [if (manifestAction)] to the end: the launch type and
    the options are settled, the launcher is looked up, the prerequisite
    is installed and the launcher is run. *)
Definition dispatch (opts : StartTaskOpts) (game : GameRecord)
    (cave : CaveRecord) (appPath : string) (launchType : string)
    (manifestAction : option ManifestAction) : M unit :=
  do prepared <- prepare opts game appPath launchType manifestAction;
  let '(launchType, gameOpts) := prepared in
  if negb (isLauncher launchType) then
    throw (UnsupportedLaunchType cave)
  else
    run ue4Prereq cave appPath;
    supervise launchType gameOpts cave.

(** [export async function doStart (out, opts)]. The four [invariant]
    calls at the top hold of every [StartTaskOpts]: the options have a
    cave and credentials, and the markets are the store and oracles of
    the world. *)
Definition doStart (opts : StartTaskOpts) : M unit :=
  function_
    (let cave := opts_cave opts in
     do game <- call (EGameLazily (gameId cave) (cave_game cave))
                     (gameLazily w (gameId cave) (cave_game cave));
     let caveGame := cave_game cave in
     let action := actionForGame w caveGame cave in
     if String.eqb action "open" then
       do now_ <- now;
       run saveEntity (cave_id cave) (touch now_);
       run call (EExplorerOpen (appPath_of w cave))
                (explorer_open w (appPath_of w cave));
       return_
     else
       let launchType := default "native" (cave_launchType cave) in
       do cave <- diagnose game cave;
       run log (LogLaunching (app_getVersion w) (game_id game) (title game));
       let appPath := appPath_of w cave in
       let manifestPath := ospath_join w appPath ".itch.toml" in
       run log (LogLookingForManifest manifestPath);
       do hasManifest <- call (ESfExists manifestPath)
                              (sf_exists w manifestPath);
       do manifestAction <-
         resolveManifest opts action game manifestPath hasManifest;
       dispatch opts game cave appPath launchType manifestAction).

End Task.

(** * Vocabulary of the properties *)

(** ** Traces *)

(** The events appended to the trace between [s] and [s']. *)
Definition newEvents (s s' : State) : list Event :=
  drop (length (trace s)) (trace s').

(** [extends P s s']: the trace of [s'] is the trace of [s] followed by
    events that satisfy [P]. *)
Definition extends (P : Event -> Prop) (s s' : State) : Prop :=
  exists evs, trace s' = trace s ++ evs /\ Forall P evs.

(** [emits P m]: running [m] only appends events to the trace, and
    every one of them satisfies [P]. *)
Definition emits {A} (P : Event -> Prop) (m : M A) : Prop :=
  forall s, exists evs, trace (m s).2 = trace s ++ evs /\ Forall P evs.

(** [timeless m]: running [m] does not read the clock. *)
Definition timeless {A} (m : M A) : Prop :=
  forall s, clockReads (m s).2 = clockReads s.

(** [wp m s Φ]: the outcome and the final state of [m] from [s]
    satisfy [Φ]. *)
Definition wp {A} (m : M A) (s : State) (Φ : Outcome A -> State -> Prop) : Prop :=
  Φ (m s).1 (m s).2.

(** How a function call settles when its body completes as [r]. *)
Definition settled (r : Outcome unit) : Outcome unit :=
  match r with Returned => Val tt | other => other end.

Definition isVal {A} (r : Outcome A) : Prop :=
  match r with Val _ => True | _ => False end.

(** ** Kinds of events *)

Definition isRepair (e : Event) : bool :=
  match e with EStartTask _ _ _ _ => true | _ => false end.

Definition isChooser (e : Event) : bool :=
  match e with EPromisedModal _ => true | _ => false end.

Definition isSubkeyRequest (e : Event) : bool :=
  match e with ESubkey _ _ _ => true | _ => false end.

Definition isLaunch (e : Event) : bool :=
  match e with ELauncher _ _ => true | _ => false end.

Definition isValidation (e : Event) : bool :=
  match e with EValidateManifest _ => true | _ => false end.

Definition isInvalidSelectionLog (e : Event) : bool :=
  match e with ELog (LogPickedInvalidAction _ _) => true | _ => false end.

(** [never p e]: the event [e] is not of the kind [p]. *)
Definition never (p : Event -> bool) (e : Event) : Prop := p e = false.

(** ** What each part of the task may emit *)

Definition sniffs (e : Event) : Prop :=
  match e with EFnoutPath _ => True | _ => False end.

Definition diagnoses (e : Event) : Prop :=
  match e with ELog _ | EStartTask _ _ _ _ => True | _ => False end.

Definition resolves (e : Event) : Prop :=
  match e with
  | ELog _ | ESfReadFile _ | ETomlParse _ | EValidateManifest _
  | EPromisedModal _ => True
  | _ => False
  end.

Definition chooses (e : Event) : Prop :=
  match e with ELog _ | EPromisedModal _ => True | _ => False end.

Definition prepares (e : Event) : Prop :=
  match e with ELog _ | EFnoutPath _ | ESubkey _ _ _ => True | _ => False end.

Definition installs (e : Event) : Prop :=
  match e with ELog _ | ESpawn _ _ | ESaveEntity _ _ => True | _ => False end.

Definition supervises (e : Event) : Prop :=
  match e with
  | ELog _ | ESaveEntity _ _ | ESetInterval _ | EClearInterval
  | EUncaughtInTimer _ | ELauncher _ _ => True
  | _ => False
  end.

(** What the task may emit before it validates a manifest. *)
Definition precedesValidation (e : Event) : Prop :=
  match e with
  | ELog _ | EGameLazily _ _ | EExplorerOpen _ | ESaveEntity _ _
  | EStartTask _ _ _ _ | ESfExists _ | ESfReadFile _ | ETomlParse _ => True
  | _ => False
  end.

(** What the task may emit before it comes to the dispatch. *)
Definition precedesDispatch (e : Event) : Prop :=
  match e with
  | ELog _ | EGameLazily _ _ | EExplorerOpen _ | ESaveEntity _ _
  | EStartTask _ _ _ _ | ESfExists _ | ESfReadFile _ | ETomlParse _
  | EValidateManifest _ | EPromisedModal _ => True
  | _ => False
  end.

(** What the task may emit before it calls the launcher. *)
Definition precedesLauncher (e : Event) : Prop :=
  match e with
  | ELauncher _ _ | ESetInterval _ | EClearInterval | EUncaughtInTimer _ => False
  | _ => True
  end.

(** What the task may emit once the launcher is called. *)
Definition followsLauncher (e : Event) : Prop :=
  match e with
  | ELog _ | ESaveEntity _ _ | EClearInterval | EUncaughtInTimer _ => True
  | _ => False
  end.

(** ** Paths, manifests, environments *)

Definition ends_with (s suffix : string) : Prop :=
  exists pre, s = pre +:+ suffix.

Definition starts_with (s prefix : string) : Prop :=
  exists rest, s = prefix +:+ rest.

(** The sniffed signature is an executable of the platform: ELF on
    linux, Mach-O on macOS. *)
Definition matchesPlatform (platform : string) (r : SniffResult) : Prop :=
  (linuxExecutable r = true /\ platform = "linux")
  \/ (macExecutable r = true /\ platform = "osx").

(** Every action of the manifest has a name. *)
Definition allNamed (m : Manifest) : Prop :=
  Forall (fun a => Js.truthy (action_name a) = true) (actions m).

(** The manifest action after the placeholder of its path is replaced. *)
Definition withExt (w : World) (ma : ManifestAction) : ManifestAction :=
  {| action_name := action_name ma;
     action_path :=
       RegExp.replace false Pattern.extPlaceholder (appExt w) (action_path ma);
     action_icon := action_icon ma;
     action_args := action_args ma;
     action_scope := action_scope ma |}.

(** The options the launcher gets when no manifest action is resolved. *)
Definition plainGameOpts (opts : StartTaskOpts) : GameOpts :=
  {| base_opts := opts; manifestAction := None; env := ∅; args := [] |}.

(** The two variables of the environment that carry a sub-key. *)
Definition carriesSubkey (env : gmap string string) (subkey : Subkey) : Prop :=
  env !! "ITCHIO_API_KEY" = Some (subkey_key subkey)
  /\ env !! "ITCHIO_API_KEY_EXPIRES_AT" = Some (expiresAt subkey).

Definition carriesNoSubkey (env : gmap string string) : Prop :=
  env !! "ITCHIO_API_KEY" = None
  /\ env !! "ITCHIO_API_KEY_EXPIRES_AT" = None.

(** The installer among the executables of a stored cave. *)
Definition prereqInstaller (stored : CaveRecord) : option string :=
  List.find (RegExp.test true Pattern.ue4Prereq) (default [] (executables stored)).

(** The log entry of a token streamed by the prerequisite installer. *)
Definition tokenLog (t : SpawnToken) : Event :=
  match t with
  | OutToken tok => ELog (LogPrereqOut tok)
  | ErrToken tok => ELog (LogPrereqErr tok)
  end.

Definition isTimerFires (a : Activity) : bool :=
  match a with TimerFires => true | OtherWriter _ _ => false end.

(** The number of timer firings among the activities. *)
Definition timerFirings (acts : list Activity) : nat :=
  length (List.filter isTimerFires acts).

(** ** Sample records and worlds for the instances *)

Definition sampleGame : GameRecord :=
  {| game_id := 42; title := "Sample"; coverUrl := None;
     stillCoverUrl := None |}.

(** A native cave with one executable and 120 seconds of play time. *)
Definition sampleCave : CaveRecord :=
  {| cave_id := "cave-1"; gameId := 42; cave_game := Some sampleGame;
     cave_launchType := Some "native"; executables := Some ["Sample.exe"];
     gamePath := None; uploadId := 7; uploads := {[ 7 := {| upload_id := 7 |} ]};
     secondsRun := Some 120; lastTouched := None;
     installedUE4Prereq := None |}.

(** A native cave without executables. *)
Definition brokenCave : CaveRecord :=
  {| cave_id := "cave-1"; gameId := 42; cave_game := Some sampleGame;
     cave_launchType := Some "native"; executables := Some [];
     gamePath := None; uploadId := 7; uploads := {[ 7 := {| upload_id := 7 |} ]};
     secondsRun := None; lastTouched := None;
     installedUE4Prereq := None |}.

(** A native cave that ships the prerequisite installer. *)
Definition ue4Cave : CaveRecord :=
  {| cave_id := "cave-1"; gameId := 42; cave_game := Some sampleGame;
     cave_launchType := Some "native";
     executables :=
       Some ["Game.exe"; "Engine/Extras/Redist/en-us/UE4PrereqSetup_x64.exe"];
     gamePath := None; uploadId := 7; uploads := ∅;
     secondsRun := None; lastTouched := None;
     installedUE4Prereq := None |}.

Definition sampleState : State :=
  {| caves := {[ "cave-1" := sampleCave ]}; trace := []; clockReads := 0 |}.

Definition brokenState : State :=
  {| caves := {[ "cave-1" := brokenCave ]}; trace := []; clockReads := 0 |}.

Definition ue4State : State :=
  {| caves := {[ "cave-1" := ue4Cave ]}; trace := []; clockReads := 0 |}.

Definition sampleOpts : StartTaskOpts :=
  {| opts_cave := sampleCave; credentials_key := "api-key";
     manifestActionName := None |}.

Definition brokenOpts : StartTaskOpts :=
  {| opts_cave := brokenCave; credentials_key := "api-key";
     manifestActionName := None |}.

(** Options that name an action the manifest [twoActions] lacks. *)
Definition bonusOpts : StartTaskOpts :=
  {| opts_cave := sampleCave; credentials_key := "api-key";
     manifestActionName := Some "bonus" |}.

(** The action of the manifest of the specification. *)
Definition playAction : ManifestAction :=
  {| action_name := "play"; action_path := "Game{{EXT}}";
     action_icon := Some "star"; action_args := Some ["--fullscreen"];
     action_scope := Some "wallet" |}.

(** An action without scope. *)
Definition editorAction : ManifestAction :=
  {| action_name := "editor"; action_path := "Editor{{EXT}}";
     action_icon := None; action_args := None; action_scope := None |}.

(** An action that lacks a name. *)
Definition namelessAction : ManifestAction :=
  {| action_name := ""; action_path := "Bonus{{EXT}}";
     action_icon := None; action_args := None; action_scope := None |}.

Definition twoActions : Manifest := {| actions := [playAction; editorAction] |}.

Definition oneNameless : Manifest :=
  {| actions := [playAction; namelessAction] |}.

Definition sampleSubkey : Subkey :=
  {| subkey_key := "k-123"; expires_at := "2017-01-01";
     expiresAt := "2017-01-01" |}.

Definition sampleCrash : Error :=
  {| isCrash := true; message := "process exited with code 1";
     reason := None |}.

Definition sampleFailure : Error :=
  {| isCrash := false; message := "spawn ENOENT"; reason := None |}.

(** A world on [platform] whose install folder holds [manifest] (if
    any), whose modal answers [answer], whose configure task turns the
    caves table into [repair] of it, whose installer exits as
    [installer], whose launchers run as [running] and whose clock reads
    [times] in turn. Every file sniffs as an ELF executable. *)
Definition sampleWorld (platform : string) (manifest : option Manifest)
    (answer : ModalAnswer)
    (repair : gmap string CaveRecord -> gmap string CaveRecord)
    (installer : Result Z) (running : list Activity * Result unit)
    (times : list Z) : World :=
  {| gameLazily := fun _ _ => Ok sampleGame;
     actionForGame := fun _ _ => "launch";
     appPath_of := fun cave => "/apps/" +:+ cave_id cave;
     ospath_join := fun a b => a +:+ "/" +:+ b;
     explorer_open := fun _ => Ok tt;
     startTask := fun _ _ _ _ m => (Ok tt, repair m);
     app_getVersion := "18.0.0";
     sf_exists := fun _ => Ok (bool_decide (is_Some manifest));
     sf_readFile := fun _ => Ok "[[actions]]";
     toml_parse := fun _ => Ok (default {| actions := [] |} manifest);
     validateManifest := fun _ => Ok tt;
     promisedModal := fun _ => Ok answer;
     defaultManifestIcons := fun _ => None;
     itchPlatform := platform;
     fnout_path := fun _ => Ok (Some {| linuxExecutable := true;
                                        macExecutable := false |});
     client_subkey := fun _ _ _ => Ok sampleSubkey;
     spawn := fun _ _ => ([OutToken "installing"], installer);
     launcher := fun _ _ => running;
     clock := fun n => default 0 (times !! n) |}.

(** A world without a manifest where everything succeeds at once. *)
Definition plainWorld (platform : string) : World :=
  sampleWorld platform None ModalClosed id (Ok 0) ([], Ok tt) [].

(** A linux world without a manifest whose launcher settles as [result]
    after [acts], the clock reading [times]. *)
Definition runningWorld (acts : list Activity) (result : Result unit)
    (times : list Z) : World :=
  sampleWorld "linux" None ModalClosed id (Ok 0) (acts, result) times.

(** A windows world whose installer exits as [installer]. *)
Definition windowsWorld (installer : Result Z) : World :=
  sampleWorld "windows" None ModalClosed id installer ([], Ok tt) [].

(** A linux world without a manifest whose configure task turns the
    caves table into [repair] of it. *)
Definition repairingWorld
    (repair : gmap string CaveRecord -> gmap string CaveRecord) : World :=
  sampleWorld "linux" None ModalClosed repair (Ok 0) ([], Ok tt) [].

(** A linux world whose install folder holds [manifest] and whose
    modal answers [answer]. *)
Definition manifestWorld (manifest : Manifest) (answer : ModalAnswer) : World :=
  sampleWorld "linux" (Some manifest) answer id (Ok 0) ([], Ok tt) [].

(** The options the launcher gets for [playAction] on linux once
    [sampleSubkey] is issued. *)
Definition playGameOpts : GameOpts :=
  {| base_opts := sampleOpts;
     manifestAction :=
       Some {| action_name := "play"; action_path := "Game";
               action_icon := Some "star"; action_args := Some ["--fullscreen"];
               action_scope := Some "wallet" |};
     env := {[ "ITCHIO_API_KEY" := "k-123";
               "ITCHIO_API_KEY_EXPIRES_AT" := "2017-01-01" ]};
     args := ["--fullscreen"] |}.

(** ** More kinds of events *)

Definition isSpawn (e : Event) : bool :=
  match e with ESpawn _ _ => true | _ => false end.

Definition isTimerSet (e : Event) : bool :=
  match e with ESetInterval _ => true | _ => false end.

Definition isTimerCleared (e : Event) : bool :=
  match e with EClearInterval => true | _ => false end.

(** [withAction action w]: the world [w] where [actionForGame] answers
    [action]. *)
Definition withAction (action : string) (w : World) : World :=
  {| gameLazily := gameLazily w;
     actionForGame := fun _ _ => action;
     appPath_of := appPath_of w;
     ospath_join := ospath_join w;
     explorer_open := explorer_open w;
     startTask := startTask w;
     app_getVersion := app_getVersion w;
     sf_exists := sf_exists w;
     sf_readFile := sf_readFile w;
     toml_parse := toml_parse w;
     validateManifest := validateManifest w;
     promisedModal := promisedModal w;
     defaultManifestIcons := defaultManifestIcons w;
     itchPlatform := itchPlatform w;
     fnout_path := fnout_path w;
     client_subkey := client_subkey w;
     spawn := spawn w;
     launcher := launcher w;
     clock := clock w |}.

(** The cave [brokenCave] once a repair has made an html cave of it. *)
Definition htmlCave : CaveRecord :=
  {| cave_id := "cave-1"; gameId := 42; cave_game := Some sampleGame;
     cave_launchType := Some "html"; executables := Some [];
     gamePath := Some "index.html"; uploadId := 7;
     uploads := {[ 7 := {| upload_id := 7 |} ]};
     secondsRun := None; lastTouched := None;
     installedUE4Prereq := None |}.

Definition isManifestRead (e : Event) : bool :=
  match e with ESfReadFile _ => true | _ => false end.

(** What the task may emit before it looks into the manifest. *)
Definition precedesManifest (e : Event) : Prop :=
  match e with
  | ELog _ | EGameLazily _ _ | EExplorerOpen _ | ESaveEntity _ _
  | EStartTask _ _ _ _ | ESfExists _ => True
  | _ => False
  end.

(** [withManifestFile file parsed w]: the world [w] where a manifest
    file exists, reads as [file] and parses as [parsed]. *)
Definition withManifestFile (file : Result string)
    (parsed : Result Manifest) (w : World) : World :=
  {| gameLazily := gameLazily w;
     actionForGame := actionForGame w;
     appPath_of := appPath_of w;
     ospath_join := ospath_join w;
     explorer_open := explorer_open w;
     startTask := startTask w;
     app_getVersion := app_getVersion w;
     sf_exists := fun _ => Ok true;
     sf_readFile := fun _ => file;
     toml_parse := fun _ => parsed;
     validateManifest := validateManifest w;
     promisedModal := promisedModal w;
     defaultManifestIcons := defaultManifestIcons w;
     itchPlatform := itchPlatform w;
     fnout_path := fnout_path w;
     client_subkey := client_subkey w;
     spawn := spawn w;
     launcher := launcher w;
     clock := clock w |}.

Definition sampleParseError : Error :=
  {| isCrash := false; message := "Expected '=' but end of input found";
     reason := None |}.

(** What the task may emit while a launcher runs and when it catches
    the launcher's error. *)
Definition duringLaunch (e : Event) : Prop :=
  match e with
  | ELog _ | ESaveEntity _ _ | EUncaughtInTimer _ => True
  | _ => False
  end.

(** [strip_prefix n s]: what is left of [s] after the characters of
    [n], if [s] starts with them. *)
Fixpoint strip_prefix (n s : string) : option string :=
  match n with
  | EmptyString => Some s
  | String c n' =>
      match s with
      | String a s' =>
          if (N_of_ascii c =? N_of_ascii a)%N then strip_prefix n' s' else None
      | EmptyString => None
      end
  end.

(** [leftmost needle s pre post]: [s] is [pre], [needle], [post], and
    no occurrence of [needle] in [s] starts before this one. *)
Definition leftmost (needle s pre post : string) : Prop :=
  s = pre +:+ needle +:+ post
  /\ forall pre' post',
       s = pre' +:+ needle +:+ post' -> (String.length pre <= String.length pre')%nat.

Definition occurs (needle s : string) : Prop :=
  exists pre post, s = pre +:+ needle +:+ post.

(** ** The exported task: [start], the wrapper of [doStart] *)

Module Start.

(** What [start] uses besides the world of [doStart]: the path of the
    log file of a cave, the answer of the [fetch.gameLazily] of the
    [catch] block (a second call, which may answer otherwise than the
    one of [doStart]) and the outcome of [diego.hire]. *)
Record Collaborators : Type := {
  caveLogPath : string -> string;
  gameLazilyAgain : Z -> option GameRecord -> Result GameRecord;
  diego_hire : Result unit
}.

Inductive StoreAction : Type :=
| reportCave (caveId : string)
| probeCave (caveId : string).

Inductive ModalButton : Type :=
| ActionButton (label icon : string) (className : option string)
    (action : StoreAction)
| CancelButton.

(** The payload of the [openModal] of the [catch] block: the message
    and the detail are a key with its parameter. *)
Record CrashModal : Type := {
  crash_title : string;
  crash_message : string * string;
  crash_detail : string * string;
  crash_buttons : list ModalButton
}.

(** What a call of [start] does, in order; [Ran e] is an event of
    [doStart]. *)
Inductive Effect : Type :=
| LoggerCreated (file : string)
| Ran (e : Event)
| FetchedAgain (gameId : Z) (game : option GameRecord)
| LoggedCrash (message : string)
| LoggedStack (e : Error)
| DiegoHired
| OpenedModal (spec : CrashModal)
| LoggerClosed.

Definition crashModal (game : GameRecord) (cave : CaveRecord) (e : Error)
    : CrashModal :=
  {| crash_title := "";
     crash_message := ("game.install.could_not_launch", title game);
     crash_detail := ("game.install.could_not_launch.detail", message e);
     crash_buttons :=
       [ActionButton "grid.item.report_problem" "upload-to-cloud" None
          (reportCave (cave_id cave));
        ActionButton "grid.item.probe" "bug" (Some "secondary")
          (probeCave (cave_id cave));
        CancelButton] |}.

(** The [catch] block: its outcome and its effects. *)
Definition handler (c : Collaborators) (cave : CaveRecord) (e : Error)
    : Outcome unit * list Effect :=
  let fetched := [FetchedAgain (gameId cave) (cave_game cave)] in
  match gameLazilyAgain c (gameId cave) (cave_game cave) with
  | Err e' => (Threw e', fetched)
  | Ok game =>
      let logged := [LoggedCrash (message e); LoggedStack e; DiegoHired] in
      match diego_hire c with
      | Err e' => (Threw e', fetched ++ logged)
      | Ok _ =>
          (Val tt, fetched ++ logged ++ [OpenedModal (crashModal game cave e)])
      end
  end.

(** [export default async function start (out, opts)]. The options
    given to [doStart] are the options of the call with the logger
    added, which the model of [doStart] does not read. *)
Definition start (w : World) (c : Collaborators) (opts : StartTaskOpts)
    (s : State) : Outcome unit * State * list Effect :=
  let cave := opts_cave opts in
  let created := [LoggerCreated (caveLogPath c (cave_id cave))] in
  let '(r, s') := doStart w opts s in
  let ran := map Ran (newEvents s s') in
  let '(r', caught) :=
    match r with
    | Threw e => handler c cave e
    | _ => (r, [])
    end in
  (r', s', created ++ ran ++ caught ++ [LoggerClosed]).

Definition isModal (e : Effect) : bool :=
  match e with OpenedModal _ => true | _ => false end.

Definition isLoggerClosed (e : Effect) : bool :=
  match e with LoggerClosed => true | _ => false end.

Definition isLoggerCreated (e : Effect) : bool :=
  match e with LoggerCreated _ => true | _ => false end.

Definition sampleCollaborators : Collaborators :=
  {| caveLogPath := fun id => "/logs/" +:+ id +:+ ".txt";
     gameLazilyAgain := fun _ _ => Ok sampleGame;
     diego_hire := Ok tt |}.

End Start.

(** ** [reactors/tasks/start-download] *)

Module Download.

Record Upload : Type := { up_id : Z; up_size : option Z }.

Record DownloadKey : Type := { key_id : Z; key_gameId : Z }.

(** [IStartDownloadOpts], with the [order] that [startDownload] sets. *)
Record DownloadOpts : Type := {
  dl_game : GameRecord;
  dl_gameId : Z;
  dl_upload : Upload;
  dl_totalSize : option Z;
  dl_destPath : string;
  dl_downloadKey : option DownloadKey;
  dl_reason : string;
  dl_order : option Z
}.

Definition with_order (order : Z) (o : DownloadOpts) : DownloadOpts :=
  {| dl_game := dl_game o; dl_gameId := dl_gameId o;
     dl_upload := dl_upload o; dl_totalSize := dl_totalSize o;
     dl_destPath := dl_destPath o; dl_downloadKey := dl_downloadKey o;
     dl_reason := dl_reason o; dl_order := Some order |}.

(** An entry of [state.downloads.downloadsByGameId]. *)
Record DownloadItem : Type := { finished : bool }.

(** Options objects are passed by reference: [startDownload] writes
    into the object it is given, and the action it dispatches holds
    that very object next to a copy of its fields. *)
Abbreviation Ref := nat (only parsing).

(** [Object.assign({}, downloadOpts, {id, downloadOpts})] *)
Record StartedPayload : Type := {
  copied : DownloadOpts;
  payload_id : string;
  payload_downloadOpts : Ref
}.

Inductive Action : Type :=
| navigate (tab : string)
| downloadStarted (payload : StartedPayload).

Inductive Effect : Type :=
| LogNotStartingAnother (title : string)
| LogShouldDownload (uploadId : Z) (hasKey : bool)
| Dispatched (a : Action).

(** The module variable [orderSeed], the options objects, the number
    of identifiers drawn from [uuid.v4] and what was done so far. *)
Record State : Type := {
  orderSeed : Z;
  heap : Ref -> DownloadOpts;
  uuidReads : nat;
  effects : list Effect
}.

(** The heap after a write into the object [r]. *)
Definition write (r : Ref) (o : DownloadOpts) (h : Ref -> DownloadOpts)
    : Ref -> DownloadOpts :=
  fun r' => if Nat.eqb r' r then o else h r'.

(** [export async function startDownload (store, downloadOpts)]:
    [v4] gives the identifiers that [uuid.v4()] returns in turn,
    [downloadsByGameId] is the table of the store at the call. *)
Definition startDownload (v4 : nat -> string)
    (downloadsByGameId : gmap Z DownloadItem) (downloadOpts : Ref)
    (s : State) : State :=
  let order := orderSeed s in
  let opts := with_order order (heap s downloadOpts) in
  let heap' := write downloadOpts opts (heap s) in
  let existing := downloadsByGameId !! game_id (dl_game opts) in
  if match existing with
     | Some existing => negb (finished existing)
     | None => false
     end
  then
    {| orderSeed := order + 1; heap := heap'; uuidReads := uuidReads s;
       effects := effects s ++
                  [LogNotStartingAnother (title (dl_game opts));
                   Dispatched (navigate "downloads")] |}
  else
    let id := v4 (uuidReads s) in
    {| orderSeed := order + 1; heap := heap'; uuidReads := S (uuidReads s);
       effects := effects s ++
                  [LogShouldDownload (up_id (dl_upload opts))
                     (bool_decide (is_Some (dl_downloadKey opts)));
                   Dispatched (downloadStarted
                     {| copied := opts; payload_id := id;
                        payload_downloadOpts := downloadOpts |})] |}.

(** [watcher.on(actions.queueDownload, ...)]: the payload is the
    options object. *)
Definition queueDownload (v4 : nat -> string)
    (downloadsByGameId : gmap Z DownloadItem) (payload : Ref) : State -> State :=
  startDownload v4 downloadsByGameId payload.

(** [watcher.on(actions.retryDownload, ...)]: the payload holds the
    options object as [downloadOpts]. *)
Definition retryDownload (v4 : nat -> string)
    (downloadsByGameId : gmap Z DownloadItem) (payload_downloadOpts : Ref)
    : State -> State :=
  startDownload v4 downloadsByGameId payload_downloadOpts.

(** A sequence of calls, each with the table of the store at the time
    of the call. *)
Definition calls (v4 : nat -> string)
    (l : list (gmap Z DownloadItem * Ref)) (s : State) : State :=
  foldl (fun s c => startDownload v4 c.1 c.2 s) s l.

Definition started (evs : list Effect) : list StartedPayload :=
  omap (fun e => match e with
                 | Dispatched (downloadStarted p) => Some p
                 | _ => None
                 end) evs.

Definition newEffects (s s' : State) : list Effect :=
  drop (length (effects s)) (effects s').

(** The [order] and the [id] of the downloads started, in the order of
    their actions. *)
Definition orders (evs : list Effect) : list (option Z) :=
  map (fun p => dl_order (copied p)) (started evs).

Definition ids (evs : list Effect) : list string :=
  map payload_id (started evs).

Definition sampleUpload : Upload := {| up_id := 7; up_size := Some 1024 |}.

Definition sampleDownload : DownloadOpts :=
  {| dl_game := sampleGame; dl_gameId := 42; dl_upload := sampleUpload;
     dl_totalSize := Some 1024; dl_destPath := "/downloads/7.zip";
     dl_downloadKey := None; dl_reason := "install"; dl_order := None |}.

Definition sampleIds (n : nat) : string := "uuid-" +:+ pretty n.

Definition freshState : State :=
  {| orderSeed := 0; heap := fun _ => sampleDownload; uuidReads := 0;
     effects := [] |}.

End Download.

(** ** [reactors/tasks/queue-cave-reinstall] *)

Module Reinstall.
Import Download.

(** The fields of a cave that the reactor reads. *)
Record Cave : Type := {
  cave_id : string;
  gameId : Z;
  uploadId : option Z;
  uploads : option (gmap Z Upload);
  downloadKey : option DownloadKey
}.

(** What the reactor calls: the markets, the session, the task runner,
    the path maker, and what [startDownload] reads. *)
Record World : Type := {
  getEntity : string -> option Cave;
  credentials : string;
  gameLazily : string -> Z -> Result (option GameRecord);
  findUpload : GameRecord -> Result (list Upload);
  downloadPath : Upload -> string;
  downloadKeys : list DownloadKey;
  install : Result unit;
  downloadsByGameId : gmap Z DownloadItem;
  v4 : nat -> string
}.

(** The options of the [install] task. *)
Record InstallOpts : Type := {
  reinstall : bool;
  install_upload : Upload;
  install_gameId : Z;
  install_game : GameRecord;
  install_cave : Cave;
  archivePath : string
}.

Inductive Effect : Type :=
| FetchedGame (credentials : string) (gameId : Z)
| StartedFindUpload (gameId : Z) (game : GameRecord)
| Downloading (e : Download.Effect)
| StartedInstall (opts : InstallOpts).

(** The state of [start-download], the next free object and what the
    reactor did so far. *)
Record State : Type := {
  downloads : Download.State;
  next : Ref;
  log : list Effect
}.

Definition truthy_id (n : option Z) : bool :=
  match n with Some n => negb (n =? 0) | None => false end.

(** [findWhere(getUserMarket().getEntities("downloadKeys"), {gameId})] *)
Definition findDownloadKey (w : World) (game : GameRecord) : option DownloadKey :=
  List.find (fun k => key_gameId k =? game_id game) (downloadKeys w).

Definition logged (evs : list Effect) (s : State) : State :=
  {| downloads := downloads s; next := next s; log := log s ++ evs |}.

(** [watcher.on(actions.queueCaveReinstall, ...)] *)
Definition queueCaveReinstall (w : World) (caveId : string) (s : State)
    : Outcome unit * State :=
  match getEntity w caveId with
  | None => (Val tt, s) (* can't reinstall without a valid cave! *)
  | Some cave =>
      let s := logged [FetchedGame (credentials w) (gameId cave)] s in
      match gameLazily w (credentials w) (gameId cave) with
      | Err e => (Threw e, s)
      | Ok None => (Val tt, s) (* no valid game *)
      | Ok (Some game) =>
          if negb (truthy_id (uploadId cave))
             || negb (bool_decide (is_Some (uploads cave)))
          then (Val tt, s) (* no uploads in cave *)
          else
            let s := logged [StartedFindUpload (game_id game) game] s in
            match findUpload w game with
            | Err e => (Threw e, s)
            | Ok [] => (Val tt, s) (* couldn't find an upload *)
            | Ok (upload :: _) =>
                let archivePath := downloadPath w upload in
                let downloadOpts :=
                  {| dl_game := game; dl_gameId := game_id game;
                     dl_upload := upload; dl_totalSize := up_size upload;
                     dl_destPath := archivePath;
                     dl_downloadKey :=
                       match downloadKey cave with
                       | Some key => Some key
                       | None => findDownloadKey w game
                       end;
                     dl_reason := "reinstall"; dl_order := None |} in
                let d := downloads s in
                let allocated :=
                  {| orderSeed := orderSeed d;
                     heap := write (next s) downloadOpts (heap d);
                     uuidReads := uuidReads d; effects := effects d |} in
                let d' := startDownload (v4 w) (downloadsByGameId w) (next s)
                            allocated in
                let s :=
                  {| downloads := d'; next := S (next s);
                     log := log s ++ map Downloading (newEffects d d')
                            ++ [StartedInstall
                                  {| reinstall := true;
                                     install_upload := upload;
                                     install_gameId := game_id game;
                                     install_game := game;
                                     install_cave := cave;
                                     archivePath := archivePath |}] |} in
                match install w with
                | Err e => (Threw e, s)
                | Ok _ => (Val tt, s)
                end
            end
      end
  end.

(** The options object that the reactor makes for [upload]. *)
Definition reinstallOpts (w : World) (cave : Cave) (game : GameRecord)
    (upload : Upload) : DownloadOpts :=
  {| dl_game := game; dl_gameId := game_id game; dl_upload := upload;
     dl_totalSize := up_size upload; dl_destPath := downloadPath w upload;
     dl_downloadKey :=
       match downloadKey cave with
       | Some key => Some key
       | None => findDownloadKey w game
       end;
     dl_reason := "reinstall"; dl_order := None |}.

Definition installOpts (w : World) (cave : Cave) (game : GameRecord)
    (upload : Upload) : InstallOpts :=
  {| reinstall := true; install_upload := upload;
     install_gameId := game_id game; install_game := game;
     install_cave := cave; archivePath := downloadPath w upload |}.

Definition newLog (s s' : State) : list Effect :=
  drop (length (log s)) (log s').

Definition installs (evs : list Effect) : list InstallOpts :=
  omap (fun e => match e with StartedInstall o => Some o | _ => None end) evs.

Definition downloadsStarted (evs : list Effect) : list StartedPayload :=
  started (omap (fun e => match e with Downloading d => Some d | _ => None end)
             evs).

(** The world [w] with another table of downloads in the store. *)
Definition withDownloads (table : gmap Z DownloadItem) (w : World) : World :=
  {| getEntity := getEntity w; credentials := credentials w;
     gameLazily := gameLazily w; findUpload := findUpload w;
     downloadPath := downloadPath w; downloadKeys := downloadKeys w;
     install := install w; downloadsByGameId := table; v4 := v4 w |}.

Definition installedCave : Cave :=
  {| cave_id := "cave-1"; gameId := 42; uploadId := Some 7;
     uploads := Some {[ 7 := sampleUpload ]}; downloadKey := None |}.

Definition newerUpload : Upload := {| up_id := 9; up_size := Some 2048 |}.

(** A world where the game 42 has the cave [installedCave], a download
    key, and [newerUpload] as the first upload, an unfinished download
    of the game being in the store. *)
Definition busyWorld : World :=
  {| getEntity := fun id => if String.eqb id "cave-1" then Some installedCave
                            else None;
     credentials := "api-key";
     gameLazily := fun _ _ => Ok (Some sampleGame);
     findUpload := fun _ => Ok [newerUpload; sampleUpload];
     downloadPath := fun u => "/downloads/" +:+ pretty (up_id u) +:+ ".zip";
     downloadKeys := [{| key_id := 1; key_gameId := 42 |}];
     install := Ok tt;
     downloadsByGameId := {[ 42 := {| finished := false |} ]};
     v4 := sampleIds |}.

Definition idle : State :=
  {| downloads := freshState; next := 0%nat; log := [] |}.

End Reinstall.

(** ** [reactors/main-window] *)

Module MainWindow.

Record Bounds : Type := { x : Z; y : Z; width : Z; height : Z }.

(** What [config.get("main_window_bounds")] holds: the fields present. *)
Record UserBounds : Type := {
  user_x : option Z; user_y : option Z;
  user_width : option Z; user_height : option Z
}.

(** [Object.assign({}, {x: -1, y: -1, width: 1250, height: 720},
    userBounds)], with [userBounds] being [config.get(...) || {}]. *)
Definition mergeBounds (userBounds : option UserBounds) : Bounds :=
  let u := default {| user_x := None; user_y := None;
                      user_width := None; user_height := None |} userBounds in
  {| x := default (-1) (user_x u); y := default (-1) (user_y u);
     width := default 1250 (user_width u);
     height := default 720 (user_height u) |}.

Record WindowOptions : Type := {
  opt_title : string; opt_icon : string;
  opt_width : Z; opt_height : Z; opt_center : bool;
  opt_show : bool; opt_autoHideMenuBar : bool;
  opt_backgroundColor : string; opt_titleBarStyle : string
}.

(** [state.preferences]: a field that is absent reads as [false]. *)
Record Preferences : Type := {
  closeToTray : bool;
  gotMinimizeNotification : bool
}.

(** The payload of [focusWindow]: a field that is absent reads as
    [false]. *)
Record FocusPayload : Type := { toggle : bool; hidden : bool }.

Inductive StoreAction : Type :=
| quit
| quitElectronApp
| updatePreferences_gotMinimizeNotification
| notify (title body : string)
| windowDestroyed
| windowFocusChanged (focused : bool)
| windowFullscreenChanged (fullscreen : bool)
| windowBoundsChanged (bounds : Bounds)
| firstWindowReady (id : Z)
| windowReady (id : Z)
| bounce
| focusWindow (hidden : bool)
| closeTab_null.

Inductive Callback : Type :=
| DispatchQuit
| DestroyWindow (id : Z).

(** What the handlers do to the outside; windows are named by their
    Electron id, timers by the handle [setTimeout] returned.
    [SetTimeout] is a call of [setTimeout] written in this module (the
    quit timeout and the destroy timeout of the [close] handler);
    [DebouncedBounds] is a call of the debounced function of [move] and
    [resize], whose timer is set inside underscore and is not one of
    these. *)
Inductive Effect : Type :=
| Log (line : string)
| NewBrowserWindow (id : Z) (options : WindowOptions)
| DockSetIcon (iconPath : string)
| SetPosition (id : Z) (x y : Z)
| LoadURL (id : Z)
| PreventDefault (id : Z)
| Hide (id : Z)
| Show (id : Z)
| Maximize (id : Z)
| Close (id : Z)
| OpenDevTools (id : Z)
| SetTimeout (handle : nat) (callback : Callback) (ms : Z)
| ClearTimeout (handle : nat)
| DebouncedBounds (id : Z)
| ConfigSetBounds (bounds : Bounds)
| ConfigSetMaximized (maximized : bool)
| AppQuit
| QuitAndInstall
| Dispatch (action : StoreAction).

(** What a handler reads from outside the module when it runs. *)
Record Env : Type := {
  platform : string;                      (* os.platform() *)
  appName : string;                       (* app.getName() *)
  iconPath : string;                      (* ospath.resolve(...) *)
  darkMineShaft : string;
  config_bounds : option UserBounds;      (* config.get(BOUNDS_CONFIG_KEY) *)
  config_maximized : bool;                (* config.get(MAXIMIZED_CONFIG_KEY) *)
  newWindowId : Z;                        (* the id of a window made now *)
  dockSetIcon : Result unit;              (* app.dock.setIcon(iconPath) *)
  mainWindowId : option Z;                (* state.ui.mainWindow.id *)
  preferences : option Preferences;       (* state.preferences *)
  translate : string -> string;           (* localizer.getT(...) *)
  fromId : Z -> bool;                     (* BrowserWindow.fromId(id) is there *)
  isVisible : Z -> bool;                  (* window.isVisible() *)
  isDestroyed : Z -> bool;                (* window.isDestroyed() *)
  getBounds : Z -> Bounds;                (* window.getBounds() *)
  closeWindow : Z -> Result unit;         (* window.close() *)
  getFocusedWindow : option Z;            (* BrowserWindow.getFocusedWindow() *)
  devtools : bool                         (* parseInt(process.env.DEVTOOLS, 10) > 0 *)
}.

(** The variables that the handlers of one window close over. *)
Record Closure : Type := {
  closure_hidden : bool;
  destroyTimeout : option nat
}.

(** The module variables, the windows made so far, the timers set so
    far and the effects so far. *)
Record State : Type := {
  createLock : bool;
  quitting : bool;
  firstWindow : bool;
  windows : gmap Z Closure;
  timers : nat;
  effects : list Effect
}.

Definition initial : State :=
  {| createLock := false; quitting := false; firstWindow := true;
     windows := ∅; timers := 0; effects := [] |}.

Definition does (evs : list Effect) (s : State) : State :=
  {| createLock := createLock s; quitting := quitting s;
     firstWindow := firstWindow s; windows := windows s;
     timers := timers s; effects := effects s ++ evs |}.

Definition macOs (env : Env) : bool := String.eqb (platform env) "darwin".

Definition truthy_id (id : option Z) : bool :=
  match id with Some n => negb (n =? 0) | None => false end.

(** [function showWindow (window)] *)
Definition showWindow (env : Env) (id : Z) : list Effect :=
  Show id ::
  (if config_maximized env && negb (macOs env) then [Maximize id] else []).

(** [async function createWindow (store, hidden)], the handlers it
    registers being the functions below. *)
Definition createWindow (env : Env) (hidden_ : bool) (s : State) : State :=
  if createLock s then s
  else
    let bounds := mergeBounds (config_bounds env) in
    let center := (x bounds =? -1) && (y bounds =? -1) in
    let id := newWindowId env in
    let options :=
      {| opt_title := appName env; opt_icon := iconPath env;
         opt_width := width bounds; opt_height := height bounds;
         opt_center := center; opt_show := false;
         opt_autoHideMenuBar := true;
         opt_backgroundColor := darkMineShaft env;
         opt_titleBarStyle := "hidden" |} in
    {| createLock := true; quitting := quitting s;
       firstWindow := firstWindow s;
       windows := <[id := {| closure_hidden := hidden_;
                             destroyTimeout := None |}]> (windows s);
       timers := timers s;
       effects :=
         effects s
         ++ [Log ("creating main window with icon: " +:+ iconPath env);
             Log "cf. https://github.com/electron/electron/issues/6205";
             NewBrowserWindow id options]
         ++ (if String.eqb (platform env) "darwin" then
               [Log ("setting icon to: " +:+ iconPath env);
                DockSetIcon (iconPath env)]
               ++ match dockSetIcon env with
                  | Ok _ => []
                  | Err e => [Log ("error setting icon: " +:+ message e)]
                  end
             else [])
         ++ (if negb center then [SetPosition id (x bounds) (y bounds)]
             else [])
         ++ [LoadURL id; Log "Calling loadURL"] |}.

(** [window.on("close", ...)] *)
Definition onClose (env : Env) (id : Z) (c : Closure) (s : State) : State :=
  let s := does [Log "Main window being closed"] s in
  if quitting s then
    does [Log "Quitting, letting main window close"] s
  else
    let prefs := default {| closeToTray := true;
                            gotMinimizeNotification := false |}
                   (preferences env) in
    if negb (closeToTray prefs) then
      {| createLock := createLock s; quitting := quitting s;
         firstWindow := firstWindow s; windows := windows s;
         timers := S (timers s);
         effects := effects s
                    ++ [Log "Close to tray disabled, quitting!";
                        SetTimeout (timers s) DispatchQuit 100] |}
    else
      let s := does [Log "Close to tray enabled"] s in
      if negb (isVisible env id) then
        does [Log "Main window hidden, letting it close"] s
      else
        let notified :=
          if negb (gotMinimizeNotification prefs) then
            [Dispatch updatePreferences_gotMinimizeNotification;
             Dispatch (notify (translate env "notification.see_you_soon.title")
                              (translate env "notification.see_you_soon.message"))]
          else [] in
        {| createLock := createLock s; quitting := quitting s;
           firstWindow := firstWindow s;
           windows := <[id := {| closure_hidden := closure_hidden c;
                                 destroyTimeout := Some (timers s) |}]>
                        (windows s);
           timers := S (timers s);
           effects := effects s ++ notified
                      ++ [PreventDefault id;
                          Log "Hiding main window for a while..";
                          Hide id;
                          SetTimeout (timers s) (DestroyWindow id)
                            (10 * 1000)] |}.

(** The callback of the destroy timeout. *)
Definition onDestroyTimeout (env : Env) (id : Z) (s : State) : State :=
  if isDestroyed env id then does [Log "Window already destroyed!"] s
  else if negb (isVisible env id) then
    does (Close id ::
          match closeWindow env id with
          | Ok _ => []
          | Err e => [Log ("While attempting to destroy window: "
                           +:+ message e)]
          end) s
  else s.

(** [window.on("focus", ...)] *)
Definition onFocus (id : Z) (c : Closure) (s : State) : State :=
  match destroyTimeout c with
  | Some handle =>
      {| createLock := createLock s; quitting := quitting s;
         firstWindow := firstWindow s;
         windows := <[id := {| closure_hidden := closure_hidden c;
                               destroyTimeout := None |}]> (windows s);
         timers := timers s;
         effects := effects s
                    ++ [Log "Got focused, clearing destroy timeout";
                        ClearTimeout handle;
                        Dispatch (windowFocusChanged true)] |}
  | None => does [Dispatch (windowFocusChanged true)] s
  end.

(** [window.on("ready-to-show", ...)] *)
Definition onReadyToShow (env : Env) (id : Z) (c : Closure) (s : State)
    : State :=
  {| createLock := false; quitting := quitting s; firstWindow := false;
     windows := windows s; timers := timers s;
     effects :=
       effects s
       ++ [Log "Ready to show!"]
       ++ (if devtools env then [Log "Opening devtools"; OpenDevTools id]
           else [Log "No devtools"])
       ++ (if firstWindow s then
             [Log ("Sending windowReady with id " +:+ pretty id);
              Dispatch (firstWindowReady id)]
           else [])
       ++ [Dispatch (windowReady id)]
       ++ (if closure_hidden c then [Dispatch bounce]
           else showWindow env id) |}.

(** The events of a window and the timers, and the actions that the
    reactors of the module watch. *)
Inductive Event : Type :=
| window_close (id : Z)
| window_closed (id : Z)
| window_focus (id : Z)
| window_blur (id : Z)
| window_enter_full_screen (id : Z)
| window_leave_full_screen (id : Z)
| window_move (id : Z)
| window_resize (id : Z)
| window_maximize (id : Z)
| window_unmaximize (id : Z)
| window_ready_to_show (id : Z)
| timeout_fires (callback : Callback)
| debounced_fires (id : Z)
| action_preferencesLoaded (openAsHidden : bool)
| action_focusWindow (payload : option FocusPayload)
| action_hideWindow
| action_windowBoundsChanged (bounds : Bounds)
| action_closeTabOrAuxWindow
| action_quitWhenMain
| action_quitElectronApp
| action_prepareQuit
| action_quit
| action_quitAndInstall.

Definition setQuitting (evs : list Effect) (s : State) : State :=
  {| createLock := createLock s; quitting := true;
     firstWindow := firstWindow s; windows := windows s;
     timers := timers s; effects := effects s ++ evs |}.

(** A handler of a window only runs for a window that this module
    made: [k] gets the variables it closes over. *)
Definition onWindow (id : Z) (k : Closure -> State -> State) (s : State)
    : State :=
  match windows s !! id with
  | Some c => k c s
  | None => s
  end.

(** What a handler throws: the name and the message of an error that
    the handler makes itself, or what [window.close()] threw. *)
Inductive Thrown : Type :=
| NamedError (name message : string)
| CloseFailure (e : Error).

Definition thrown {A} (r : Result A) : option Thrown :=
  match r with Ok _ => None | Err e => Some (CloseFailure e) end.

(** One event: the state after its handler, and the error the handler
    threw, if any. [hideWindow()] is not awaited: what its [close]
    throws is not the handler's. *)
Definition step (env : Env) (ev : Event) (s : State) : State * option Thrown :=
  match ev with
  | window_close id => (onWindow id (onClose env id) s, None)
  | window_closed id =>
      (onWindow id (fun _ => does [Dispatch windowDestroyed]) s, None)
  | window_focus id => (onWindow id (onFocus id) s, None)
  | window_blur id =>
      (onWindow id (fun _ => does [Dispatch (windowFocusChanged false)]) s, None)
  | window_enter_full_screen id =>
      (onWindow id (fun _ => does [Dispatch (windowFullscreenChanged true)]) s,
       None)
  | window_leave_full_screen id =>
      (onWindow id (fun _ => does [Dispatch (windowFullscreenChanged false)]) s,
       None)
  | window_move id | window_resize id =>
      (onWindow id (fun _ => does [DebouncedBounds id]) s, None)
  | window_maximize id =>
      (onWindow id (fun _ => does [ConfigSetMaximized true]) s, None)
  | window_unmaximize id =>
      (onWindow id (fun _ => does [ConfigSetMaximized false]) s, None)
  | window_ready_to_show id => (onWindow id (onReadyToShow env id) s, None)
  | timeout_fires DispatchQuit => (does [Dispatch quit] s, None)
  | timeout_fires (DestroyWindow id) => (onDestroyTimeout env id s, None)
  | debounced_fires id =>
      (if isDestroyed env id then s
       else does [Dispatch (windowBoundsChanged (getBounds env id))] s, None)
  | action_preferencesLoaded openAsHidden =>
      (does [Dispatch (focusWindow openAsHidden)] s, None)
  | action_focusWindow payload =>
      let options := default {| toggle := false; hidden := false |} payload in
      if truthy_id (mainWindowId env) then
        let id := default 0 (mainWindowId env) in
        if negb (fromId env id) then
          (* invariant(window, "window still exists") *)
          (s, Some (NamedError "Invariant Violation" "window still exists"))
        else if toggle options && isVisible env id then
          (does [Hide id] s, None)
        else (does (showWindow env id) s, None)
      else
        match payload with
        | None =>
            (s, Some (NamedError "TypeError"
                        "Cannot read property 'hidden' of undefined"))
        | Some payload => (createWindow env (hidden payload) s, None)
        end
  | action_hideWindow =>
      (match getFocusedWindow env with
       | Some id => does [Close id] s
       | None => s
       end, None)
  | action_windowBoundsChanged bounds => (does [ConfigSetBounds bounds] s, None)
  | action_closeTabOrAuxWindow =>
      match getFocusedWindow env with
      | Some focused =>
          if bool_decide (Some focused = mainWindowId env)
          then (does [Dispatch closeTab_null] s, None)
          else (does [Close focused] s, thrown (closeWindow env focused))
      | None => (s, None)
      end
  | action_quitWhenMain =>
      match getFocusedWindow env with
      | Some focused =>
          if bool_decide (Some focused = mainWindowId env)
          then (does [Dispatch quit] s, None)
          else (does [Close focused] s, thrown (closeWindow env focused))
      | None => (s, None)
      end
  | action_quitElectronApp => (does [AppQuit] s, None)
  | action_prepareQuit => (setQuitting [] s, None)
  | action_quit => (setQuitting [Dispatch quitElectronApp] s, None)
  | action_quitAndInstall =>
      (setQuitting [Log "Handing off to Squirrel for self-update";
                    QuitAndInstall] s, None)
  end.

(** A sequence of events, each with what its handler reads. *)
Definition steps (l : list (Env * Event)) (s : State) : State :=
  foldl (fun s e => (step e.1 e.2 s).1) s l.

Definition newEffects (s s' : State) : list Effect :=
  drop (length (effects s)) (effects s').

Definition isNewWindow (e : Effect) : bool :=
  match e with NewBrowserWindow _ _ => true | _ => false end.

Definition isFirstWindowReady (e : Effect) : bool :=
  match e with Dispatch (firstWindowReady _) => true | _ => false end.

Definition isLog (e : Effect) : bool :=
  match e with Log _ => true | _ => false end.

(** [(store.getState().preferences || {closeToTray: true})] as the
    handler of [close] reads it. *)
Definition effectivePreferences (env : Env) : Preferences :=
  default {| closeToTray := true; gotMinimizeNotification := false |}
    (preferences env).

(** What the handler of [close] dispatches the first time it hides the
    window. *)
Definition seeYouSoon (env : Env) : list Effect :=
  if negb (gotMinimizeNotification (effectivePreferences env)) then
    [Dispatch updatePreferences_gotMinimizeNotification;
     Dispatch (notify (translate env "notification.see_you_soon.title")
                      (translate env "notification.see_you_soon.message"))]
  else [].

(** The effects by which a [close] handler keeps its window or delays
    the end: it prevents the close, or it calls [setTimeout] (for the
    quit timeout or the destroy timeout). The timer of the debounced
    bounds is not among them. *)
Definition holdsBack (e : Effect) : bool :=
  match e with PreventDefault _ | SetTimeout _ _ _ => true | _ => false end.

Definition isClearTimeout (e : Effect) : bool :=
  match e with ClearTimeout _ => true | _ => false end.

(** The options of the window that [createWindow] makes under [env]. *)
Definition windowOptions (env : Env) : WindowOptions :=
  let bounds := mergeBounds (config_bounds env) in
  {| opt_title := appName env; opt_icon := iconPath env;
     opt_width := width bounds; opt_height := height bounds;
     opt_center := (x bounds =? -1) && (y bounds =? -1); opt_show := false;
     opt_autoHideMenuBar := true;
     opt_backgroundColor := darkMineShaft env;
     opt_titleBarStyle := "hidden" |}.

(** The event is the [ready-to-show] of a window that this module made
    before. *)
Definition isReadyToShow (ev : Event) : bool :=
  match ev with window_ready_to_show _ => true | _ => false end.

Definition sampleEnv : Env :=
  {| platform := "linux"; appName := "itch"; iconPath := "/static/icon.png";
     darkMineShaft := "#2E2B2C";
     config_bounds := Some {| user_x := Some 40; user_y := None;
                              user_width := Some 800; user_height := None |};
     config_maximized := true; newWindowId := 1;
     dockSetIcon := Ok tt; mainWindowId := None;
     preferences := None; translate := fun key => key;
     fromId := fun _ => true; isVisible := fun _ => true;
     isDestroyed := fun _ => false;
     getBounds := fun _ => {| x := 40; y := -1; width := 800; height := 720 |};
     closeWindow := fun _ => Ok tt; getFocusedWindow := Some 1;
     devtools := false |}.

End MainWindow.

(** [withValidation validate w]: the world [w] where the validation of
    a manifest answers as [validate]. *)
Definition withValidation (validate : Manifest -> Result unit) (w : World)
    : World :=
  {| gameLazily := gameLazily w;
     actionForGame := actionForGame w;
     appPath_of := appPath_of w;
     ospath_join := ospath_join w;
     explorer_open := explorer_open w;
     startTask := startTask w;
     app_getVersion := app_getVersion w;
     sf_exists := sf_exists w;
     sf_readFile := sf_readFile w;
     toml_parse := toml_parse w;
     validateManifest := validate;
     promisedModal := promisedModal w;
     defaultManifestIcons := defaultManifestIcons w;
     itchPlatform := itchPlatform w;
     fnout_path := fnout_path w;
     client_subkey := client_subkey w;
     spawn := spawn w;
     launcher := launcher w;
     clock := clock w |}.

Definition sampleInvalid : Error :=
  {| isCrash := false; message := "actions[0].path: required"; reason := None |}.

(** [sameUpToCase s s']: the two texts have the same length and, place
    by place, characters that the [i] flag does not tell apart. *)
Fixpoint sameUpToCase (s s' : string) : Prop :=
  match s, s' with
  | EmptyString, EmptyString => True
  | String a s, String a' s' =>
      RegExp.canonicalize a = RegExp.canonicalize a' /\ sameUpToCase s s'
  | _, _ => False
  end.

(** Two results of the matcher agree: both fail, or both leave texts
    that are the same up to case. *)
Definition agree (o o' : option string) : Prop :=
  match o, o' with
  | Some t, Some t' => sameUpToCase t t'
  | None, None => True
  | _, _ => False
  end.

(** [withSniff sniff w]: the world [w] where the sniffer answers as
    [sniff]; [Ok None] is the null that it resolves to for a file
    without a signature it knows. *)
Definition withSniff (sniff : string -> Result (option SniffResult))
    (w : World) : World :=
  {| gameLazily := gameLazily w;
     actionForGame := actionForGame w;
     appPath_of := appPath_of w;
     ospath_join := ospath_join w;
     explorer_open := explorer_open w;
     startTask := startTask w;
     app_getVersion := app_getVersion w;
     sf_exists := sf_exists w;
     sf_readFile := sf_readFile w;
     toml_parse := toml_parse w;
     validateManifest := validateManifest w;
     promisedModal := promisedModal w;
     defaultManifestIcons := defaultManifestIcons w;
     itchPlatform := itchPlatform w;
     fnout_path := sniff;
     client_subkey := client_subkey w;
     spawn := spawn w;
     launcher := launcher w;
     clock := clock w |}.

(** An action that opens a text file. *)
Definition readmeAction : ManifestAction :=
  {| action_name := "readme"; action_path := "README";
     action_icon := None; action_args := None; action_scope := None |}.

(** A windows world whose manifest has the one action [readmeAction],
    the sniffer knowing no signature of any file. *)
Definition readmeWorld : World :=
  withSniff (fun _ => Ok None)
    (sampleWorld "windows" (Some {| actions := [readmeAction] |}) ModalClosed
       id (Ok 0) ([], Ok tt) []).


(** * Properties *)

(** ** Regular expressions *)

Module RegExpFacts.
Import RegExp.



(** A match at some position is found by the search from the left. *)
Lemma exec_from_app i r suffix :
  (forall b, rmatch i r b suffix accept <> None) ->
  forall pre b, exec_from i r b (pre +:+ suffix) <> None.
Proof.
  intros Hm pre. induction pre as [|a pre IH]; intros b; simpl.
  - destruct suffix; simpl;
      (destruct (rmatch i r b _ accept) eqn:E; [discriminate | now apply Hm in E]).
  - destruct (rmatch i r b (String a (pre +:+ suffix)) accept); [discriminate|].
    specialize (IH false).
    destruct (exec_from i r false (pre +:+ suffix)) as [[? ?]|];
      [discriminate | contradiction].
Qed.

Lemma test_ends_with i r s suffix :
  ends_with s suffix ->
  (forall b, rmatch i r b suffix accept <> None) ->
  test i r s = true.
Proof.
  intros [pre ->] Hm. unfold test, exec.
  pose proof (exec_from_app i r suffix Hm pre true) as H.
  destruct (exec_from i r true (pre +:+ suffix)); [reflexivity | contradiction].
Qed.

Lemma test_at_start i r s :
  rmatch i r true s accept <> None -> test i r s = true.
Proof.
  intros H. unfold test, exec.
  destruct s; simpl; destruct (rmatch i r true _ accept); congruence.
Qed.

Lemma nativeExt_dot_extension s ext :
  ext ∈ [".app"; ".exe"; ".bat"; ".sh"] ->
  ends_with s ext -> test true Pattern.nativeExt s = true.
Proof.
  intros Hin Hs. apply (test_ends_with _ _ _ _ Hs).
  repeat (apply elem_of_cons in Hin as [-> | Hin]);
    [ intros []; vm_compute; discriminate .. | inversion Hin ].
Qed.

(** The wildcard: any character but a line terminator will do in front
    of the extension letters. *)
Lemma nativeExt_any_char s c ext :
  ext ∈ ["app"; "exe"; "bat"; "sh"] ->
  isLineTerminator c = false ->
  ends_with s (String c ext) -> test true Pattern.nativeExt s = true.
Proof.
  intros Hin Hc Hs. apply (test_ends_with _ _ _ _ Hs).
  intros b. unfold Pattern.nativeExt. simpl rmatch at 1. rewrite Hc.
  repeat (apply elem_of_cons in Hin as [-> | Hin]);
    [ vm_compute; discriminate .. | inversion Hin ].
Qed.

Lemma htmlExt_dot_extension s ext :
  ext ∈ [".html"; ".htm"] ->
  ends_with s ext -> test true Pattern.htmlExt s = true.
Proof.
  intros Hin Hs. apply (test_ends_with _ _ _ _ Hs).
  repeat (apply elem_of_cons in Hin as [-> | Hin]);
    [ intros []; vm_compute; discriminate .. | inversion Hin ].
Qed.

Lemma httpUrl_prefix s prefix :
  prefix ∈ ["http://"; "https://"] ->
  starts_with s prefix -> test true Pattern.httpUrl s = true.
Proof.
  intros Hin [rest ->]. apply test_at_start.
  repeat (apply elem_of_cons in Hin as [-> | Hin]);
    [ vm_compute; discriminate .. | inversion Hin ].
Qed.

End RegExpFacts.

(** ** Reasoning about the task monad *)


Section Emits.

Context (P : Event -> Prop).

Lemma emits_silent {A} (m : M A) :
  (forall s, trace (m s).2 = trace s) -> emits P m.
Proof. intros H s. exists []. rewrite H, app_nil_r. auto. Qed.

Lemma emits_ret {A} (a : A) : emits P (ret a).
Proof. now apply emits_silent. Qed.

Lemma emits_return {A} : emits P (@return_ A).
Proof. now apply emits_silent. Qed.

Lemma emits_throw {A} e : emits P (@throw A e).
Proof. now apply emits_silent. Qed.

Lemma emits_lift {A} (r : Result A) : emits P (lift r).
Proof. destruct r; [apply emits_ret | apply emits_throw]. Qed.

Lemma emits_getCaves : emits P getCaves.
Proof. now apply emits_silent. Qed.

Lemma emits_setCaves m : emits P (setCaves m).
Proof. now apply emits_silent. Qed.

Lemma emits_now w : emits P (now w).
Proof. now apply emits_silent. Qed.

Lemma emits_emit e : P e -> emits P (emit e).
Proof. intros H s. exists [e]. simpl. auto. Qed.

Lemma emits_bind {A B} (m : M A) (k : A -> M B) :
  emits P m -> (forall a, emits P (k a)) -> emits P (bind m k).
Proof.
  intros Hm Hk s. unfold bind. destruct (Hm s) as (e1 & E1 & F1).
  destruct (m s) as [[a| |e] s1]; simpl in *; eauto.
  destruct (Hk a s1) as (e2 & E2 & F2).
  exists (e1 ++ e2). rewrite E2, E1, app_assoc. split; [done|].
  apply Forall_app; auto.
Qed.

Lemma emits_try_catch_finally {A} (body : M A) handler fin :
  emits P body -> (forall e, emits P (handler e)) -> emits P fin ->
  emits P (try_catch_finally body handler fin).
Proof.
  intros Hb Hh Hf s. unfold try_catch_finally.
  destruct (Hb s) as (e1 & E1 & F1).
  destruct (body s) as [r1 s1]; simpl in *.
  assert (exists e2, forall r2 s2,
             (r2, s2) = match r1 with
                        | Threw e => handler e s1
                        | _ => (r1, s1)
                        end ->
             trace s2 = trace s1 ++ e2 /\ Forall P e2) as (e2 & H2).
  { destruct r1 as [a| |e].
    - exists []. intros ? ? [= -> ->]. now rewrite app_nil_r.
    - exists []. intros ? ? [= -> ->]. now rewrite app_nil_r.
    - destruct (Hh e s1) as (e2 & E2 & F2). exists e2.
      intros r2 s2 Heq. rewrite <- Heq in *. auto. }
  destruct (match r1 with Threw e => handler e s1 | _ => (r1, s1) end)
    as [r2 s2].
  destruct (H2 r2 s2 eq_refl) as [E2 F2].
  destruct (Hf s2) as (e3 & E3 & F3).
  exists (e1 ++ e2 ++ e3).
  split.
  - destruct (fin s2) as [[[]| |e] s3]; simpl in *;
      rewrite E3, E2, E1, <- !app_assoc; reflexivity.
  - repeat (apply Forall_app; split); auto.
Qed.

Lemma emits_function body : emits P body -> emits P (function_ body).
Proof.
  intros Hb s. unfold function_. destruct (Hb s) as (e & E & F).
  exists e. destruct (body s) as [[[]| |?] s1]; simpl in *; auto.
Qed.

Lemma emits_each {A} (f : A -> nat -> M unit) l :
  (forall x i, emits P (f x i)) -> forall i, emits P (each f i l).
Proof.
  intros Hf. induction l as [|x l IH]; intros i; simpl.
  - apply emits_ret.
  - apply emits_bind; auto.
Qed.

End Emits.

Lemma emits_weaken {A} (P Q : Event -> Prop) (m : M A) :
  (forall e, P e -> Q e) -> emits P m -> emits Q m.
Proof.
  intros HPQ Hm s. destruct (Hm s) as (evs & E & F).
  exists evs. split; [done|]. eapply Forall_impl; eauto.
Qed.

Ltac emits_step :=
  lazymatch goal with
  | |- emits _ (bind _ _) => apply emits_bind; [| intros ?]
  | |- emits _ (ret _) => apply emits_ret
  | |- emits _ return_ => apply emits_return
  | |- emits _ (throw _) => apply emits_throw
  | |- emits _ (lift _) => apply emits_lift
  | |- emits _ getCaves => apply emits_getCaves
  | |- emits _ (setCaves _) => apply emits_setCaves
  | |- emits _ (now _) => apply emits_now
  | |- emits _ (emit _) => apply emits_emit; simpl; try exact I
  | |- emits _ (log _) => apply emits_emit; simpl; try exact I
  | |- emits _ (call _ _) => unfold call
  | |- emits _ (getEntity _) => unfold getEntity
  | |- emits _ (saveEntity _ _) => unfold saveEntity
  | |- emits _ (try_catch _ _) => unfold try_catch
  | |- emits _ (try_catch_finally _ _ _) =>
      apply emits_try_catch_finally; [| intros ? |]
  | |- emits _ (function_ _) => apply emits_function
  | |- emits _ (each _ _ _) => apply emits_each; intros ? ?
  | |- emits _ (match ?x with _ => _ end) => destruct x
  end.

Ltac emits_auto := repeat emits_step.

(** *** What each part of the task may emit *)


Lemma launchTypeForAction_emits w appPath actionPath :
  emits sniffs (launchTypeForAction w appPath actionPath).
Proof. unfold launchTypeForAction. emits_auto. Qed.


Lemma diagnose_emits w game cave : emits diagnoses (diagnose w game cave).
Proof. unfold diagnose, awaitStartTask. emits_auto. Qed.


Lemma pushBigButtons_silent w l : forall i acc s,
  (pushBigButtons w i l acc s).2 = s.
Proof.
  induction l as [|a l IH]; intros i acc s; simpl; [done|].
  destruct (Js.truthy (action_name a)); simpl; [apply IH | done].
Qed.

Lemma pickAction_emits w opts action game manifest :
  emits chooses (pickAction w opts action game manifest).
Proof.
  unfold pickAction. emits_auto.
  apply emits_silent. intros s. now rewrite pushBigButtons_silent.
Qed.

Lemma resolveManifest_emits w opts action game manifestPath hasManifest :
  emits resolves (resolveManifest w opts action game manifestPath hasManifest).
Proof.
  unfold resolveManifest. emits_auto.
  eapply emits_weaken; [| apply pickAction_emits]. now intros [].
Qed.


Lemma prepare_emits w opts game appPath launchType manifestAction :
  emits prepares (prepare w opts game appPath launchType manifestAction).
Proof.
  unfold prepare. emits_auto.
  eapply emits_weaken; [| apply launchTypeForAction_emits].
  now intros [].
Qed.


Lemma ue4Prereq_emits w cave appPath : emits installs (ue4Prereq w cave appPath).
Proof. unfold ue4Prereq, awaitSpawn. emits_auto. Qed.


Lemma supervise_emits w launchType gameOpts cave :
  emits supervises (supervise w launchType gameOpts cave).
Proof.
  unfold supervise, awaitLauncher, activity, updatePlaytime. emits_auto.
Qed.

(** ** Launch type of a manifest action *)

Section Classification.

Import RegExp RegExpFacts.

Variable w : World.
Variables appPath actionPath : string.

Lemma launchTypeForAction_native s :
  test true Pattern.nativeExt actionPath = true ->
  launchTypeForAction w appPath actionPath s = (Val "native", s).
Proof. intros H. unfold launchTypeForAction. now rewrite H. Qed.

Lemma launchTypeForAction_html s :
  test true Pattern.nativeExt actionPath = false ->
  test true Pattern.htmlExt actionPath = true ->
  launchTypeForAction w appPath actionPath s = (Val "html", s).
Proof. intros H1 H2. unfold launchTypeForAction. now rewrite H1, H2. Qed.

Lemma launchTypeForAction_external s :
  test true Pattern.nativeExt actionPath = false ->
  test true Pattern.htmlExt actionPath = false ->
  test true Pattern.httpUrl actionPath = true ->
  launchTypeForAction w appPath actionPath s = (Val "external", s).
Proof.
  intros H1 H2 H3. unfold launchTypeForAction. now rewrite H1, H2, H3.
Qed.

Lemma launchTypeForAction_sniffed s sniffRes :
  test true Pattern.nativeExt actionPath = false ->
  test true Pattern.htmlExt actionPath = false ->
  test true Pattern.httpUrl actionPath = false ->
  fnout_path w (ospath_join w appPath actionPath) = Ok (Some sniffRes) ->
  launchTypeForAction w appPath actionPath s =
    (Val (if (linuxExecutable sniffRes && String.eqb (itchPlatform w) "linux")
             || (macExecutable sniffRes && String.eqb (itchPlatform w) "osx")
          then "native" else "shell"),
     appendTrace [EFnoutPath (ospath_join w appPath actionPath)] s).
Proof.
  intros H1 H2 H3 H4. unfold launchTypeForAction.
  rewrite H1, H2, H3. unfold call, bind, emit, lift. rewrite H4. simpl.
  now destruct (_ || _).
Qed.

Lemma launchTypeForAction_unrecognised s :
  test true Pattern.nativeExt actionPath = false ->
  test true Pattern.htmlExt actionPath = false ->
  test true Pattern.httpUrl actionPath = false ->
  fnout_path w (ospath_join w appPath actionPath) = Ok None ->
  launchTypeForAction w appPath actionPath s =
    (Threw (TypeError "Cannot read property 'linuxExecutable' of null"),
     appendTrace [EFnoutPath (ospath_join w appPath actionPath)] s).
Proof.
  intros H1 H2 H3 H4. unfold launchTypeForAction.
  rewrite H1, H2, H3. unfold call, bind, emit, lift. now rewrite H4.
Qed.

Lemma matchesPlatform_spec sniffRes :
  (linuxExecutable sniffRes && String.eqb (itchPlatform w) "linux")
  || (macExecutable sniffRes && String.eqb (itchPlatform w) "osx") = true
  <-> matchesPlatform (itchPlatform w) sniffRes.
Proof.
  unfold matchesPlatform.
  rewrite orb_true_iff, !andb_true_iff, !String.eqb_eq. tauto.
Qed.

End Classification.

(** The manifest path of the specification on windows. *)
Example game_ext_on_windows :
  RegExp.replace false Pattern.extPlaceholder (appExt (plainWorld "windows"))
    "Game{{EXT}}" = "Game.exe"
  /\ launchTypeForAction (plainWorld "windows") "/apps/cave-1" "Game.exe"
       sampleState = (Val "native", sampleState).
Proof. split; reflexivity. Qed.

(** The launch type of an action path is decided in a fixed order: a
    path the native-extension pattern accepts (in particular one that
    ends in .app, .exe, .bat or .sh) is native, and no file is read;
    failing that, a path the HTML pattern accepts (one that ends in
    .html or .htm) is html; failing that, a path the URL pattern accepts
    (one that starts with http:// or https://) is external; failing
    that, the file is sniffed. When the sniffer knows a signature of
    the file, the type is native exactly when the signature is the
    platform's (ELF on linux, Mach-O on macOS) and shell otherwise, so
    that it is always shell on a platform that is neither linux nor
    osx. When the sniffer knows none and answers null, the
    classification throws. *)
Theorem launchTypeForAction_precedence
    (w : World) (appPath actionPath : string) (s : State) :
  let classify := launchTypeForAction w appPath actionPath s in
  let native := RegExp.test true Pattern.nativeExt actionPath in
  let html := RegExp.test true Pattern.htmlExt actionPath in
  let url := RegExp.test true Pattern.httpUrl actionPath in
  let fullPath := ospath_join w appPath actionPath in
  (native = true \/
   (exists ext, ext ∈ [".app"; ".exe"; ".bat"; ".sh"] /\ ends_with actionPath ext) ->
   classify = (Val "native", s))
  /\ (native = false ->
      html = true \/
      (exists ext, ext ∈ [".html"; ".htm"] /\ ends_with actionPath ext) ->
      classify = (Val "html", s))
  /\ (native = false -> html = false ->
      url = true \/
      (exists scheme, scheme ∈ ["http://"; "https://"] /\
                      starts_with actionPath scheme) ->
      classify = (Val "external", s))
  /\ (native = false -> html = false -> url = false ->
      (forall sniffRes, fnout_path w fullPath = Ok (Some sniffRes) ->
         classify.2 = appendTrace [EFnoutPath fullPath] s
         /\ (matchesPlatform (itchPlatform w) sniffRes -> classify.1 = Val "native")
         /\ (~ matchesPlatform (itchPlatform w) sniffRes -> classify.1 = Val "shell")
         /\ (itchPlatform w <> "linux" -> itchPlatform w <> "osx" ->
             classify.1 = Val "shell"))
      /\ (fnout_path w fullPath = Ok None ->
          classify =
            (Threw (TypeError "Cannot read property 'linuxExecutable' of null"),
             appendTrace [EFnoutPath fullPath] s))).
Proof.
  cbv zeta. split; [| split; [| split; [| intros H1 H2 H3; split;
    [intros sniffRes Hsniff; repeat split
    | now apply launchTypeForAction_unrecognised]]]].
  - intros [H | (ext & Hin & He)]; apply launchTypeForAction_native; auto.
    eapply RegExpFacts.nativeExt_dot_extension; eauto.
  - intros H1 [H | (ext & Hin & He)]; apply launchTypeForAction_html; auto.
    eapply RegExpFacts.htmlExt_dot_extension; eauto.
  - intros H1 H2 [H | (p & Hin & Hp)]; apply launchTypeForAction_external; auto.
    eapply RegExpFacts.httpUrl_prefix; eauto.
  - now rewrite (launchTypeForAction_sniffed w _ _ s sniffRes).
  - intros Hm. rewrite (launchTypeForAction_sniffed w _ _ s sniffRes) by done.
    apply matchesPlatform_spec in Hm. simpl. now rewrite Hm.
  - intros Hm. rewrite (launchTypeForAction_sniffed w _ _ s sniffRes) by done.
    simpl. destruct (_ || _) eqn:E; [|done].
    now apply matchesPlatform_spec in E.
  - intros Hl Ho. rewrite (launchTypeForAction_sniffed w _ _ s sniffRes) by done.
    simpl. destruct (_ || _) eqn:E; [|done].
    apply matchesPlatform_spec in E as [[_ E] | [_ E]]; contradiction.
Qed.

Lemma launchTypeForAction_precedence_witness :
  launchTypeForAction (plainWorld "windows") "/apps/cave-1" "bin/run.sh"
    sampleState = (Val "native", sampleState)
  /\ (launchTypeForAction (plainWorld "windows") "/apps/cave-1" "README"
        sampleState).1 = Val "shell".
Proof.
  split.
  - apply (launchTypeForAction_precedence (plainWorld "windows")
             "/apps/cave-1" "bin/run.sh" sampleState).
    right. exists ".sh". split; [set_solver | now exists "bin/run"].
  - apply (launchTypeForAction_precedence (plainWorld "windows")
             "/apps/cave-1" "README" sampleState)
      with (sniffRes := {| linuxExecutable := true; macExecutable := false |});
      try reflexivity; discriminate.
Defined.

(** C4 (the code at the failing input). On windows, the action path
    README fails the three patterns, so the file is sniffed; the
    sniffer knows no signature of a text file and answers null, and the
    classification throws a type error where the claim says shell. The
    task started on a manifest whose one action has that path throws
    the same error and calls no launcher. *)
Theorem unrecognised_file_is_not_shell :
  let classify := launchTypeForAction readmeWorld "/apps/cave-1" "README"
                    sampleState in
  let final := doStart readmeWorld sampleOpts sampleState in
  let null := TypeError "Cannot read property 'linuxExecutable' of null" in
  itchPlatform readmeWorld = "windows"
  /\ RegExp.test true Pattern.nativeExt "README" = false
  /\ RegExp.test true Pattern.htmlExt "README" = false
  /\ RegExp.test true Pattern.httpUrl "README" = false
  /\ fnout_path readmeWorld "/apps/cave-1/README" = Ok None
  /\ classify = (Threw null,
                 appendTrace [EFnoutPath "/apps/cave-1/README"] sampleState)
  /\ classify.1 <> Val "shell"
  /\ EFnoutPath "/apps/cave-1/README" ∈ newEvents sampleState final.2
  /\ final.1 = Threw null
  /\ List.filter isLaunch (newEvents sampleState final.2) = [].
Proof.
  cbv zeta. repeat (split; [reflexivity |]).
  split; [discriminate |].
  split; [vm_compute; repeat constructor |].
  split; vm_compute; reflexivity.
Qed.

(** C10 (as it stands, refuted). The path made of a line feed followed
    by "sh" ends in the letters sh preceded by one character, yet the
    wildcard does not accept a line terminator: the pattern fails, the
    file is sniffed, and on a platform other than linux and osx the
    type is shell. *)
Lemma nativeExt_wildcard_refuses_line_feed :
  let actionPath := String "010" "sh" in
  "sh" ∈ ["app"; "exe"; "bat"; "sh"]
  /\ ends_with actionPath (String "010" "sh")
  /\ launchTypeForAction (plainWorld "windows") "/apps/cave-1" actionPath
       sampleState
     = (Val "shell",
        appendTrace [EFnoutPath ("/apps/cave-1/" +:+ actionPath)] sampleState).
Proof.
  cbv zeta. split; [set_solver|]. split; [now exists ""|]. reflexivity.
Qed.

(** C10 (amended). The leading dot of the native-extension pattern is a
    wildcard: every action path that ends in app, exe, bat or sh
    preceded by one character other than a line terminator is native,
    and the file is not sniffed; so are "wombat" and "smash". *)
Theorem nativeExt_wildcard (w : World) (appPath : string) (s : State) :
  (forall actionPath c ext,
      ext ∈ ["app"; "exe"; "bat"; "sh"] ->
      RegExp.isLineTerminator c = false ->
      ends_with actionPath (String c ext) ->
      launchTypeForAction w appPath actionPath s = (Val "native", s))
  /\ launchTypeForAction w appPath "wombat" s = (Val "native", s)
  /\ launchTypeForAction w appPath "smash" s = (Val "native", s).
Proof.
  split; [| split].
  - intros actionPath c ext Hin Hc He. apply launchTypeForAction_native.
    eapply RegExpFacts.nativeExt_any_char; eauto.
  - now apply launchTypeForAction_native.
  - now apply launchTypeForAction_native.
Qed.

Lemma nativeExt_wildcard_witness :
  launchTypeForAction (plainWorld "linux") "/apps/cave-1" "crash" sampleState
  = (Val "native", sampleState).
Proof.
  apply (proj1 (nativeExt_wildcard (plainWorld "linux") "/apps/cave-1"
                  sampleState)) with (c := "a"%char) (ext := "sh").
  - set_solver.
  - reflexivity.
  - now exists "cr".
Defined.

(** ** The record store *)

Arguments market_save : simpl never.

(** The field [secondsRun] persisted for a cave, if any. *)
Lemma market_save_touch_secondsRun id t (m : gmap string CaveRecord) :
  market_save id (touch t) m !! id ≫= secondsRun = m !! id ≫= secondsRun.
Proof.
  unfold market_save. rewrite lookup_insert_eq.
  now destruct (m !! id).
Qed.

Lemma market_save_lookup id p (m : gmap string CaveRecord) stored :
  m !! id = Some stored ->
  market_save id p m !! id = Some (applyPatch p stored).
Proof. intros H. unfold market_save. now rewrite lookup_insert_eq, H. Qed.

(** ** Play time *)

Lemma updatePlaytime_run w cave s stored :
  caves s !! cave_id cave = Some stored ->
  updatePlaytime w cave s =
    (Val tt,
     {| caves :=
          market_save (cave_id cave)
            (playtimePatch (UPDATE_PLAYTIME_INTERVAL + default 0 (secondsRun stored))
               (clock w (clockReads s)))
            (caves s);
        trace :=
          trace s ++
          [ESaveEntity (cave_id cave)
             (playtimePatch
                (UPDATE_PLAYTIME_INTERVAL + default 0 (secondsRun stored))
                (clock w (clockReads s)))];
        clockReads := S (clockReads s) |}).
Proof.
  intros H. unfold updatePlaytime, bind, now, getEntity, getCaves, ret. simpl.
  rewrite H. reflexivity.
Qed.

(** [n] firings of the timer in a row, nobody else writing. *)
Lemma timer_fires_n w cave n : forall i s stored,
  caves s !! cave_id cave = Some stored ->
  exists s' stored',
    each (fun a _ => activity w cave a) i (replicate n TimerFires) s = (Val tt, s')
    /\ caves s' !! cave_id cave = Some stored'
    /\ secondsRun stored' =
       match n with
       | O => secondsRun stored
       | S _ => Some (default 0 (secondsRun stored)
                      + UPDATE_PLAYTIME_INTERVAL * Z.of_nat n)
       end.
Proof.
  induction n as [|n IH]; intros i s stored Hs.
  - exists s, stored. simpl. auto.
  - simpl. unfold bind. simpl activity.
    rewrite (updatePlaytime_run w cave s stored Hs).
    match goal with |- context [each _ _ _ ?s1] => set (s1' := s1) end.
    destruct (IH (S i) s1' (applyPatch
                 (playtimePatch
                    (UPDATE_PLAYTIME_INTERVAL + default 0 (secondsRun stored))
                    (clock w (clockReads s))) stored))
      as (s' & stored' & E & L & V).
    { subst s1'. simpl. now apply market_save_lookup. }
    exists s', stored'. rewrite E. split; [done|]. split; [done|].
    rewrite V. unfold UPDATE_PLAYTIME_INTERVAL.
    destruct n; simpl; f_equal; lia.
Qed.

(** ** The supervised launch *)

Lemma activity_run w cave a s :
  exists s', activity w cave a s = (Val tt, s')
    /\ clockReads s' = (clockReads s + if isTimerFires a then 1 else 0)%nat.
Proof.
  destruct a as [|id p]; simpl.
  - unfold updatePlaytime, bind, now, getEntity, getCaves, ret. simpl.
    destruct (caves s !! cave_id cave); simpl;
      (eexists; split; [reflexivity | simpl; lia]).
  - unfold bind, getCaves, setCaves. simpl.
    eexists; split; [reflexivity | simpl; lia].
Qed.

Lemma activities_run w cave acts : forall i s,
  exists s', each (fun a _ => activity w cave a) i acts s = (Val tt, s')
    /\ clockReads s' = (clockReads s + timerFirings acts)%nat.
Proof.
  induction acts as [|a acts IH]; intros i s; simpl.
  - exists s. split; [done | unfold timerFirings; simpl; lia].
  - unfold bind. destruct (activity_run w cave a s) as (s1 & -> & C1).
    destruct (IH (S i) s1) as (s2 & -> & C2).
    exists s2. split; [done|]. rewrite C2, C1. unfold timerFirings. simpl.
    destruct (isTimerFires a); simpl; lia.
Qed.

Lemma supervise_succeeded w launchType gameOpts cave s acts :
  launcher w launchType gameOpts = (acts, Ok tt) ->
  (supervise w launchType gameOpts cave s).1 = Val tt.
Proof.
  intros Hl. unfold supervise, try_catch_finally, awaitLauncher, bind.
  simpl. rewrite Hl.
  match goal with |- context [each _ _ acts ?s0] =>
    destruct (activities_run w cave acts 0%nat s0) as (s1 & -> & _) end.
  reflexivity.
Qed.

Lemma supervise_failed w launchType gameOpts cave s acts e :
  launcher w launchType gameOpts = (acts, Err e) ->
  let startedAt := clock w (clockReads s) in
  let caughtAt := clock w (S (clockReads s + timerFirings acts)) in
  (supervise w launchType gameOpts cave s).1 =
    if isCrash e && Qgtb (secondsBetween startedAt caughtAt) (inject_Z 2)
    then Returned else Threw e.
Proof.
  intros Hl. unfold supervise, try_catch_finally, awaitLauncher, bind.
  simpl. rewrite Hl.
  match goal with |- context [each _ _ acts ?s0] =>
    destruct (activities_run w cave acts 0%nat s0) as (s1 & -> & C) end.
  simpl in C. simpl.
  destruct (isCrash e); simpl; [| reflexivity].
  rewrite C.
  replace (S (clockReads s) + timerFirings acts)%nat
    with (S (clockReads s + timerFirings acts)) by lia.
  destruct (Qgtb _ _); reflexivity.
Qed.

Lemma Qgtb_spec (a b : Q) : Qgtb a b = true <-> (b < a)%Q.
Proof.
  unfold Qgtb. rewrite negb_true_iff, <- not_true_iff_false, Qle_bool_iff.
  split; [apply Qnot_le_lt | apply Qlt_not_le].
Qed.
(** ** Running the task step by step *)

Lemma function_run body s :
  function_ body s = (settled (body s).1, (body s).2).
Proof. unfold function_. now destruct (body s) as [[[]| |e] s']. Qed.

Lemma extends_refl P s : extends P s s.
Proof. exists []. now rewrite app_nil_r. Qed.

Lemma extends_trans P s1 s2 s3 :
  extends P s1 s2 -> extends P s2 s3 -> extends P s1 s3.
Proof.
  intros (e1 & E1 & F1) (e2 & E2 & F2). exists (e1 ++ e2).
  rewrite E2, E1, app_assoc. split; [done|]. now apply Forall_app.
Qed.

Lemma extends_weaken (P Q : Event -> Prop) s s' :
  (forall e, P e -> Q e) -> extends P s s' -> extends Q s s'.
Proof.
  intros H (evs & E & F). exists evs. split; [done|].
  eapply Forall_impl; eauto.
Qed.

Lemma extends_append P s evs :
  Forall P evs -> extends P s (appendTrace evs s).
Proof. intros H. now exists evs. Qed.

Lemma extends_newEvents P s s' :
  extends P s s' -> trace s' = trace s ++ newEvents s s' /\ Forall P (newEvents s s').
Proof.
  intros (evs & E & F). unfold newEvents. rewrite E, drop_app_length. auto.
Qed.

Lemma emits_extends {A} P (m : M A) s : emits P m -> extends P s (m s).2.
Proof. intros H. apply H. Qed.

Lemma timeless_ret {A} (a : A) : timeless (ret a).
Proof. now intros s. Qed.

Lemma timeless_return {A} : timeless (@return_ A).
Proof. now intros s. Qed.

Lemma timeless_throw {A} e : timeless (@throw A e).
Proof. now intros s. Qed.

Lemma timeless_lift {A} (r : Result A) : timeless (lift r).
Proof. destruct r; [apply timeless_ret | apply timeless_throw]. Qed.

Lemma timeless_getCaves : timeless getCaves.
Proof. now intros s. Qed.

Lemma timeless_setCaves m : timeless (setCaves m).
Proof. now intros s. Qed.

Lemma timeless_emit e : timeless (emit e).
Proof. now intros s. Qed.

Lemma timeless_bind {A B} (m : M A) (k : A -> M B) :
  timeless m -> (forall a, timeless (k a)) -> timeless (bind m k).
Proof.
  intros Hm Hk s. unfold bind. specialize (Hm s).
  destruct (m s) as [[a| |e] s1]; simpl in *; auto.
  now rewrite Hk.
Qed.

Lemma timeless_try_catch_finally {A} (body : M A) handler fin :
  timeless body -> (forall e, timeless (handler e)) -> timeless fin ->
  timeless (try_catch_finally body handler fin).
Proof.
  intros Hb Hh Hf s. unfold try_catch_finally.
  specialize (Hb s). destruct (body s) as [r1 s1]; simpl in *.
  assert (forall r2 s2,
             (r2, s2) = match r1 with
                        | Threw e => handler e s1
                        | _ => (r1, s1)
                        end -> clockReads s2 = clockReads s1) as H2.
  { destruct r1 as [a| |e]; intros r2 s2.
    - now intros [= -> ->].
    - now intros [= -> ->].
    - intros Heq. specialize (Hh e s1). now rewrite <- Heq in Hh. }
  destruct (match r1 with Threw e => handler e s1 | _ => (r1, s1) end)
    as [r2 s2].
  specialize (H2 r2 s2 eq_refl). specialize (Hf s2).
  destruct (fin s2) as [[[]| |e] s3]; simpl in *; congruence.
Qed.

Lemma timeless_each {A} (f : A -> nat -> M unit) l :
  (forall x i, timeless (f x i)) -> forall i, timeless (each f i l).
Proof.
  intros Hf. induction l as [|x l IH]; intros i; simpl.
  - apply timeless_ret.
  - apply timeless_bind; auto.
Qed.

Ltac timeless_step :=
  lazymatch goal with
  | |- timeless (bind _ _) => apply timeless_bind; [| intros ?]
  | |- timeless (ret _) => apply timeless_ret
  | |- timeless return_ => apply timeless_return
  | |- timeless (throw _) => apply timeless_throw
  | |- timeless (lift _) => apply timeless_lift
  | |- timeless getCaves => apply timeless_getCaves
  | |- timeless (setCaves _) => apply timeless_setCaves
  | |- timeless (emit _) => apply timeless_emit
  | |- timeless (log _) => apply timeless_emit
  | |- timeless (call _ _) => unfold call
  | |- timeless (getEntity _) => unfold getEntity
  | |- timeless (saveEntity _ _) => unfold saveEntity
  | |- timeless (try_catch _ _) => unfold try_catch
  | |- timeless (try_catch_finally _ _ _) =>
      apply timeless_try_catch_finally; [| intros ? |]
  | |- timeless (each _ _ _) => apply timeless_each; intros ? ?
  | |- timeless (match ?x with _ => _ end) => destruct x
  end.

Ltac timeless_auto := repeat timeless_step.

Lemma launchTypeForAction_timeless w appPath actionPath :
  timeless (launchTypeForAction w appPath actionPath).
Proof. unfold launchTypeForAction. timeless_auto. Qed.

Lemma diagnose_timeless w game cave : timeless (diagnose w game cave).
Proof. unfold diagnose, awaitStartTask. timeless_auto. Qed.

Lemma pickAction_timeless w opts action game manifest :
  timeless (pickAction w opts action game manifest).
Proof.
  unfold pickAction. timeless_auto.
  intros s. now rewrite pushBigButtons_silent.
Qed.

Lemma resolveManifest_timeless w opts action game manifestPath hasManifest :
  timeless (resolveManifest w opts action game manifestPath hasManifest).
Proof. unfold resolveManifest. timeless_auto. apply pickAction_timeless. Qed.

Lemma prepare_timeless w opts game appPath launchType manifestAction :
  timeless (prepare w opts game appPath launchType manifestAction).
Proof. unfold prepare. timeless_auto. apply launchTypeForAction_timeless. Qed.

Lemma ue4Prereq_timeless w cave appPath : timeless (ue4Prereq w cave appPath).
Proof. unfold ue4Prereq, awaitSpawn. timeless_auto. Qed.

(** *** Weakest preconditions *)

Lemma wp_ret {A} (a : A) s Φ : Φ (Val a) s -> wp (ret a) s Φ.
Proof. done. Qed.

Lemma wp_return {A} s (Φ : Outcome A -> State -> Prop) :
  Φ Returned s -> wp return_ s Φ.
Proof. done. Qed.

Lemma wp_throw {A} e s (Φ : Outcome A -> State -> Prop) :
  Φ (Threw e) s -> wp (throw e) s Φ.
Proof. done. Qed.

Lemma wp_emit e s Φ : Φ (Val tt) (appendTrace [e] s) -> wp (emit e) s Φ.
Proof. done. Qed.

Lemma wp_call {A} e (r : Result A) s Φ :
  match r with
  | Ok a => Φ (Val a) (appendTrace [e] s)
  | Err er => Φ (Threw er) (appendTrace [e] s)
  end -> wp (call e r) s Φ.
Proof. now destruct r. Qed.

Lemma wp_bind {A B} (m : M A) (k : A -> M B) s Φ :
  wp m s (fun r s1 =>
            match r with
            | Val a => wp (k a) s1 Φ
            | Returned => Φ Returned s1
            | Threw e => Φ (Threw e) s1
            end) ->
  wp (bind m k) s Φ.
Proof. unfold wp, bind. now destruct (m s) as [[a| |e] s1]. Qed.

Lemma wp_function body s Φ :
  wp body s (fun r s1 => Φ (settled r) s1) -> wp (function_ body) s Φ.
Proof. unfold wp. now rewrite function_run. Qed.

Lemma wp_frame {A} P (m : M A) s Φ :
  emits P m -> timeless m ->
  (forall r s1, extends P s s1 -> clockReads s1 = clockReads s -> Φ r s1) ->
  wp m s Φ.
Proof. intros He Ht H. apply H; [apply He | apply Ht]. Qed.
Lemma extends_step P s s1 evs :
  extends P s s1 -> Forall P evs -> extends P s (appendTrace evs s1).
Proof.
  intros H F. eapply extends_trans; [exact H | now apply extends_append].
Qed.

Ltac extends_tac :=
  lazymatch goal with
  | |- extends _ ?s ?s => apply extends_refl
  | |- extends _ _ (appendTrace _ _) =>
      apply extends_step; [extends_tac | repeat constructor; simpl; exact I]
  | H : extends _ _ ?s1 |- extends _ _ ?s1 =>
      eapply extends_trans;
      [| eapply extends_weaken; [| exact H]; now intros [] ];
      extends_tac
  end.

(** ** The way to the dispatch *)

(** Either the task ends before it prepares a launch, or it comes to
    [dispatch] with the game it looked up, the cave it diagnosed and
    the manifest action it resolved; the clock has not been read. *)
Lemma doStart_reaches_dispatch w opts s :
  extends precedesDispatch s (doStart w opts s).2
  \/ exists game cave manifestAction s1,
       gameLazily w (gameId (opts_cave opts)) (cave_game (opts_cave opts))
         = Ok game
       /\ extends precedesDispatch s s1
       /\ clockReads s1 = clockReads s
       /\ doStart w opts s =
          function_
            (dispatch w opts game cave (appPath_of w cave)
               (default "native" (cave_launchType (opts_cave opts)))
               manifestAction) s1.
Proof.
  cut (wp (doStart w opts) s (fun r s' =>
    extends precedesDispatch s s'
    \/ exists game cave manifestAction s1,
         gameLazily w (gameId (opts_cave opts)) (cave_game (opts_cave opts))
           = Ok game
         /\ extends precedesDispatch s s1
         /\ clockReads s1 = clockReads s
         /\ (r, s') =
            function_
              (dispatch w opts game cave (appPath_of w cave)
                 (default "native" (cave_launchType (opts_cave opts)))
                 manifestAction) s1)).
  { unfold wp. now rewrite <- surjective_pairing. }
  unfold doStart. apply wp_function, wp_bind, wp_call.
  destruct (gameLazily w _ _) as [game | e] eqn:Hg; [| left; extends_tac].
  destruct (String.eqb _ "open").
  { unfold wp, bind, now, saveEntity, call, bind, emit, getCaves, setCaves.
    simpl. destruct (explorer_open w _); simpl; left; eexists; simpl;
      (split; [rewrite <- !app_assoc; reflexivity | repeat constructor]). }
  apply wp_bind.
  apply (wp_frame diagnoses); [apply diagnose_emits | apply diagnose_timeless |].
  intros [cave| |e] s1 H1 C1; [| left; extends_tac ..].
  apply wp_bind, wp_emit, wp_bind, wp_emit, wp_bind, wp_call.
  destruct (sf_exists w _) as [hasManifest | e]; [| left; extends_tac].
  apply wp_bind.
  apply (wp_frame resolves);
    [apply resolveManifest_emits | apply resolveManifest_timeless |].
  intros [manifestAction| |e] s2 H2 C2; [| left; extends_tac ..].
  right. exists game, cave, manifestAction, s2. split; [reflexivity |].
  split; [extends_tac|].
  split; [simpl in *; congruence|].
  now rewrite function_run.
Qed.

(** ** The outcome of a failed launcher *)

Lemma supervise_grace_window w launchType gameOpts cave s acts e :
  launcher w launchType gameOpts = (acts, Err e) ->
  let startedAt := clock w (clockReads s) in
  let caughtAt := clock w (S (clockReads s + timerFirings acts)) in
  let t := secondsBetween startedAt caughtAt in
  let outcome := (function_ (supervise w launchType gameOpts cave) s).1 in
  (isCrash e = true -> (inject_Z 2 < t)%Q -> outcome = Val tt)
  /\ (isCrash e = true -> (t <= inject_Z 2)%Q -> outcome = Threw e)
  /\ (isCrash e = false -> outcome = Threw e).
Proof.
  intros Hl. cbv zeta. rewrite function_run. simpl.
  rewrite (supervise_failed w launchType gameOpts cave s acts e Hl).
  cbv zeta. split; [| split].
  - intros -> Ht. apply Qgtb_spec in Ht. now rewrite Ht.
  - intros -> Ht. simpl.
    destruct (Qgtb _ _) eqn:E; [| reflexivity].
    apply Qgtb_spec in E. now apply Qlt_not_le in E.
  - now intros ->.
Qed.

(** ** The way to the launcher *)

Lemma try_catch_finally_emit {A} e (body : M A) handler fin s :
  try_catch_finally (run emit e; body) handler fin s =
  try_catch_finally body handler fin (appendTrace [e] s).
Proof. reflexivity. Qed.

(** The events of a supervised launch: the start timestamp is saved,
    the timer is set, the launcher is called, and nothing that follows
    is a call of a launcher. *)
Lemma supervise_trace w launchType gameOpts cave s :
  exists rest,
    trace (supervise w launchType gameOpts cave s).2 =
      trace s ++
      [ESaveEntity (cave_id cave) (touch (clock w (clockReads s)));
       ESetInterval (UPDATE_PLAYTIME_INTERVAL * 1000);
       ELauncher launchType gameOpts] ++ rest
    /\ Forall followsLauncher rest.
Proof.
  unfold supervise, awaitLauncher.
  unfold bind at 1. simpl. unfold bind at 1. simpl.
  rewrite !try_catch_finally_emit.
  match goal with |- context [try_catch_finally ?b ?h ?f ?s0] =>
    assert (emits followsLauncher (try_catch_finally b h f)) as He
  end.
  { unfold activity, updatePlaytime. emits_auto. }
  match goal with |- context [try_catch_finally ?b ?h ?f ?s0] =>
    destruct (He s0) as (rest & E & F)
  end.
  exists rest. split; [| done]. rewrite E. simpl.
  now rewrite <- !app_assoc.
Qed.

(** Either the part of the task that starts at [dispatch] ends without
    calling a launcher, or it comes to [supervise] with what [prepare]
    produced; the clock has not been read. *)
Lemma dispatch_reaches_supervise w opts game cave appPath launchType ma s :
  extends precedesLauncher s
    (dispatch w opts game cave appPath launchType ma s).2
  \/ exists launchType' gameOpts s1 s2,
       prepare w opts game appPath launchType ma s = (Val (launchType', gameOpts), s1)
       /\ extends installs s1 s2
       /\ clockReads s2 = clockReads s
       /\ dispatch w opts game cave appPath launchType ma s =
          supervise w launchType' gameOpts cave s2.
Proof.
  pose proof (prepare_emits w opts game appPath launchType ma s) as H1.
  pose proof (prepare_timeless w opts game appPath launchType ma s) as C1.
  fold (extends prepares s (prepare w opts game appPath launchType ma s).2) in H1.
  unfold dispatch, bind.
  destruct (prepare w opts game appPath launchType ma s)
    as [[[launchType' gameOpts]| |e] s1]; simpl in *;
    [| left; extends_tac ..].
  destruct (isLauncher launchType'); simpl; [| left; extends_tac].
  pose proof (ue4Prereq_emits w cave appPath s1) as H2.
  pose proof (ue4Prereq_timeless w cave appPath s1) as C2.
  fold (extends installs s1 (ue4Prereq w cave appPath s1).2) in H2.
  destruct (ue4Prereq w cave appPath s1) as [[[]| |e] s2]; simpl in *;
    [| left; extends_tac ..].
  right. exists launchType', gameOpts, s1, s2.
  split; [reflexivity|]. split; [done|]. split; [congruence|]. reflexivity.
Qed.

Lemma newEvents_app s s' evs :
  trace s' = trace s ++ evs -> newEvents s s' = evs.
Proof. intros E. unfold newEvents. now rewrite E, drop_app_length. Qed.

Lemma doStart_reaches_supervise w opts s :
  extends precedesLauncher s (doStart w opts s).2
  \/ exists game cave ma launchType gameOpts s1 s2 s3,
       extends precedesDispatch s s1
       /\ prepare w opts game (appPath_of w cave)
            (default "native" (cave_launchType (opts_cave opts))) ma s1
          = (Val (launchType, gameOpts), s2)
       /\ extends installs s2 s3
       /\ clockReads s3 = clockReads s
       /\ doStart w opts s = function_ (supervise w launchType gameOpts cave) s3.
Proof.
  destruct (doStart_reaches_dispatch w opts s)
    as [H | (game & cave & ma & s1 & _ & H1 & C1 & E)]; [left; extends_tac |].
  rewrite E, function_run. simpl.
  destruct (dispatch_reaches_supervise w opts game cave (appPath_of w cave)
              (default "native" (cave_launchType (opts_cave opts))) ma s1)
    as [H | (lt & gopts & s2 & s3 & Hp & H3 & C3 & E')].
  - left. extends_tac.
  - right. exists game, cave, ma, lt, gopts, s1, s2, s3.
    repeat (split; [first [done | congruence] |]).
    now rewrite E', function_run.
Qed.

(** A launcher that was called was called by [supervise], with the
    launch type and the options that [prepare] produced. *)
Lemma doStart_launcher_called w opts s launchType gameOpts :
  ELauncher launchType gameOpts ∈ newEvents s (doStart w opts s).2 ->
  exists game cave ma s1 s2 s3,
    extends precedesDispatch s s1
    /\ prepare w opts game (appPath_of w cave)
         (default "native" (cave_launchType (opts_cave opts))) ma s1
       = (Val (launchType, gameOpts), s2)
    /\ extends installs s2 s3
    /\ clockReads s3 = clockReads s
    /\ doStart w opts s = function_ (supervise w launchType gameOpts cave) s3.
Proof.
  intros Hin.
  destruct (doStart_reaches_supervise w opts s)
    as [H | (game & cave & ma & lt & gopts & s1 & s2 & s3 & H1 & Hp & H3 & C3 & E)].
  - apply extends_newEvents in H as [_ F].
    rewrite Forall_forall in F. now apply F in Hin.
  - assert (extends precedesLauncher s s3) as H13.
    { pose proof (prepare_emits w opts game (appPath_of w cave)
                    (default "native" (cave_launchType (opts_cave opts))) ma s1)
        as H2.
      rewrite Hp in H2. simpl in H2.
      fold (extends prepares s1 s2) in H2. extends_tac. }
    destruct H13 as (evs & E13 & F13).
    destruct (supervise_trace w lt gopts cave s3) as (rest & Et & Fr).
    rewrite E, function_run in Hin. simpl in Hin.
    rewrite (newEvents_app s _ (evs ++
               [ESaveEntity (cave_id cave) (touch (clock w (clockReads s3)));
                ESetInterval (UPDATE_PLAYTIME_INTERVAL * 1000);
                ELauncher lt gopts] ++ rest)) in Hin
      by (now rewrite Et, E13, <- !app_assoc).
    rewrite Forall_forall in F13, Fr.
    apply elem_of_app in Hin as [Hin | Hin]; [now apply F13 in Hin |].
    apply elem_of_app in Hin as [Hin | Hin]; [| now apply Fr in Hin].
    repeat (apply elem_of_cons in Hin as [Hin | Hin]; try discriminate).
    + injection Hin as -> ->.
      exists game, cave, ma, s1, s2, s3. auto.
    + inversion Hin.
Qed.

(** ** The grace window *)

(** The events of a supervised launch whose launcher fails: the error
    is logged when it is caught, a late crash is logged as ignored, and
    the timer is cleared and the time saved in every case. *)
Lemma supervise_failed_trace w launchType gameOpts cave s acts e :
  launcher w launchType gameOpts = (acts, Err e) ->
  let startedAt := clock w (clockReads s) in
  let caught := S (clockReads s + timerFirings acts) in
  let t := secondsBetween startedAt (clock w caught) in
  let late := isCrash e && Qgtb t (inject_Z 2) in
  exists during,
    Forall duringLaunch during
    /\ trace (supervise w launchType gameOpts cave s).2 =
       trace s
       ++ [ESaveEntity (cave_id cave) (touch startedAt);
           ESetInterval (UPDATE_PLAYTIME_INTERVAL * 1000);
           ELauncher launchType gameOpts]
       ++ during
       ++ [ELog (LogLaunchError (cave_id cave) e)]
       ++ (if late then [ELog (LogIgnoringCrash t e)] else [])
       ++ [EClearInterval;
           ESaveEntity (cave_id cave)
             (touch (clock w (if isCrash e then S caught else caught)))].
Proof.
  intros Hl. cbv zeta.
  unfold supervise, try_catch_finally, awaitLauncher, bind.
  simpl. rewrite Hl.
  match goal with |- context [each _ _ acts ?s0] =>
    destruct (activities_run w cave acts 0%nat s0) as (s1 & E1 & C);
    pose proof (emits_each duringLaunch
                  (fun a (_ : nat) => activity w cave a) acts
                  ltac:(intros a j; unfold activity, updatePlaytime;
                        emits_auto) 0%nat s0) as (during & Ed & Fd);
    rewrite E1 in Ed |- *
  end.
  simpl in C, Ed. exists during. split; [exact Fd |]. simpl.
  replace (S (clockReads s) + timerFirings acts)%nat
    with (S (clockReads s + timerFirings acts)) in C by lia.
  destruct (isCrash e); simpl.
  - rewrite C. destruct (Qgtb _ _); simpl; rewrite Ed, ?C; simpl;
      now rewrite <- !app_assoc.
  - rewrite Ed, C. simpl. now rewrite <- !app_assoc.
Qed.

(** C2. When the launcher that the task called fails with an instance
    of Crash, the elapsed time is taken between the start timestamp
    (the clock read and saved before the launcher is called) and the
    clock read in the handler: if it exceeds 2 seconds the error is
    logged, the crash is logged as ignored with that time, and the task
    settles normally; if it is 2 seconds or less the error is logged
    and the task throws the crash it caught; a failure that is not a
    Crash is logged and thrown again whatever the time. In the three
    cases the last things the task does are to clear the timer and to
    save [lastTouched]. *)
Theorem crash_grace_window
    (w : World) (opts : StartTaskOpts) (s : State)
    (launchType : string) (gameOpts : GameOpts)
    (acts : list Activity) (e : Error) :
  ELauncher launchType gameOpts ∈ newEvents s (doStart w opts s).2 ->
  launcher w launchType gameOpts = (acts, Err e) ->
  let startedAt := clock w (clockReads s) in
  let caughtAt := clock w (S (clockReads s + timerFirings acts)) in
  let t := secondsBetween startedAt caughtAt in
  let outcome := (doStart w opts s).1 in
  let evs := newEvents s (doStart w opts s).2 in
  let swallowed id lastTouched :=
    [ELog (LogLaunchError id e); ELog (LogIgnoringCrash t e);
     EClearInterval; ESaveEntity id (touch lastTouched)] in
  let rethrown id lastTouched :=
    [ELog (LogLaunchError id e);
     EClearInterval; ESaveEntity id (touch lastTouched)] in
  (exists id, ESaveEntity id (touch startedAt) ∈ evs)
  /\ (isCrash e = true -> (inject_Z 2 < t)%Q ->
      outcome = Val tt
      /\ exists before id lastTouched,
           evs = before ++ swallowed id lastTouched)
  /\ (isCrash e = true -> (t <= inject_Z 2)%Q ->
      outcome = Threw e
      /\ exists before id lastTouched, evs = before ++ rethrown id lastTouched)
  /\ (isCrash e = false ->
      outcome = Threw e
      /\ exists before id lastTouched, evs = before ++ rethrown id lastTouched).
Proof.
  intros Hin Hl.
  destruct (doStart_launcher_called w opts s launchType gameOpts Hin)
    as (game & cave & ma & s1 & s2 & s3 & H1 & Hp & H3 & C3 & E).
  assert (extends precedesLauncher s s3) as (evs13 & E13 & _).
  { pose proof (prepare_emits w opts game (appPath_of w cave)
                  (default "native" (cave_launchType (opts_cave opts))) ma s1)
      as H2.
    rewrite Hp in H2. simpl in H2.
    fold (extends prepares s1 s2) in H2. extends_tac. }
  destruct (supervise_failed_trace w launchType gameOpts cave s3 acts e Hl)
    as (during & _ & Et).
  cbv zeta in Et |- *. rewrite C3 in Et.
  pose proof (supervise_grace_window w launchType gameOpts cave s3 acts e Hl)
    as (Hlate & Hearly & Hother).
  cbv zeta in Hlate, Hearly, Hother.
  rewrite C3 in Hlate, Hearly. rewrite <- E in Hlate, Hearly, Hother.
  rewrite E, function_run. cbn [snd]. rewrite <- (function_run _ s3), <- E.
  assert (Hevs : newEvents s (supervise w launchType gameOpts cave s3).2
                 = (evs13
                    ++ [ESaveEntity (cave_id cave)
                          (touch (clock w (clockReads s)));
                        ESetInterval (UPDATE_PLAYTIME_INTERVAL * 1000);
                        ELauncher launchType gameOpts]
                    ++ during)
                   ++ [ELog (LogLaunchError (cave_id cave) e)]
                   ++ (if isCrash e
                          && Qgtb (secondsBetween (clock w (clockReads s))
                                     (clock w (S (clockReads s
                                                  + timerFirings acts))))
                               (inject_Z 2)
                       then [ELog (LogIgnoringCrash
                                     (secondsBetween (clock w (clockReads s))
                                        (clock w (S (clockReads s
                                                     + timerFirings acts))))
                                     e)]
                       else [])
                   ++ [EClearInterval;
                       ESaveEntity (cave_id cave)
                         (touch (clock w (if isCrash e
                                          then S (S (clockReads s
                                                     + timerFirings acts))
                                          else S (clockReads s
                                                  + timerFirings acts))))]).
  { apply newEvents_app. rewrite Et, E13, <- !app_assoc. reflexivity. }
  rewrite Hevs. clear Hevs Et.
  split; [| split; [| split]].
  - exists (cave_id cave). rewrite !elem_of_app, !elem_of_cons. tauto.
  - intros Hc Ht. split; [now apply Hlate |].
    apply Qgtb_spec in Ht. rewrite Hc, Ht. cbn [andb].
    eexists _, (cave_id cave), _. reflexivity.
  - intros Hc Ht. split; [now apply Hearly |].
    assert (Qgtb (secondsBetween (clock w (clockReads s))
                    (clock w (S (clockReads s + timerFirings acts))))
              (inject_Z 2) = false) as ->.
    { destruct (Qgtb _ _) eqn:G; [| reflexivity].
      apply Qgtb_spec in G. now apply Qlt_not_le in G. }
    rewrite Hc. cbn [andb app].
    eexists _, (cave_id cave), _. reflexivity.
  - intros Hc. split; [now apply Hother |].
    rewrite Hc. cbn [andb app].
    eexists _, (cave_id cave), _. reflexivity.
Qed.

Lemma crash_grace_window_witness :
  (doStart (runningWorld [] (Err sampleCrash) [1000; 3001; 3002])
     sampleOpts sampleState).1 = Val tt
  /\ (doStart (runningWorld [] (Err sampleCrash) [1000; 3000; 3002])
        sampleOpts sampleState).1 = Threw sampleCrash
  /\ (doStart (runningWorld [] (Err sampleFailure) [1000; 9000; 9001])
        sampleOpts sampleState).1 = Threw sampleFailure.
Proof.
  split; [| split].
  - refine (proj1 (proj1 (proj2 (crash_grace_window
              (runningWorld [] (Err sampleCrash) [1000; 3001; 3002])
              sampleOpts sampleState "native" (plainGameOpts sampleOpts)
              [] sampleCrash _ eq_refl)) eq_refl _)).
    + vm_compute. repeat constructor.
    + reflexivity.
  - refine (proj1 (proj1 (proj2 (proj2 (crash_grace_window
              (runningWorld [] (Err sampleCrash) [1000; 3000; 3002])
              sampleOpts sampleState "native" (plainGameOpts sampleOpts)
              [] sampleCrash _ eq_refl))) eq_refl _)).
    + vm_compute. repeat constructor.
    + discriminate.
  - refine (proj1 (proj2 (proj2 (proj2 (crash_grace_window
              (runningWorld [] (Err sampleFailure) [1000; 9000; 9001])
              sampleOpts sampleState "native" (plainGameOpts sampleOpts)
              [] sampleFailure _ eq_refl))) eq_refl)).
    vm_compute. repeat constructor.
Defined.

(** ** Play time during a supervised launch *)

(** What [supervise] leaves as [secondsRun] is what the activities
    during the launch left: the saves of [supervise] itself only touch
    [lastTouched]. *)
Lemma supervise_secondsRun w launchType gameOpts cave s acts r s1 :
  launcher w launchType gameOpts = (acts, r) ->
  each (fun a _ => activity w cave a) 0%nat acts
    (appendTrace [ELauncher launchType gameOpts]
       (appendTrace [ESetInterval (UPDATE_PLAYTIME_INTERVAL * 1000)]
          {| caves := market_save (cave_id cave)
                        (touch (clock w (clockReads s))) (caves s);
             trace := trace s ++
                      [ESaveEntity (cave_id cave)
                         (touch (clock w (clockReads s)))];
             clockReads := S (clockReads s) |}))
  = (Val tt, s1) ->
  caves (supervise w launchType gameOpts cave s).2 !! cave_id cave ≫= secondsRun
  = caves s1 !! cave_id cave ≫= secondsRun.
Proof.
  intros Hl He. unfold supervise, try_catch_finally, awaitLauncher, bind.
  simpl. rewrite Hl, He.
  destruct r as [[]|e]; simpl.
  - apply market_save_touch_secondsRun.
  - destruct (isCrash e); simpl; [destruct (Qgtb _ _); simpl |];
      apply market_save_touch_secondsRun.
Qed.

(** C8. The timer is set to 10 seconds (10000 ms) for the time the
    launcher runs. Each time it fires, the callback reads the
    [secondsRun] persisted for the cave (0 if there is none), adds 10
    and persists the sum together with the time of the firing as
    [lastTouched]. With no other writer, [n] firings add [10 * n]: from
    120, two firings leave 140. *)
Theorem playtime_ticks (w : World) (cave : CaveRecord)
    (launchType : string) (gameOpts : GameOpts) (s : State) :
  ESetInterval 10000 ∈ newEvents s (supervise w launchType gameOpts cave s).2
  /\ (forall stored,
        caves s !! cave_id cave = Some stored ->
        let now_ := clock w (clockReads s) in
        let s' := (updatePlaytime w cave s).2 in
        let previous := default 0 (secondsRun stored) in
        caves s' = market_save (cave_id cave)
                     (playtimePatch (10 + previous) now_) (caves s)
        /\ caves s' !! cave_id cave ≫= secondsRun = Some (10 + previous)
        /\ caves s' !! cave_id cave ≫= lastTouched = Some now_)
  /\ (forall stored n r,
        caves s !! cave_id cave = Some stored ->
        launcher w launchType gameOpts = (replicate (S n) TimerFires, r) ->
        caves (supervise w launchType gameOpts cave s).2 !! cave_id cave
          ≫= secondsRun
        = Some (default 0 (secondsRun stored) + 10 * Z.of_nat (S n)))
  /\ (forall stored r,
        caves s !! cave_id cave = Some stored ->
        secondsRun stored = Some 120 ->
        launcher w launchType gameOpts = ([TimerFires; TimerFires], r) ->
        caves (supervise w launchType gameOpts cave s).2 !! cave_id cave
          ≫= secondsRun
        = Some 140).
Proof.
  assert (forall stored n r,
        caves s !! cave_id cave = Some stored ->
        launcher w launchType gameOpts = (replicate (S n) TimerFires, r) ->
        caves (supervise w launchType gameOpts cave s).2 !! cave_id cave
          ≫= secondsRun
        = Some (default 0 (secondsRun stored) + 10 * Z.of_nat (S n))) as Hn.
  { intros stored n r Hs Hl.
    match type of (supervise_secondsRun w launchType gameOpts cave s
                     (replicate (S n) TimerFires) r) with
    | forall s1, _ -> each _ _ _ ?s0 = _ -> _ =>
        destruct (timer_fires_n w cave (S n) 0%nat s0
                    (applyPatch (touch (clock w (clockReads s))) stored))
          as (s1 & stored' & E & L & V)
    end.
    { simpl. now apply market_save_lookup. }
    rewrite (supervise_secondsRun w launchType gameOpts cave s _ r s1 Hl E).
    rewrite L. simpl. rewrite V. reflexivity. }
  split; [| split; [| split]].
  - destruct (supervise_trace w launchType gameOpts cave s) as (rest & E & _).
    erewrite newEvents_app by exact E.
    unfold UPDATE_PLAYTIME_INTERVAL. simpl. set_solver.
  - intros stored Hs. cbv zeta.
    rewrite (updatePlaytime_run w cave s stored Hs). simpl.
    split; [reflexivity|].
    rewrite (market_save_lookup _ _ _ stored Hs). simpl. auto.
  - exact Hn.
  - intros stored r Hs H120 Hl.
    rewrite (Hn stored 1%nat r Hs Hl), H120. reflexivity.
Qed.

Lemma playtime_ticks_witness :
  caves (supervise (runningWorld [TimerFires; TimerFires] (Ok tt) [0; 10000; 20000; 20500])
           "native" (plainGameOpts sampleOpts) sampleCave sampleState).2
    !! "cave-1" ≫= secondsRun = Some 140.
Proof.
  refine (proj2 (proj2 (proj2 (playtime_ticks
            (runningWorld [TimerFires; TimerFires] (Ok tt) [0; 10000; 20000; 20500])
            sampleCave "native" (plainGameOpts sampleOpts) sampleState)))
            sampleCave (Ok tt) _ eq_refl eq_refl).
  reflexivity.
Defined.

(** ** The prerequisite installer *)

Lemma appendTrace_appendTrace e1 e2 s :
  appendTrace e2 (appendTrace e1 s) = appendTrace (e1 ++ e2) s.
Proof. unfold appendTrace. simpl. now rewrite app_assoc. Qed.

Lemma appendTrace_nil s : appendTrace [] s = s.
Proof. destruct s. unfold appendTrace. simpl. now rewrite app_nil_r. Qed.

Lemma each_token_logs toks : forall i s,
  each (fun t (_ : nat) =>
          match t with
          | OutToken tok => log (LogPrereqOut tok)
          | ErrToken tok => log (LogPrereqErr tok)
          end) i toks s
  = (Val tt, appendTrace (map tokenLog toks) s).
Proof.
  induction toks as [|t toks IH]; intros i s; simpl.
  - now rewrite appendTrace_nil.
  - unfold bind.
    replace (match t with
             | OutToken tok => log (LogPrereqOut tok)
             | ErrToken tok => log (LogPrereqErr tok)
             end s) with (Val tt, appendTrace [tokenLog t] s)
      by now destruct t.
    now rewrite IH, appendTrace_appendTrace.
Qed.

Lemma awaitSpawn_run w command args s toks r :
  spawn w command args = (toks, r) ->
  awaitSpawn w command args
    (fun tok => log (LogPrereqOut tok)) (fun tok => log (LogPrereqErr tok)) s
  = (match r with Ok code => Val code | Err e => Threw e end,
     appendTrace (ESpawn command args :: map tokenLog toks) s).
Proof.
  intros Hs. unfold awaitSpawn, bind, emit. rewrite Hs.
  rewrite each_token_logs, appendTrace_appendTrace. simpl.
  now destruct r.
Qed.

Lemma find_truthy (f : string -> bool) l reqFile :
  List.find f l = Some reqFile -> f "" = false -> Js.truthy reqFile = true.
Proof.
  intros Hf He. apply find_some in Hf as [_ Hf].
  destruct reqFile; [congruence | reflexivity].
Qed.

Lemma ue4Prereq_run_installer w cave appPath s stored reqFile toks r :
  itchPlatform w = "windows" ->
  caves s !! cave_id cave = Some stored ->
  installedUE4Prereq stored <> Some true ->
  prereqInstaller stored = Some reqFile ->
  spawn w (ospath_join w appPath reqFile) ["/quiet"; "/norestart"] = (toks, r) ->
  let s1 :=
    appendTrace
      ([ELog LogLookingForPrereq; ELog (LogLaunchingInstaller reqFile);
        ESpawn (ospath_join w appPath reqFile) ["/quiet"; "/norestart"]]
       ++ map tokenLog toks) s in
  ue4Prereq w cave appPath s =
    (Val tt,
     match r with
     | Ok code =>
         if code =? 0 then
           {| caves := market_save (cave_id cave) prereqInstalled (caves s);
              trace := trace s1 ++ [ELog LogPrereqInstalled;
                                    ESaveEntity (cave_id cave) prereqInstalled];
              clockReads := clockReads s |}
         else appendTrace [ELog (LogPrereqExitCode code)] s1
     | Err e => appendTrace [ELog (LogPrereqError (cave_id cave) e)] s1
     end).
Proof.
  intros Hw Hs Hf Hi Hsp. unfold ue4Prereq. rewrite Hw. simpl.
  unfold bind at 1. unfold getEntity at 1, bind at 1, getCaves, ret. simpl.
  rewrite Hs.
  assert (negb (default false (installedUE4Prereq stored)) = true) as ->.
  { destruct (installedUE4Prereq stored) as [[]|]; simpl; congruence. }
  unfold try_catch, try_catch_finally, bind, log, emit, getEntity, getCaves, ret.
  simpl. rewrite Hs.
  unfold prereqInstaller in Hi. rewrite Hi. simpl.
  rewrite (find_truthy _ _ _ Hi eq_refl).
  rewrite (awaitSpawn_run w _ _ _ toks r Hsp).
  destruct r as [code | e]; simpl.
  - destruct (code =? 0); simpl.
    + unfold saveEntity, bind, emit, getCaves, setCaves. simpl.
      rewrite <- !app_assoc. reflexivity.
    + rewrite !appendTrace_appendTrace. reflexivity.
  - rewrite !appendTrace_appendTrace. reflexivity.
Qed.

(** C9. The prerequisite step does nothing on a platform other than
    windows, or when the stored cave already has the flag set; on
    windows with the flag unset and no installer among the stored
    executables it only logs that it looked. When an installer is
    found it is spawned with /quiet /norestart: exit code 0 persists
    the flag as true, any other exit code and a failure to spawn leave
    the store as it was and are logged. In every case the step
    completes normally, so the launch goes on. *)
Theorem ue4Prereq_best_effort
    (w : World) (cave : CaveRecord) (appPath : string) (s : State)
    (stored : CaveRecord) :
  caves s !! cave_id cave = Some stored ->
  let step := ue4Prereq w cave appPath s in
  let flagged := installedUE4Prereq stored = Some true in
  (itchPlatform w <> "windows" -> step = (Val tt, s))
  /\ (flagged -> step = (Val tt, s))
  /\ (itchPlatform w = "windows" -> ~ flagged -> prereqInstaller stored = None ->
      step = (Val tt, appendTrace [ELog LogLookingForPrereq] s))
  /\ (itchPlatform w = "windows" -> ~ flagged ->
      forall reqFile toks r,
        prereqInstaller stored = Some reqFile ->
        spawn w (ospath_join w appPath reqFile) ["/quiet"; "/norestart"]
          = (toks, r) ->
        ESpawn (ospath_join w appPath reqFile) ["/quiet"; "/norestart"]
          ∈ newEvents s step.2
        /\ match r with
           | Ok code =>
               if code =? 0 then
                 caves step.2 =
                   market_save (cave_id cave) prereqInstalled (caves s)
                 /\ caves step.2 !! cave_id cave ≫= installedUE4Prereq
                    = Some true
               else
                 caves step.2 = caves s
                 /\ ELog (LogPrereqExitCode code) ∈ newEvents s step.2
           | Err e =>
               caves step.2 = caves s
               /\ ELog (LogPrereqError (cave_id cave) e) ∈ newEvents s step.2
           end)
  /\ step.1 = Val tt.
Proof.
  intros Hs. cbv zeta.
  assert (itchPlatform w <> "windows" -> ue4Prereq w cave appPath s = (Val tt, s))
    as Hother.
  { intros Hw. unfold ue4Prereq.
    apply String.eqb_neq in Hw. now rewrite Hw. }
  assert (installedUE4Prereq stored = Some true ->
          ue4Prereq w cave appPath s = (Val tt, s)) as Hflag.
  { intros Hf. unfold ue4Prereq.
    destruct (String.eqb _ _); [| reflexivity].
    unfold bind, getEntity, bind, getCaves, ret. simpl.
    now rewrite Hs, Hf. }
  assert (itchPlatform w = "windows" ->
          installedUE4Prereq stored <> Some true ->
          prereqInstaller stored = None ->
          ue4Prereq w cave appPath s
          = (Val tt, appendTrace [ELog LogLookingForPrereq] s)) as Hnone.
  { intros Hw Hf Hi. unfold ue4Prereq. rewrite Hw. simpl.
    unfold bind at 1. unfold getEntity at 1, bind at 1, getCaves, ret. simpl.
    rewrite Hs.
    assert (negb (default false (installedUE4Prereq stored)) = true) as ->.
    { destruct (installedUE4Prereq stored) as [[]|]; simpl; congruence. }
    unfold try_catch, try_catch_finally, bind, log, emit, getEntity, getCaves, ret.
    simpl. rewrite Hs. unfold prereqInstaller in Hi. now rewrite Hi. }
  split; [exact Hother |]. split; [exact Hflag |]. split; [exact Hnone |].
  split.
  - intros Hw Hf reqFile toks r Hi Hsp.
    rewrite (ue4Prereq_run_installer w cave appPath s stored reqFile toks r
               Hw Hs Hf Hi Hsp). simpl.
    split.
    + destruct r as [code | e]; [destruct (code =? 0) |];
        (erewrite newEvents_app;
         [| simpl; rewrite <- ?app_assoc; reflexivity]); set_solver.
    + destruct r as [code | e]; [destruct (code =? 0) |]; simpl.
      * split; [reflexivity |].
        unfold market_save. rewrite lookup_insert_eq, Hs. reflexivity.
      * split; [reflexivity |].
        erewrite newEvents_app; [| simpl; rewrite <- ?app_assoc; reflexivity].
        set_solver.
      * split; [reflexivity |].
        erewrite newEvents_app; [| simpl; rewrite <- ?app_assoc; reflexivity].
        set_solver.
  - destruct (decide (itchPlatform w = "windows")) as [Hw | Hw];
      [| now rewrite Hother].
    destruct (decide (installedUE4Prereq stored = Some true)) as [Hf | Hf];
      [now rewrite Hflag |].
    destruct (prereqInstaller stored) as [reqFile |] eqn:Hi;
      [| now rewrite Hnone].
    destruct (spawn w (ospath_join w appPath reqFile) ["/quiet"; "/norestart"])
      as [toks r] eqn:Hsp.
    now rewrite (ue4Prereq_run_installer w cave appPath s stored reqFile toks r
                   Hw Hs Hf Hi Hsp).
Qed.

Lemma ue4Prereq_best_effort_witness :
  caves (ue4Prereq (windowsWorld (Ok 0)) ue4Cave "/apps/cave-1" ue4State).2
    !! "cave-1" ≫= installedUE4Prereq = Some true
  /\ caves (ue4Prereq (windowsWorld (Ok 3010)) ue4Cave "/apps/cave-1" ue4State).2
     = caves ue4State
  /\ (ue4Prereq (windowsWorld (Err sampleFailure)) ue4Cave "/apps/cave-1"
        ue4State).1 = Val tt.
Proof.
  split; [| split].
  - pose proof (proj1 (proj2 (proj2 (proj2 (ue4Prereq_best_effort
        (windowsWorld (Ok 0)) ue4Cave "/apps/cave-1" ue4State ue4Cave eq_refl))))
        eq_refl) as H.
    specialize (H ltac:(discriminate)
                  "Engine/Extras/Redist/en-us/UE4PrereqSetup_x64.exe"
                  [OutToken "installing"] (Ok 0) eq_refl eq_refl).
    exact (proj2 (proj2 H)).
  - pose proof (proj1 (proj2 (proj2 (proj2 (ue4Prereq_best_effort
        (windowsWorld (Ok 3010)) ue4Cave "/apps/cave-1" ue4State ue4Cave eq_refl))))
        eq_refl) as H.
    specialize (H ltac:(discriminate)
                  "Engine/Extras/Redist/en-us/UE4PrereqSetup_x64.exe"
                  [OutToken "installing"] (Ok 3010) eq_refl eq_refl).
    exact (proj1 (proj2 H)).
  - exact (proj2 (proj2 (proj2 (proj2 (ue4Prereq_best_effort
        (windowsWorld (Err sampleFailure)) ue4Cave "/apps/cave-1" ue4State
        ue4Cave eq_refl))))).
Defined.

(** ** Diagnostic and repair *)

Lemma diagnose_run w game cave s :
  diagnose w game cave s =
    match caveProblem cave with
    | None => (Val cave, s)
    | Some problem =>
        let upload := uploads cave !! uploadId cave in
        let '(r, caves') :=
          startTask w "configure" game cave upload (caves s) in
        let s' :=
          {| caves := caves';
             trace := (trace s ++ [ELog (LogReconfiguring problem)])
                      ++ [EStartTask "configure" game cave upload];
             clockReads := clockReads s |} in
        match r with
        | Err e => (Threw e, s')
        | Ok _ =>
            match caves' !! cave_id cave with
            | None => (Threw (TypeError
                         "Cannot read property 'launchType' of undefined"), s')
            | Some refetched =>
                match caveProblem refetched with
                | Some problem' => (Threw (UnlaunchableInstall problem'), s')
                | None => (Val refetched, s')
                end
            end
        end
    end.
Proof.
  unfold diagnose. destruct (caveProblem cave) as [problem |] eqn:Hp.
  - unfold awaitStartTask, bind, log, emit, getCaves, setCaves, ret. simpl.
    destruct (startTask w "configure" game cave _ (caves s)) as [[[]|e] caves'];
      simpl; [| reflexivity].
    destruct (caves' !! cave_id cave) as [refetched |]; [| reflexivity].
    now destruct (caveProblem refetched).
  - unfold bind, ret. now rewrite Hp.
Qed.

Lemma filter_never p evs : Forall (never p) evs -> List.filter p evs = [].
Proof.
  induction 1 as [| e evs He _ IH]; simpl; [done |]. now rewrite He.
Qed.

Lemma newEvents_appendTrace s evs : newEvents s (appendTrace evs s) = evs.
Proof. now apply newEvents_app. Qed.

Lemma wp_emits {A} P (m : M A) s Φ :
  emits P m -> (forall r s1, extends P s s1 -> Φ r s1) -> wp m s Φ.
Proof. intros He H. apply H, He. Qed.

Ltac emits_phase :=
  eapply emits_weaken;
  [| first [ apply resolveManifest_emits | apply prepare_emits
           | apply ue4Prereq_emits | apply supervise_emits
           | apply diagnose_emits | apply pickAction_emits
           | apply launchTypeForAction_emits ] ];
  now intros [].

Lemma dispatch_emits P w opts game cave appPath launchType ma :
  (forall e, prepares e \/ installs e \/ supervises e -> P e) ->
  emits P (dispatch w opts game cave appPath launchType ma).
Proof.
  intros HP. unfold dispatch.
  apply emits_bind.
  { eapply emits_weaken; [| apply prepare_emits]. auto. }
  intros [launchType' gameOpts].
  destruct (negb _); [apply emits_throw |].
  apply emits_bind.
  { eapply emits_weaken; [| apply ue4Prereq_emits]. auto. }
  intros _. eapply emits_weaken; [| apply supervise_emits]. auto.
Qed.

(** C3. In a run of the task the configure task is started at most
    once. When the game is looked up and the action is not "open": if
    the first diagnostic finds no problem, it is never started; if it
    finds one, it is started exactly once, on the cave of the options,
    after which the cave is read again from the store and diagnosed
    again, and a problem found then makes the task throw the error
    that carries the problem, with no second repair. *)
Theorem repair_at_most_once (w : World) (opts : StartTaskOpts) (s : State) :
  let cave := opts_cave opts in
  let upload := uploads cave !! uploadId cave in
  let final := doStart w opts s in
  let repairs := List.filter isRepair (newEvents s final.2) in
  (length repairs <= 1)%nat
  /\ forall game,
       gameLazily w (gameId cave) (cave_game cave) = Ok game ->
       actionForGame w (cave_game cave) cave <> "open" ->
       (caveProblem cave = None -> repairs = [])
       /\ (forall problem,
             caveProblem cave = Some problem ->
             repairs = [EStartTask "configure" game cave upload]
             /\ forall caves' refetched problem',
                  startTask w "configure" game cave upload (caves s)
                    = (Ok tt, caves') ->
                  caves' !! cave_id cave = Some refetched ->
                  caveProblem refetched = Some problem' ->
                  final.1 = Threw (UnlaunchableInstall problem')
                  /\ reason (UnlaunchableInstall problem') = Some problem').
Proof.
  cbv zeta.
  set (cave := opts_cave opts).
  set (Φ := fun (r : Outcome unit) (s' : State) =>
    let repairs := List.filter isRepair (newEvents s s') in
    (length repairs <= 1)%nat
    /\ forall game,
         gameLazily w (gameId cave) (cave_game cave) = Ok game ->
         actionForGame w (cave_game cave) cave <> "open" ->
         (caveProblem cave = None -> repairs = [])
         /\ (forall problem,
               caveProblem cave = Some problem ->
               repairs = [EStartTask "configure" game cave (uploads cave !! uploadId cave)]
               /\ forall caves' refetched problem',
                    startTask w "configure" game cave (uploads cave !! uploadId cave) (caves s)
                      = (Ok tt, caves') ->
                    caves' !! cave_id cave = Some refetched ->
                    caveProblem refetched = Some problem' ->
                    r = Threw (UnlaunchableInstall problem')
                    /\ reason (UnlaunchableInstall problem') = Some problem')).
  change (wp (doStart w opts) s Φ).
  unfold doStart. fold cave. apply wp_function, wp_bind, wp_call.
  destruct (gameLazily w (gameId cave) (cave_game cave)) as [game | e] eqn:Hg.
  2:{ subst Φ. cbv beta zeta. rewrite newEvents_appendTrace. simpl.
      split; [lia | intros ? [=]]. }
  destruct (String.eqb _ "open") eqn:Ho.
  { apply String.eqb_eq in Ho.
    unfold wp, bind, now, saveEntity, call, bind, emit, getCaves, setCaves.
    simpl. subst Φ. cbv beta zeta.
    destruct (explorer_open w _); simpl;
      (erewrite newEvents_app;
       [| simpl; rewrite <- ?app_assoc; reflexivity]); simpl;
      (split; [lia | intros ? _ Hno; contradiction]). }
  apply wp_bind. unfold wp at 1. rewrite diagnose_run.
  (* what follows the diagnostic starts no task *)
  assert (forall cave' launchType s1 Ψ,
    (forall r s2, extends (never isRepair) s1 s2 -> Ψ r s2) ->
    wp (run log (LogLaunching (app_getVersion w) (game_id game) (title game));
        let appPath := appPath_of w cave' in
        let manifestPath := ospath_join w appPath ".itch.toml" in
        run log (LogLookingForManifest manifestPath);
        do hasManifest <- call (ESfExists manifestPath)
                               (sf_exists w manifestPath);
        do manifestAction <-
          resolveManifest w opts (actionForGame w (cave_game cave) cave) game
            manifestPath hasManifest;
        dispatch w opts game cave' appPath launchType manifestAction) s1 Ψ)
    as Hrest.
  { intros cave' launchType s1 Ψ HΨ. apply (wp_emits (never isRepair)); [| exact HΨ].
    cbv zeta. emits_auto; try reflexivity; try emits_phase.
    apply dispatch_emits. intros [] [H | [H | H]]; done. }
  destruct (caveProblem cave) as [problem |] eqn:Hp.
  - cbn [caves appendTrace trace clockReads]. cbv zeta.
    destruct (startTask w "configure" game cave _ (caves s))
      as [[[] | e] caves'] eqn:Hst; simpl.
    + destruct (caves' !! cave_id cave) as [refetched |] eqn:Hr; simpl.
      * destruct (caveProblem refetched) as [problem' |] eqn:Hp'; simpl.
        -- subst Φ. cbv beta zeta.
           erewrite newEvents_app; [| simpl; rewrite <- ?app_assoc; reflexivity].
           simpl. split; [lia |].
           intros game' [= <-] _. split; [discriminate |].
           intros ? _. split; [reflexivity |].
           intros ? ? ? H1 H2 H3. rewrite Hst in H1. injection H1 as <-.
           rewrite Hr in H2. injection H2 as <-.
           rewrite Hp' in H3. now injection H3 as <-.
        -- apply Hrest. intros r s2 (evs & E & F). subst Φ. cbv beta zeta.
           erewrite newEvents_app;
             [| rewrite E; simpl; rewrite <- ?app_assoc; reflexivity].
           simpl. rewrite (filter_never _ _ F). simpl. split; [lia |].
           intros game' [= <-] _. split; [discriminate |].
           intros ? _. split; [reflexivity |].
           intros ? ? ? H1 H2 H3. rewrite Hst in H1. injection H1 as <-.
           rewrite Hr in H2. injection H2 as <-. congruence.
      * subst Φ. cbv beta zeta.
        erewrite newEvents_app; [| simpl; rewrite <- ?app_assoc; reflexivity].
        simpl. split; [lia |].
        intros game' [= <-] _. split; [discriminate |].
        intros ? _. split; [reflexivity |].
        intros ? ? ? H1 H2 H3. rewrite Hst in H1. injection H1 as <-.
        congruence.
    + subst Φ. cbv beta zeta.
      erewrite newEvents_app; [| simpl; rewrite <- ?app_assoc; reflexivity].
      simpl. split; [lia |].
      intros game' [= <-] _. split; [discriminate |].
      intros ? _. split; [reflexivity |].
      intros ? ? ? H1. rewrite Hst in H1. discriminate.
  - apply Hrest. intros r s2 (evs & E & F). subst Φ. cbv beta zeta.
    erewrite newEvents_app;
      [| rewrite E; simpl; rewrite <- ?app_assoc; reflexivity].
    simpl. rewrite (filter_never _ _ F). simpl. split; [lia |].
    intros game' [= <-] _. split; [reflexivity |]. intros ? [=].
Qed.

Lemma repair_at_most_once_witness :
  List.filter isRepair
    (newEvents brokenState (doStart (repairingWorld id) brokenOpts brokenState).2)
  = [EStartTask "configure" sampleGame brokenCave
       (uploads brokenCave !! uploadId brokenCave)]
  /\ (doStart (repairingWorld id) brokenOpts brokenState).1
     = Threw (UnlaunchableInstall ["game.install.no_executables_found"]).
Proof.
  pose proof (proj2 (repair_at_most_once (repairingWorld id) brokenOpts
                       brokenState) sampleGame eq_refl ltac:(discriminate))
    as [_ H].
  destruct (H ["game.install.no_executables_found"] eq_refl) as [H1 H2].
  split; [exact H1 |].
  exact (proj1 (H2 (caves brokenState) brokenCave
                  ["game.install.no_executables_found"] eq_refl eq_refl eq_refl)).
Defined.

(** ** Sub-key authorization *)

Lemma subkeyEnv_carries subkey : carriesSubkey (subkeyEnv subkey) subkey.
Proof.
  unfold carriesSubkey, subkeyEnv. split.
  - rewrite lookup_insert_ne by done. apply lookup_insert_eq.
  - apply lookup_insert_eq.
Qed.

(** What [prepare] does, by cases: the events of the classification
    come first; a request for a sub-key follows exactly when the
    classification returned and the action has a truthy scope. *)
Lemma prepare_spec w opts game appPath launchType ma s :
  let scope := ma ≫= action_scope in
  let sc := default "" scope in
  let request := ESubkey (credentials_key opts) (game_id game) sc in
  let answer := client_subkey w (credentials_key opts) (game_id game) sc in
  let classified :=
    match ma with
    | Some a => (launchTypeForAction w appPath (action_path (withExt w a)) s).1
    | None => Val launchType
    end in
  let r := (prepare w opts game appPath launchType ma s).1 in
  let s1 := (prepare w opts game appPath launchType ma s).2 in
  exists evs0 evs1,
    trace s1 = trace s ++ evs0 ++ evs1
    /\ Forall sniffs evs0
    /\ if Js.truthy_opt scope then
         match classified with
         | Val launchType' =>
             match answer with
             | Ok subkey =>
                 evs1 = [ELog (LogRequestingSubkey sc); request;
                         ELog (LogGotSubkey (String.length (subkey_key subkey))
                                 (expires_at subkey))]
                 /\ exists gameOpts,
                      r = Val (launchType', gameOpts)
                      /\ manifestAction gameOpts = withExt w <$> ma
                      /\ env gameOpts = subkeyEnv subkey
             | Err e =>
                 evs1 = [ELog (LogRequestingSubkey sc); request]
                 /\ r = Threw e
             end
         | _ => evs1 = [] /\ ~ isVal r
         end
       else
         evs1 = []
         /\ forall launchType' gameOpts,
              r = Val (launchType', gameOpts) ->
              manifestAction gameOpts = withExt w <$> ma
              /\ env gameOpts = ∅.
Proof.
  cbv zeta. destruct ma as [a |]; simpl.
  2:{ exists [], []. simpl. rewrite app_nil_r.
      split; [done |]. split; [done |]. split; [done |].
      now intros ? ? [= <- <-]. }
  unfold prepare. fold (withExt w a).
  set (path := action_path (withExt w a)).
  change (RegExp.replace false Pattern.extPlaceholder (appExt w) (action_path a))
    with path.
  unfold bind, log, call, bind, emit, lift.
  destruct (launchTypeForAction_emits w appPath path s) as (evs0 & E0 & F0).
  destruct (launchTypeForAction w appPath path s)
    as [[lt | | e] s0]; simpl in E0 |- *.
  - destruct (Js.truthy_opt (action_scope a)) eqn:Hsc; simpl.
    + destruct (client_subkey w _ _ _) as [subkey | e]; simpl.
      * eexists evs0, _. rewrite E0, <- !app_assoc. simpl.
        split; [reflexivity |]. split; [done |]. split; [reflexivity |].
        eexists. split; [reflexivity |]. split; reflexivity.
      * eexists evs0, _. rewrite E0, <- !app_assoc. simpl.
        split; [reflexivity |]. split; [done |]. split; reflexivity.
    + exists evs0, []. rewrite app_nil_r. unfold bind, ret. simpl.
      split; [done |]. split; [done |]. split; [done |].
      now intros ? ? [= <- <-].
  - exists evs0, []. rewrite app_nil_r.
    split; [done |]. split; [done |].
    destruct (Js.truthy_opt (action_scope a)); (split; [done |]); [tauto |].
    intros ? ? [=].
  - exists evs0, []. rewrite app_nil_r.
    split; [done |]. split; [done |].
    destruct (Js.truthy_opt (action_scope a)); (split; [done |]); [tauto |].
    intros ? ? [=].
Qed.

(** After [prepare], the rest of [dispatch] requests no sub-key, and
    the only launcher it calls is called on what [prepare] returned. *)
Lemma dispatch_after_prepare w opts game cave appPath launchType ma s :
  let p := prepare w opts game appPath launchType ma s in
  let final := dispatch w opts game cave appPath launchType ma s in
  exists rest,
    trace final.2 = trace p.2 ++ rest
    /\ Forall (never isSubkeyRequest) rest
    /\ forall launchType' gameOpts,
         ELauncher launchType' gameOpts ∈ rest ->
         p.1 = Val (launchType', gameOpts).
Proof.
  cbv zeta. unfold dispatch, bind.
  destruct (prepare w opts game appPath launchType ma s)
    as [[[lt gopts] | | e] s1]; simpl.
  2,3: exists []; rewrite app_nil_r; repeat split; auto; intros ? ? H; inversion H.
  destruct (isLauncher lt); simpl.
  2:{ exists []. rewrite app_nil_r. repeat split; auto. intros ? ? H. inversion H. }
  destruct (ue4Prereq_emits w cave appPath s1) as (evs2 & E2 & F2).
  destruct (ue4Prereq w cave appPath s1) as [[[] | | e] s2]; simpl in *.
  2,3: exists evs2; split; [done |]; split;
    [ eapply Forall_impl; [exact F2 | now intros []]
    | intros ? ? H; rewrite Forall_forall in F2; now apply F2 in H ].
  destruct (supervise_trace w lt gopts cave s2) as (rest & E3 & F3).
  eexists. rewrite E3, E2, <- !app_assoc. split; [reflexivity |].
  rewrite Forall_forall in F2, F3. split.
  - apply Forall_forall. intros e He.
    apply elem_of_app in He as [He | He]; [apply F2 in He; now destruct e |].
    apply elem_of_app in He as [He | He]; [| apply F3 in He; now destruct e].
    repeat (apply elem_of_cons in He as [-> | He]; [reflexivity |]).
    inversion He.
  - intros lt' gopts' He.
    apply elem_of_app in He as [He | He]; [now apply F2 in He |].
    apply elem_of_app in He as [He | He]; [| now apply F3 in He].
    repeat (apply elem_of_cons in He as [He | He]; try discriminate).
    + now injection He as -> ->.
    + inversion He.
Qed.

Lemma filter_sniffs evs : Forall sniffs evs -> List.filter isSubkeyRequest evs = [].
Proof.
  intros F. apply filter_never. eapply Forall_impl; [exact F | now intros []].
Qed.

Arguments prepare : simpl never.
Arguments dispatch : simpl never.
Arguments launchTypeForAction : simpl never.

(** C5. Take the part of the task that starts once the manifest action
    is resolved. If the action is absent or its scope is absent or
    empty, no sub-key is requested and the environment given to a
    launcher has neither variable. If the action has a non-empty scope,
    the sub-key is requested once the launch type is known (once, for
    the game and that scope, with the key of the credentials), and a
    launcher is only called after that request, with an environment
    that holds the issued key as ITCHIO_API_KEY and its expiry as
    ITCHIO_API_KEY_EXPIRES_AT. Nothing before that part of the task
    requests a sub-key or calls a launcher. *)
Theorem subkey_iff_scope (w : World) (opts : StartTaskOpts) :
  (forall game cave appPath launchType ma s,
     let scope := ma ≫= action_scope in
     let sc := default "" scope in
     let request := ESubkey (credentials_key opts) (game_id game) sc in
     let final := dispatch w opts game cave appPath launchType ma s in
     let evs := newEvents s final.2 in
     (Js.truthy_opt scope = false ->
      List.filter isSubkeyRequest evs = []
      /\ forall launchType' gameOpts,
           ELauncher launchType' gameOpts ∈ evs ->
           carriesNoSubkey (env gameOpts))
     /\ (Js.truthy_opt scope = true ->
         (forall a, ma = Some a ->
            List.filter isSubkeyRequest evs =
              match (launchTypeForAction w appPath
                       (action_path (withExt w a)) s).1 with
              | Val _ => [request]
              | _ => []
              end)
         /\ forall launchType' gameOpts,
              ELauncher launchType' gameOpts ∈ evs ->
              exists subkey before after,
                client_subkey w (credentials_key opts) (game_id game) sc
                  = Ok subkey
                /\ evs = before ++ ELauncher launchType' gameOpts :: after
                /\ request ∈ before
                /\ carriesSubkey (env gameOpts) subkey))
  /\ (forall s,
        let evs := newEvents s (doStart w opts s).2 in
        (List.filter isSubkeyRequest evs = [] /\ List.filter isLaunch evs = [])
        \/ exists game cave ma s1,
             gameLazily w (gameId (opts_cave opts)) (cave_game (opts_cave opts))
               = Ok game
             /\ Forall precedesDispatch (newEvents s s1)
             /\ newEvents s (doStart w opts s).2 =
                newEvents s s1 ++
                newEvents s1
                  (dispatch w opts game cave (appPath_of w cave)
                     (default "native" (cave_launchType (opts_cave opts)))
                     ma s1).2).
Proof.
  split.
  - intros game cave appPath launchType ma s. cbv zeta.
    destruct (prepare_spec w opts game appPath launchType ma s)
      as (evs0 & evs1 & E1 & F0 & Hcase).
    destruct (dispatch_after_prepare w opts game cave appPath launchType ma s)
      as (rest & E2 & F2 & Hl).
    cbv zeta in *.
    rewrite (newEvents_app s _ (evs0 ++ evs1 ++ rest))
      by (now rewrite E2, E1, <- !app_assoc).
    rewrite !List.filter_app, (filter_sniffs _ F0), (filter_never _ _ F2).
    rewrite app_nil_r. simpl.
    assert (forall lt gopts, ELauncher lt gopts ∈ evs0 -> False) as Hno0.
    { intros ? ? H. rewrite Forall_forall in F0. now apply F0 in H. }
    split.
    + intros Hsc. rewrite Hsc in Hcase. destruct Hcase as [-> Henv].
      split; [reflexivity |]. intros lt gopts Hin.
      apply elem_of_app in Hin as [Hin | Hin]; [now apply Hno0 in Hin |].
      simpl in Hin. apply Hl, Henv in Hin as [_ ->].
      split; apply lookup_empty.
    + intros Hsc. rewrite Hsc in Hcase. split.
      * intros a ->. simpl in Hcase.
        destruct (launchTypeForAction w appPath _ s).1 as [lt | | e];
          [| now destruct Hcase as [-> _] ..].
        destruct (client_subkey w _ _ _) as [subkey | e];
          now destruct Hcase as [-> _].
      * intros lt gopts Hin.
        apply elem_of_app in Hin as [Hin | Hin]; [now apply Hno0 in Hin |].
        destruct ma as [a |]; [| discriminate]. simpl in Hcase.
        destruct (launchTypeForAction w appPath _ s).1 as [lt0 | | e].
        -- destruct (client_subkey w _ _ _) as [subkey | e].
           ++ destruct Hcase as (Hev & gopts0 & Hr & _ & Henv).
              apply elem_of_app in Hin as [Hin | Hin].
              { rewrite Hev in Hin.
                repeat (apply elem_of_cons in Hin as [Hin | Hin];
                        try discriminate). inversion Hin. }
              pose proof (Hl _ _ Hin) as Hp. rewrite Hr in Hp.
              injection Hp as <- <-.
              apply list_elem_of_split in Hin as (b & a' & ->).
              exists subkey, (evs0 ++ evs1 ++ b), a'.
              split; [reflexivity |].
              split; [now rewrite <- !app_assoc |].
              split; [rewrite Hev; set_solver |].
              rewrite Henv. apply subkeyEnv_carries.
           ++ destruct Hcase as (Hev & Hr).
              apply elem_of_app in Hin as [Hin | Hin].
              { rewrite Hev in Hin.
                repeat (apply elem_of_cons in Hin as [Hin | Hin];
                        try discriminate). inversion Hin. }
              apply Hl in Hin. congruence.
        -- destruct Hcase as (-> & Hr). simpl in Hin.
           apply Hl in Hin. rewrite Hin in Hr. now destruct Hr.
        -- destruct Hcase as (-> & Hr). simpl in Hin.
           apply Hl in Hin. rewrite Hin in Hr. now destruct Hr.
  - intros s. cbv zeta.
    destruct (doStart_reaches_dispatch w opts s)
      as [H | (game & cave & ma & s1 & Hg & H1 & _ & E)].
    + left. apply extends_newEvents in H as [_ F].
      split; apply filter_never;
        (eapply Forall_impl; [exact F | now intros []]).
    + right. exists game, cave, ma, s1.
      apply extends_newEvents in H1 as [E1 F1].
      split; [exact Hg |]. split; [exact F1 |].
      rewrite E, function_run. simpl.
      destruct (dispatch_emits (fun _ => True) w opts game cave
                  (appPath_of w cave)
                  (default "native" (cave_launchType (opts_cave opts))) ma
                  (fun _ _ => I) s1) as (evs & E2 & _).
      rewrite (newEvents_app s1 _ evs E2).
      apply newEvents_app. now rewrite E2, E1, <- app_assoc.
Qed.

Lemma subkey_iff_scope_witness :
  let scoped :=
    dispatch (manifestWorld {| actions := [playAction] |} ModalClosed)
      sampleOpts sampleGame sampleCave "/apps/cave-1" "native"
      (Some playAction) sampleState in
  let unscoped :=
    dispatch (manifestWorld {| actions := [editorAction] |} ModalClosed)
      sampleOpts sampleGame sampleCave "/apps/cave-1" "native"
      (Some editorAction) sampleState in
  List.filter isSubkeyRequest (newEvents sampleState scoped.2)
  = [ESubkey "api-key" 42 "wallet"]
  /\ (exists subkey before after,
        Ok sampleSubkey = Ok subkey
        /\ newEvents sampleState scoped.2
           = before ++ ELauncher "native" playGameOpts :: after
        /\ ESubkey "api-key" 42 "wallet" ∈ before
        /\ carriesSubkey (env playGameOpts) subkey)
  /\ List.filter isSubkeyRequest (newEvents sampleState unscoped.2) = [].
Proof.
  cbv zeta. split; [| split].
  - exact (proj1 (proj2 (proj1 (subkey_iff_scope
             (manifestWorld {| actions := [playAction] |} ModalClosed)
             sampleOpts)
             sampleGame sampleCave "/apps/cave-1" "native" (Some playAction)
             sampleState) eq_refl) playAction eq_refl).
  - refine (proj2 (proj2 (proj1 (subkey_iff_scope
              (manifestWorld {| actions := [playAction] |} ModalClosed)
              sampleOpts)
              sampleGame sampleCave "/apps/cave-1" "native" (Some playAction)
              sampleState) eq_refl) "native" playGameOpts _).
    vm_compute. repeat constructor.
  - exact (proj1 (proj1 (proj1 (subkey_iff_scope
             (manifestWorld {| actions := [editorAction] |} ModalClosed)
             sampleOpts)
             sampleGame sampleCave "/apps/cave-1" "native" (Some editorAction)
             sampleState) eq_refl)).
Defined.

(** ** The way to the choice of the action *)

Arguments pickAction : simpl never.

Lemma wp_assoc {A B C} (m : M A) (k1 : A -> M B) (k2 : B -> M C) s Φ :
  wp (bind m (fun a => bind (k1 a) k2)) s Φ -> wp (bind (bind m k1) k2) s Φ.
Proof. unfold wp, bind. now destruct (m s) as [[a| |e] s1]. Qed.

(** The task ends before it validates a manifest; or it has no
    manifest and goes on to [dispatch] without an action; or the
    validation of the manifest it parsed fails, and the task with it;
    or the manifest is validated and the task goes on to [pickAction]. *)
Lemma doStart_reaches_choice w opts s :
  let launchType := default "native" (cave_launchType (opts_cave opts)) in
  let action := actionForGame w (cave_game (opts_cave opts)) (opts_cave opts) in
  extends precedesValidation s (doStart w opts s).2
  \/ (exists game cave s1,
        extends precedesValidation s s1
        /\ doStart w opts s =
           function_
             (dispatch w opts game cave (appPath_of w cave) launchType None) s1)
  \/ (exists m e s1,
        extends precedesValidation s s1
        /\ validateManifest w m = Err e
        /\ doStart w opts s = (Threw e, appendTrace [EValidateManifest m] s1))
  \/ (exists game cave m s1,
        gameLazily w (gameId (opts_cave opts)) (cave_game (opts_cave opts))
          = Ok game
        /\ extends precedesValidation s s1
        /\ validateManifest w m = Ok tt
        /\ doStart w opts s =
           function_
             (do manifestAction <- pickAction w opts action game m;
              dispatch w opts game cave (appPath_of w cave) launchType
                manifestAction)
             (appendTrace [EValidateManifest m] s1)).
Proof.
  cbv zeta.
  cut (wp (doStart w opts) s (fun r s' =>
    extends precedesValidation s s'
    \/ (exists game cave s1,
          extends precedesValidation s s1
          /\ (r, s') =
             function_
               (dispatch w opts game cave (appPath_of w cave)
                  (default "native" (cave_launchType (opts_cave opts))) None) s1)
    \/ (exists m e s1,
          extends precedesValidation s s1
          /\ validateManifest w m = Err e
          /\ (r, s') = (Threw e, appendTrace [EValidateManifest m] s1))
    \/ (exists game cave m s1,
          gameLazily w (gameId (opts_cave opts)) (cave_game (opts_cave opts))
            = Ok game
          /\ extends precedesValidation s s1
          /\ validateManifest w m = Ok tt
          /\ (r, s') =
             function_
               (do manifestAction <-
                  pickAction w opts
                    (actionForGame w (cave_game (opts_cave opts)) (opts_cave opts))
                    game m;
                dispatch w opts game cave (appPath_of w cave)
                  (default "native" (cave_launchType (opts_cave opts)))
                  manifestAction)
               (appendTrace [EValidateManifest m] s1)))).
  { unfold wp. now rewrite <- surjective_pairing. }
  unfold doStart. apply wp_function, wp_bind, wp_call.
  destruct (gameLazily w _ _) as [game | e] eqn:Hg; [| left; extends_tac].
  destruct (String.eqb _ "open").
  { unfold wp, bind, now, saveEntity, call, bind, emit, getCaves, setCaves.
    simpl. destruct (explorer_open w _); simpl; left; eexists; simpl;
      (split; [rewrite <- !app_assoc; reflexivity | repeat constructor]). }
  apply wp_bind.
  apply (wp_frame diagnoses); [apply diagnose_emits | apply diagnose_timeless |].
  intros [cave| |e] s1 H1 C1; [| left; extends_tac ..].
  apply wp_bind, wp_emit, wp_bind, wp_emit, wp_bind, wp_call.
  destruct (sf_exists w _) as [hasManifest | e]; [| left; extends_tac].
  unfold resolveManifest. destruct hasManifest.
  - apply wp_assoc, wp_bind, wp_emit, wp_assoc, wp_bind.
    apply (wp_frame precedesValidation).
    { emits_auto. }
    { timeless_auto. }
    intros [m | | e] s2 H2 C2; [| left; extends_tac ..].
    apply wp_assoc, wp_bind, wp_emit, wp_assoc, wp_bind, wp_call.
    destruct (validateManifest w m) as [[] | e] eqn:Hv.
    + right. right. right. exists game, cave, m.
      eexists. split; [reflexivity |].
      split; [| split; [exact Hv | now rewrite function_run]].
      extends_tac.
    + right. right. left. exists m, e.
      eexists. split; [| split; [exact Hv | reflexivity]].
      extends_tac.
  - apply wp_assoc, wp_bind, wp_emit.
    right. left. exists game, cave. eexists.
    split; [| now rewrite function_run].
    extends_tac.
Qed.

(** ** The choice of the action *)

Lemma pushBigButtons_named w l :
  Forall (fun a => Js.truthy (action_name a) = true) l ->
  forall i acc s,
    pushBigButtons w i l acc s = (Val (acc ++ map (bigButton w) l), s).
Proof.
  induction 1 as [| a l Ha _ IH]; intros i acc s; simpl.
  - now rewrite app_nil_r.
  - rewrite Ha. simpl. now rewrite IH, <- app_assoc.
Qed.

Lemma pickAction_single w opts action game m a s :
  actions m = [a] -> pickAction w opts action game m s = (Val (Some a), s).
Proof. intros H. unfold pickAction. now rewrite H. Qed.

Lemma pickAction_explicit w opts action game m name s :
  (1 < length (actions m))%nat ->
  manifestActionName opts = Some name ->
  Js.truthy name = true ->
  pickAction w opts action game m s =
    if Js.truthy action
    then (Val (findWhere_name (actions m) name), s)
    else (Returned,
          appendTrace [ELog (LogPickedInvalidAction name (actions m))] s).
Proof.
  intros Hlen Hn Ht. unfold pickAction.
  apply Nat.ltb_lt in Hlen. rewrite Hlen, Hn. simpl. rewrite Ht.
  now destruct (Js.truthy action).
Qed.

Lemma pickAction_chooser w opts action game m s :
  (1 < length (actions m))%nat ->
  Js.truthy_opt (manifestActionName opts) = false ->
  allNamed m ->
  let spec := chooserSpec game (map (bigButton w) (actions m)) in
  pickAction w opts action game m s =
    (match promisedModal w spec with
     | Ok (ModalResponse name) => Val (findWhere_name (actions m) name)
     | Ok ModalClosed => Returned
     | Err e => Threw e
     end,
     appendTrace [EPromisedModal spec] s).
Proof.
  intros Hlen Hn Hall. cbv zeta. unfold pickAction.
  apply Nat.ltb_lt in Hlen. rewrite Hlen, Hn.
  unfold bind at 1. rewrite (pushBigButtons_named w _ Hall). simpl.
  unfold bind, call, bind, emit, lift.
  now destruct (promisedModal w _) as [[name |] | e].
Qed.

(** From the choice on, the task validates no manifest. *)
Lemma choice_emits P w opts action game cave appPath launchType m :
  (forall e, chooses e \/ prepares e \/ installs e \/ supervises e -> P e) ->
  emits P (do manifestAction <- pickAction w opts action game m;
           dispatch w opts game cave appPath launchType manifestAction).
Proof.
  intros HP. apply emits_bind.
  - eapply emits_weaken; [| apply pickAction_emits]. auto.
  - intros ma. apply dispatch_emits. intros e He. apply HP. tauto.
Qed.

(** A manifest that the task handed to the validator, and that the
    validator accepts, is the manifest the task chooses from. *)
Lemma doStart_validated w opts s m :
  let launchType := default "native" (cave_launchType (opts_cave opts)) in
  let action := actionForGame w (cave_game (opts_cave opts)) (opts_cave opts) in
  EValidateManifest m ∈ newEvents s (doStart w opts s).2 ->
  validateManifest w m = Ok tt ->
  exists game cave s1,
    gameLazily w (gameId (opts_cave opts)) (cave_game (opts_cave opts)) = Ok game
    /\ extends precedesValidation s s1
    /\ doStart w opts s =
       function_
         (do manifestAction <- pickAction w opts action game m;
          dispatch w opts game cave (appPath_of w cave) launchType
            manifestAction)
         (appendTrace [EValidateManifest m] s1).
Proof.
  cbv zeta. intros Hin Hv.
  destruct (doStart_reaches_choice w opts s)
    as [H | [(game & cave & s1 & H1 & E)
          | [(m' & e & s1 & H1 & Hv' & E)
            | (game & cave & m' & s1 & Hg & H1 & Hv' & E)]]].
  - apply extends_newEvents in H as [_ F].
    rewrite Forall_forall in F. now apply F in Hin.
  - exfalso. rewrite E, function_run in Hin. simpl in Hin.
    apply extends_newEvents in H1 as [E1 F1].
    destruct (dispatch_emits (never isValidation) w opts game cave
                (appPath_of w cave)
                (default "native" (cave_launchType (opts_cave opts))) None
                ltac:(intros [] [H | [H | H]]; done) s1) as (evs & E2 & F2).
    rewrite (newEvents_app s _ (newEvents s s1 ++ evs)) in Hin
      by (now rewrite E2, E1, <- app_assoc).
    rewrite Forall_forall in F1, F2.
    apply elem_of_app in Hin as [Hin | Hin];
      [now apply F1 in Hin | now apply F2 in Hin].
  - exfalso. rewrite E in Hin. simpl in Hin.
    apply extends_newEvents in H1 as [E1 F1].
    rewrite (newEvents_app s _ (newEvents s s1 ++ [EValidateManifest m'])) in Hin
      by (simpl; now rewrite E1, <- app_assoc).
    rewrite Forall_forall in F1.
    apply elem_of_app in Hin as [Hin | Hin]; [now apply F1 in Hin |].
    apply list_elem_of_singleton in Hin. injection Hin as ->. congruence.
  - assert (m = m') as <-.
    { rewrite E, function_run in Hin. simpl in Hin.
      apply extends_newEvents in H1 as [E1 F1].
      destruct (choice_emits (never isValidation) w opts
                  (actionForGame w (cave_game (opts_cave opts)) (opts_cave opts))
                  game cave (appPath_of w cave)
                  (default "native" (cave_launchType (opts_cave opts))) m'
                  ltac:(intros [] [H | [H | [H | H]]]; done)
                  (appendTrace [EValidateManifest m'] s1)) as (evs & E2 & F2).
      rewrite (newEvents_app s _
                 (newEvents s s1 ++ [EValidateManifest m'] ++ evs)) in Hin
        by (rewrite E2; simpl; now rewrite E1, <- !app_assoc).
      rewrite Forall_forall in F1, F2.
      apply elem_of_app in Hin as [Hin | Hin]; [now apply F1 in Hin |].
      apply elem_of_app in Hin as [Hin | Hin]; [| now apply F2 in Hin].
      apply list_elem_of_singleton in Hin. now injection Hin. }
    exists game, cave, s1. auto.
Qed.

(** What the guard of the chooser does with an action without a name,
    which the specification does not call a manifest action (every
    action must have a non-empty name): the task throws while it makes
    the buttons, and the chooser is never invoked. *)
Lemma chooser_not_invoked_for_nameless_action :
  let final := doStart (manifestWorld oneNameless ModalClosed) sampleOpts
                 sampleState in
  (1 < length (actions oneNameless))%nat
  /\ manifestActionName sampleOpts = None
  /\ EValidateManifest oneNameless ∈ newEvents sampleState final.2
  /\ List.filter isChooser (newEvents sampleState final.2) = []
  /\ final.1 = Threw (mkError "in manifest, action 1 is missing a name").
Proof.
  cbv zeta. split; [simpl; lia |]. split; [reflexivity |].
  split; [vm_compute; repeat constructor |].
  split; vm_compute; reflexivity.
Qed.



(** ** The action given to the launcher *)

Lemma prepare_manifestAction w opts game appPath launchType ma s launchType' gameOpts :
  (prepare w opts game appPath launchType ma s).1 = Val (launchType', gameOpts) ->
  manifestAction gameOpts = withExt w <$> ma.
Proof.
  pose proof (prepare_spec w opts game appPath launchType ma s) as H.
  cbv zeta in H. destruct H as (evs0 & evs1 & _ & _ & H). intros Hr.
  destruct (Js.truthy_opt (ma ≫= action_scope)).
  - destruct (match ma with Some a => _ | None => _ end) as [lt | | e].
    + destruct (client_subkey w _ _ _) as [subkey | e].
      * destruct H as (_ & gopts & Hr' & Hma & _). congruence.
      * destruct H as (_ & Hr'). congruence.
    + destruct H as (_ & Hr'). rewrite Hr in Hr'. now destruct Hr'.
    + destruct H as (_ & Hr'). rewrite Hr in Hr'. now destruct Hr'.
  - destruct H as (_ & H). now apply (H _ _ Hr).
Qed.

(** The launcher that [dispatch] calls is called on what [prepare]
    returned. *)
Lemma dispatch_launcher_called w opts game cave appPath launchType ma s
    launchType' gameOpts :
  ELauncher launchType' gameOpts
    ∈ newEvents s (dispatch w opts game cave appPath launchType ma s).2 ->
  (prepare w opts game appPath launchType ma s).1 = Val (launchType', gameOpts).
Proof.
  intros Hin.
  destruct (dispatch_after_prepare w opts game cave appPath launchType ma s)
    as (rest & E2 & _ & Hl).
  destruct (prepare_emits w opts game appPath launchType ma s) as (evs & E1 & F1).
  rewrite (newEvents_app s _ (evs ++ rest)) in Hin
    by (now rewrite E2, E1, <- app_assoc).
  apply elem_of_app in Hin as [Hin | Hin]; [| now apply Hl].
  rewrite Forall_forall in F1. now apply F1 in Hin.
Qed.

(** C7. When the manifest has exactly one action, the choice is that
    action, whatever the options say and without any event: no chooser
    is invoked. In a run of the task that validated such a manifest, no
    chooser is invoked at all, the task goes on to [dispatch] with that
    action, and a launcher that is called gets that action (its
    placeholder replaced). *)
Theorem single_action_selected (w : World) (opts : StartTaskOpts) :
  (forall action game m a s,
      actions m = [a] ->
      pickAction w opts action game m s = (Val (Some a), s))
  /\ (forall s m a,
        EValidateManifest m ∈ newEvents s (doStart w opts s).2 ->
        validateManifest w m = Ok tt ->
        actions m = [a] ->
        let evs := newEvents s (doStart w opts s).2 in
        List.filter isChooser evs = []
        /\ (exists game cave s1,
              doStart w opts s =
              function_
                (dispatch w opts game cave (appPath_of w cave)
                   (default "native" (cave_launchType (opts_cave opts)))
                   (Some a)) s1)
        /\ forall launchType gameOpts,
             ELauncher launchType gameOpts ∈ evs ->
             manifestAction gameOpts = Some (withExt w a)).
Proof.
  split; [intros; now apply pickAction_single |].
  intros s m a Hin Hv Ha. cbv zeta.
  destruct (doStart_validated w opts s m Hin Hv)
    as (game & cave & s1 & Hg & H1 & E).
  apply extends_newEvents in H1 as [E1 F1].
  assert (doStart w opts s =
          function_
            (dispatch w opts game cave (appPath_of w cave)
               (default "native" (cave_launchType (opts_cave opts))) (Some a))
            (appendTrace [EValidateManifest m] s1)) as E'.
  { rewrite E, !function_run. unfold bind.
    now rewrite (pickAction_single w opts _ game m a _ Ha). }
  clear E. rewrite E', function_run. simpl.
  set (s2 := appendTrace [EValidateManifest m] s1).
  destruct (dispatch_emits (fun _ => True) w opts game cave (appPath_of w cave)
              (default "native" (cave_launchType (opts_cave opts))) (Some a)
              (fun _ _ => I) s2) as (evs & E2 & _).
  assert (newEvents s2 (dispatch w opts game cave (appPath_of w cave)
            (default "native" (cave_launchType (opts_cave opts))) (Some a) s2).2
          = evs) as N2 by now apply newEvents_app.
  rewrite (newEvents_app s _ (newEvents s s1 ++ [EValidateManifest m] ++ evs))
    by (rewrite E2; subst s2; simpl; now rewrite E1, <- !app_assoc).
  split; [| split].
  - destruct (dispatch_emits (never isChooser) w opts game cave
                (appPath_of w cave)
                (default "native" (cave_launchType (opts_cave opts))) (Some a)
                ltac:(intros [] [H | [H | H]]; done) s2) as (evs' & E3 & F3).
    assert (evs' = evs) as -> by (rewrite E2 in E3; now apply app_inv_head in E3).
    rewrite !List.filter_app, (filter_never _ _ F3). simpl.
    rewrite app_nil_r. apply filter_never.
    eapply Forall_impl; [exact F1 | now intros []].
  - exists game, cave, s2. now rewrite function_run.
  - intros lt gopts Hl.
    rewrite Forall_forall in F1.
    apply elem_of_app in Hl as [Hl | Hl]; [now apply F1 in Hl |].
    apply elem_of_cons in Hl as [Hl | Hl]; [discriminate |].
    rewrite <- N2 in Hl. apply dispatch_launcher_called in Hl.
    now apply prepare_manifestAction in Hl.
Qed.

Lemma single_action_selected_witness :
  List.filter isChooser
    (newEvents sampleState
       (doStart (manifestWorld {| actions := [playAction] |} ModalClosed)
          sampleOpts sampleState).2) = [].
Proof.
  refine (proj1 (proj2 (single_action_selected
            (manifestWorld {| actions := [playAction] |} ModalClosed) sampleOpts)
            sampleState {| actions := [playAction] |} playAction _ eq_refl
            eq_refl)).
  vm_compute. repeat constructor.
Defined.

(** ** An explicit action name that matches no action *)

(** The test that guards the invalid-selection branch is on [action],
    the result of [actionForGame], and not on the action that was
    looked up: with an action other than the empty string, a name that
    matches nothing is let through without a log, and the choice is
    absent. *)
Lemma pickAction_mismatch_is_let_through w opts action game m name s :
  (1 < length (actions m))%nat ->
  manifestActionName opts = Some name ->
  Js.truthy name = true ->
  findWhere_name (actions m) name = None ->
  Js.truthy action = true ->
  pickAction w opts action game m s = (Val None, s).
Proof.
  intros Hlen Hn Ht Hf Ha.
  now rewrite (pickAction_explicit w opts action game m name s Hlen Hn Ht), Ha, Hf.
Qed.

(** C1 (the code at the failing input). The manifest has the actions
    play and editor, the options name the action bonus, and
    [actionForGame] answers "launch": no invalid selection is logged,
    and the native launcher is called without a manifest action. *)
Theorem mismatched_action_name_still_launches :
  let final := doStart (manifestWorld twoActions ModalClosed) bonusOpts
                 sampleState in
  let evs := newEvents sampleState final.2 in
  (1 < length (actions twoActions))%nat
  /\ findWhere_name (actions twoActions) "bonus" = None
  /\ List.filter isInvalidSelectionLog evs = []
  /\ List.filter isLaunch evs = [ELauncher "native" (plainGameOpts bonusOpts)]
  /\ final.1 = Val tt.
Proof.
  cbv zeta. split; [simpl; lia |]. split; [reflexivity |].
  split; [vm_compute; reflexivity |]. split; vm_compute; reflexivity.
Qed.

(** * Further properties of the launch task *)

(** ** The "open" short-circuit *)

(** X1. When [actionForGame] answers "open", the task saves the time
    as [lastTouched], opens the install folder of the cave of the
    options and ends there: whatever the state of the cave, nothing is
    diagnosed or repaired, no manifest is looked for and no launcher is
    called. The save is made before the folder is opened, so it stays
    when opening fails, and that failure is the task's. *)
Theorem open_short_circuit
    (w : World) (opts : StartTaskOpts) (s : State) (game : GameRecord) :
  let cave := opts_cave opts in
  gameLazily w (gameId cave) (cave_game cave) = Ok game ->
  actionForGame w (cave_game cave) cave = "open" ->
  let now_ := clock w (clockReads s) in
  let final := doStart w opts s in
  newEvents s final.2 =
    [EGameLazily (gameId cave) (cave_game cave);
     ESaveEntity (cave_id cave) (touch now_);
     EExplorerOpen (appPath_of w cave)]
  /\ caves final.2 = market_save (cave_id cave) (touch now_) (caves s)
  /\ final.1 = match explorer_open w (appPath_of w cave) with
               | Ok _ => Val tt
               | Err e => Threw e
               end.
Proof.
  intros cave Hg Ho. cbv zeta. unfold doStart. fold cave.
  rewrite function_run.
  unfold bind at 1. unfold call at 1, bind at 1, emit, lift. rewrite Hg.
  cbn [ret]. rewrite Ho. cbn [String.eqb Ascii.eqb Bool.eqb].
  unfold bind, now, saveEntity, call, bind, emit, getCaves, setCaves, lift.
  cbn [caves trace clockReads appendTrace].
  destruct (explorer_open w (appPath_of w cave)) as [[] | e]; simpl;
    (split; [apply newEvents_app; simpl; now rewrite <- !app_assoc
            | split; reflexivity]).
Qed.

Lemma open_short_circuit_witness :
  newEvents brokenState
    (doStart (withAction "open" (plainWorld "linux")) brokenOpts brokenState).2
  = [EGameLazily 42 (Some sampleGame);
     ESaveEntity "cave-1" (touch 0);
     EExplorerOpen "/apps/cave-1"].
Proof.
  exact (proj1 (open_short_circuit (withAction "open" (plainWorld "linux"))
                  brokenOpts brokenState sampleGame eq_refl eq_refl)).
Defined.

(** ** Launch types that have a launcher *)





(** ** What the launcher is given *)

Lemma prepare_result w opts game appPath launchType ma s launchType' gameOpts :
  (prepare w opts game appPath launchType ma s).1 = Val (launchType', gameOpts) ->
  base_opts gameOpts = opts
  /\ args gameOpts = default [] (ma ≫= action_args)
  /\ (ma = None -> launchType' = launchType /\ env gameOpts = ∅).
Proof.
  destruct ma as [a |].
  2:{ unfold prepare, ret. simpl. intros [= <- <-]. auto. }
  unfold prepare.
  unfold bind, log, call, bind, emit, lift.
  destruct (launchTypeForAction w appPath _ s) as [[lt | | e] s0]; simpl;
    [| discriminate ..].
  destruct (Js.truthy_opt (action_scope a)); simpl.
  - destruct (client_subkey w _ _ _); simpl; [| discriminate].
    intros [= <- <-]. simpl. repeat split; discriminate.
  - intros [= <- <-]. simpl. repeat split; discriminate.
Qed.

(** X3. Every launcher that the task calls is given the options the
    task was started with (so the cave in them is the cave before any
    repair), with the arguments of the manifest action in order, or
    none. When no manifest action was resolved, the launcher is the
    one of the launch type that the cave of the options records,
    native if it records none, and the environment is empty: a repair
    that changes the launch type of the stored cave does not change
    the launcher. *)
Theorem launcher_options
    (w : World) (opts : StartTaskOpts) (s : State)
    (launchType : string) (gameOpts : GameOpts) :
  ELauncher launchType gameOpts ∈ newEvents s (doStart w opts s).2 ->
  base_opts gameOpts = opts
  /\ args gameOpts = default [] (manifestAction gameOpts ≫= action_args)
  /\ (manifestAction gameOpts = None ->
      launchType = default "native" (cave_launchType (opts_cave opts))
      /\ env gameOpts = ∅).
Proof.
  intros Hin.
  destruct (doStart_launcher_called w opts s launchType gameOpts Hin)
    as (game & cave & ma & s1 & s2 & s3 & _ & Hp & _).
  assert ((prepare w opts game (appPath_of w cave)
             (default "native" (cave_launchType (opts_cave opts))) ma s1).1
          = Val (launchType, gameOpts)) as Hp1 by now rewrite Hp.
  destruct (prepare_result _ _ _ _ _ _ _ _ _ Hp1) as (Hb & Ha & Hn).
  pose proof (prepare_manifestAction _ _ _ _ _ _ _ _ _ Hp1) as Hm.
  split; [exact Hb |]. split.
  - rewrite Ha, Hm. now destruct ma.
  - intros Hnone. apply Hn. rewrite Hnone in Hm. now destruct ma.
Qed.

Lemma launcher_options_witness :
  let w := repairingWorld (fun m => <["cave-1" := htmlCave]> m) in
  cave_launchType <$> caves (doStart w brokenOpts brokenState).2 !! "cave-1"
  = Some (Some "html")
  /\ base_opts (plainGameOpts brokenOpts) = brokenOpts
  /\ "native" = default "native" (cave_launchType (opts_cave brokenOpts)).
Proof.
  cbv zeta. split; [reflexivity |].
  destruct (launcher_options
              (repairingWorld (fun m => <["cave-1" := htmlCave]> m))
              brokenOpts brokenState "native" (plainGameOpts brokenOpts))
    as (Hb & _ & Hn).
  - vm_compute. repeat constructor.
  - split; [exact Hb |]. exact (proj1 (Hn eq_refl)).
Defined.

(** ** A manifest that cannot be read *)

Arguments resolveManifest : simpl never.

(** The task ends before it looks into a manifest, or it goes on to
    [resolveManifest] knowing whether the file exists. *)
Lemma doStart_reaches_manifest w opts s :
  let launchType := default "native" (cave_launchType (opts_cave opts)) in
  let action := actionForGame w (cave_game (opts_cave opts)) (opts_cave opts) in
  extends precedesManifest s (doStart w opts s).2
  \/ exists game cave hasManifest s1,
       extends precedesManifest s s1
       /\ doStart w opts s =
          function_
            (do manifestAction <-
               resolveManifest w opts action game
                 (ospath_join w (appPath_of w cave) ".itch.toml") hasManifest;
             dispatch w opts game cave (appPath_of w cave) launchType
               manifestAction) s1.
Proof.
  cbv zeta.
  cut (wp (doStart w opts) s (fun r s' =>
    extends precedesManifest s s'
    \/ exists game cave hasManifest s1,
         extends precedesManifest s s1
         /\ (r, s') =
            function_
              (do manifestAction <-
                 resolveManifest w opts
                   (actionForGame w (cave_game (opts_cave opts)) (opts_cave opts))
                   game (ospath_join w (appPath_of w cave) ".itch.toml")
                   hasManifest;
               dispatch w opts game cave (appPath_of w cave)
                 (default "native" (cave_launchType (opts_cave opts)))
                 manifestAction) s1)).
  { unfold wp. now rewrite <- surjective_pairing. }
  unfold doStart. apply wp_function, wp_bind, wp_call.
  destruct (gameLazily w _ _) as [game | e]; [| left; extends_tac].
  destruct (String.eqb _ "open").
  { unfold wp, bind, now, saveEntity, call, bind, emit, getCaves, setCaves.
    simpl. destruct (explorer_open w _); simpl; left; eexists; simpl;
      (split; [rewrite <- !app_assoc; reflexivity | repeat constructor]). }
  apply wp_bind.
  apply (wp_frame diagnoses); [apply diagnose_emits | apply diagnose_timeless |].
  intros [cave| |e] s1 H1 C1; [| left; extends_tac ..].
  apply wp_bind, wp_emit, wp_bind, wp_emit, wp_bind, wp_call.
  destruct (sf_exists w _) as [hasManifest | e]; [| left; extends_tac].
  right. exists game, cave, hasManifest. eexists.
  split; [| now rewrite function_run].
  extends_tac.
Qed.

(** How [resolveManifest] reads and parses the file. *)
Lemma resolveManifest_reads w opts action game manifestPath s :
  let found := [ELog LogFoundManifest; ESfReadFile manifestPath] in
  resolveManifest w opts action game manifestPath true s =
    match sf_readFile w manifestPath with
    | Err e =>
        (Threw e, appendTrace (found ++ [ELog (LogErrorReadingManifest e)]) s)
    | Ok contents =>
        match toml_parse w contents with
        | Err e =>
            (Threw e,
             appendTrace (found ++ [ETomlParse contents;
                                    ELog (LogErrorReadingManifest e)]) s)
        | Ok manifest =>
            (run log (LogManifest manifest);
             run call (EValidateManifest manifest) (validateManifest w manifest);
             pickAction w opts action game manifest)
              (appendTrace (found ++ [ETomlParse contents]) s)
        end
    end.
Proof.
  cbv zeta. unfold resolveManifest.
  unfold bind at 1. unfold log at 1, emit at 1.
  unfold bind at 1.
  unfold try_catch, try_catch_finally.
  unfold bind at 1. unfold call at 1, bind at 1, emit at 1, lift at 1.
  destruct (sf_readFile w manifestPath) as [contents | e]; simpl.
  - unfold call at 1, bind at 1, emit at 1, lift at 1.
    destruct (toml_parse w contents) as [manifest | e]; simpl.
    + now rewrite !appendTrace_appendTrace.
    + unfold bind, log, emit, throw, ret. simpl.
      now rewrite !appendTrace_appendTrace.
  - unfold bind, log, emit, throw, ret. simpl.
    now rewrite !appendTrace_appendTrace.
Qed.

Lemma resolveManifest_absent w opts action game manifestPath s :
  resolveManifest w opts action game manifestPath false s
  = (Val None, appendTrace [ELog LogNoManifest] s).
Proof. reflexivity. Qed.

Lemma newEvents_extends P s s1 s' evs :
  extends P s s1 -> trace s' = trace s1 ++ evs ->
  exists evs1, newEvents s s' = evs1 ++ evs /\ Forall P evs1.
Proof.
  intros (evs1 & E1 & F1) E. exists evs1. split; [| done].
  apply newEvents_app. now rewrite E, E1, app_assoc.
Qed.

Lemma precedesManifest_never_read e : precedesManifest e -> never isManifestRead e.
Proof. now destruct e. Qed.

Lemma precedesManifest_quiet evs :
  Forall precedesManifest evs ->
  List.filter isValidation evs = [] /\ List.filter isChooser evs = []
  /\ List.filter isLaunch evs = [] /\ List.filter isManifestRead evs = [].
Proof.
  intros F. repeat split; apply filter_never;
    (eapply Forall_impl; [exact F |]); now intros [].
Qed.

Lemma after_manifest_never_read w opts action game cave appPath launchType m :
  emits (never isManifestRead)
    (do manifestAction <-
       (run log (LogManifest m);
        run call (EValidateManifest m) (validateManifest w m);
        pickAction w opts action game m);
     dispatch w opts game cave appPath launchType manifestAction).
Proof.
  apply emits_bind.
  - apply emits_bind; [now apply emits_emit |]. intros _.
    apply emits_bind.
    { unfold call. apply emits_bind; [now apply emits_emit |]. intros _.
      apply emits_lift. }
    intros _. eapply emits_weaken; [| apply pickAction_emits]. now intros [].
  - intros ma. apply dispatch_emits.
    intros ev [H | [H | H]]; now destruct ev.
Qed.

Lemma manifest_then {A} w opts action game manifestPath
    (k : option ManifestAction -> M A) s :
  let found := [ELog LogFoundManifest; ESfReadFile manifestPath] in
  bind (resolveManifest w opts action game manifestPath true) k s =
    match sf_readFile w manifestPath with
    | Err e =>
        (Threw e, appendTrace (found ++ [ELog (LogErrorReadingManifest e)]) s)
    | Ok contents =>
        match toml_parse w contents with
        | Err e =>
            (Threw e,
             appendTrace (found ++ [ETomlParse contents;
                                    ELog (LogErrorReadingManifest e)]) s)
        | Ok manifest =>
            bind (run log (LogManifest manifest);
                  run call (EValidateManifest manifest)
                        (validateManifest w manifest);
                  pickAction w opts action game manifest) k
              (appendTrace (found ++ [ETomlParse contents]) s)
        end
    end.
Proof.
  cbv zeta. unfold bind at 1. rewrite resolveManifest_reads. cbv zeta.
  destruct (sf_readFile w manifestPath) as [contents | e]; [| done].
  destruct (toml_parse w contents) as [m | e]; done.
Qed.

Lemma function_congruence (m m' : M unit) s s' :
  m s = m' s' -> function_ m s = function_ m' s'.
Proof. unfold function_. now intros ->. Qed.

(** X4. A manifest that cannot be read or parsed ends the launch: the
    task rejects with the very error of the reader or the parser, the
    last thing it does is to log that error, and it validates nothing,
    shows no action chooser and calls no launcher. *)
Theorem manifest_failure_is_fatal (w : World) (opts : StartTaskOpts)
    (s : State) (path : string) (e : Error) :
  let final := doStart w opts s in
  ESfReadFile path ∈ newEvents s final.2 ->
  (sf_readFile w path = Err e
   \/ exists contents,
        sf_readFile w path = Ok contents /\ toml_parse w contents = Err e) ->
  final.1 = Threw e
  /\ last (newEvents s final.2) = Some (ELog (LogErrorReadingManifest e))
  /\ List.filter isValidation (newEvents s final.2) = []
  /\ List.filter isChooser (newEvents s final.2) = []
  /\ List.filter isLaunch (newEvents s final.2) = [].
Proof.
  cbv zeta. intros Hin Hfail.
  destruct (doStart_reaches_manifest w opts s)
    as [H | (game & cave & hasManifest & s1 & H1 & E)].
  { apply extends_newEvents in H as [_ F].
    rewrite Forall_forall in F. now apply F in Hin. }
  rewrite E in *. clear E.
  assert (Hfresh : forall evs1, Forall precedesManifest evs1 ->
            ESfReadFile path ∉ evs1).
  { intros evs1 F Hin1. rewrite Forall_forall in F. now apply F in Hin1. }
  assert (Hnever : forall evs, Forall (never isManifestRead) evs ->
            ESfReadFile path ∉ evs).
  { intros evs F Hin1. rewrite Forall_forall in F. now apply F in Hin1. }
  set (manifestPath := ospath_join w (appPath_of w cave) ".itch.toml") in *.
  set (action := actionForGame w (cave_game (opts_cave opts)) (opts_cave opts)) in *.
  set (launchType := default "native" (cave_launchType (opts_cave opts))) in *.
  destruct hasManifest.
  - pose proof (manifest_then w opts action game manifestPath
                  (fun manifestAction =>
                     dispatch w opts game cave (appPath_of w cave) launchType
                       manifestAction) s1)
      as Hrun.
    cbv zeta in Hrun.
    destruct (sf_readFile w manifestPath) as [contents | e'] eqn:Hread.
    + destruct (toml_parse w contents) as [m | e'] eqn:Hparse.
      * exfalso. apply function_congruence in Hrun. rewrite Hrun in Hin.
        destruct (emits_function _ _
                    (after_manifest_never_read w opts action game cave
                       (appPath_of w cave) launchType m)
                    (appendTrace
                       ([ELog LogFoundManifest; ESfReadFile manifestPath]
                          ++ [ETomlParse contents]) s1))
          as (evs & Etr & F).
        cbn [app] in Etr, Hin.
        change (trace (appendTrace ?l s1)) with (trace s1 ++ l) in Etr.
        rewrite <- app_assoc in Etr.
        destruct (newEvents_extends _ _ _ _ _ H1 Etr) as (evs1 & Enew & F1).
        rewrite Enew in Hin.
        rewrite !elem_of_app in Hin.
        destruct Hin as [Hin | [Hin | Hin]].
        -- now apply Hfresh in Hin.
        -- rewrite !elem_of_cons in Hin.
           destruct Hin as [Hin | [Hin | [Hin | Hin]]];
             [done | | done | now apply elem_of_nil in Hin].
           injection Hin as ->.
           destruct Hfail as [Hf | (c & Hf & Hp)]; congruence.
        -- now apply Hnever in Hin.
      * unfold function_ in Hin |- *. rewrite Hrun in Hin |- *.
        simpl in Hin |- *.
        assert (Etr : trace (appendTrace
                       [ELog LogFoundManifest; ESfReadFile manifestPath;
                        ETomlParse contents; ELog (LogErrorReadingManifest e')] s1)
                      = trace s1 ++ [ELog LogFoundManifest; ESfReadFile manifestPath;
                        ETomlParse contents; ELog (LogErrorReadingManifest e')])
          by reflexivity.
        destruct (newEvents_extends _ _ _ _ _ H1 Etr) as (evs1 & Enew & F1).
        rewrite Enew in *.
        assert (path = manifestPath) as ->.
        { rewrite elem_of_app in Hin. destruct Hin as [Hin | Hin];
            [now apply Hfresh in Hin |].
          rewrite !elem_of_cons in Hin.
          destruct Hin as [Hin | [Hin | [Hin | [Hin | Hin]]]];
            [done | congruence | done | done | now apply elem_of_nil in Hin]. }
        assert (e' = e) as ->.
        { destruct Hfail as [Hf | (c & Hf & Hp)]; congruence. }
        destruct (precedesManifest_quiet _ F1) as (Q1 & Q2 & Q3 & _).
        rewrite !List.filter_app, Q1, Q2, Q3.
        split; [done |]. split; [| done].
        rewrite last_app. reflexivity.
    + unfold function_ in Hin |- *. rewrite Hrun in Hin |- *.
      simpl in Hin |- *.
      assert (Etr : trace (appendTrace
                     [ELog LogFoundManifest; ESfReadFile manifestPath;
                      ELog (LogErrorReadingManifest e')] s1)
                    = trace s1 ++ [ELog LogFoundManifest; ESfReadFile manifestPath;
                      ELog (LogErrorReadingManifest e')])
        by reflexivity.
      destruct (newEvents_extends _ _ _ _ _ H1 Etr) as (evs1 & Enew & F1).
      rewrite Enew in *.
      assert (path = manifestPath) as ->.
      { rewrite elem_of_app in Hin. destruct Hin as [Hin | Hin];
          [now apply Hfresh in Hin |].
        rewrite !elem_of_cons in Hin.
        destruct Hin as [Hin | [Hin | [Hin | Hin]]];
          [done | congruence | done | now apply elem_of_nil in Hin]. }
      assert (e' = e) as ->.
      { destruct Hfail as [Hf | (c & Hf & Hp)]; congruence. }
      destruct (precedesManifest_quiet _ F1) as (Q1 & Q2 & Q3 & _).
      rewrite !List.filter_app, Q1, Q2, Q3.
      split; [done |]. split; [| done].
      rewrite last_app. reflexivity.
  - exfalso.
    assert (Hem : emits (never isManifestRead)
              (function_
                 (do manifestAction <-
                    resolveManifest w opts action game manifestPath false;
                  dispatch w opts game cave (appPath_of w cave) launchType
                    manifestAction))).
    { apply emits_function, emits_bind.
      - intros s0. rewrite resolveManifest_absent. exists [ELog LogNoManifest].
        split; [done |]. now repeat constructor.
      - intros ma. apply dispatch_emits.
        intros ev [H | [H | H]]; now destruct ev. }
    destruct (Hem s1) as (evs & Etr & F).
    destruct (newEvents_extends _ _ _ _ _ H1 Etr) as (evs1 & Enew & F1).
    rewrite Enew, elem_of_app in Hin. destruct Hin as [Hin | Hin].
    + now apply Hfresh in Hin.
    + now apply Hnever in Hin.
Qed.

Lemma manifest_failure_is_fatal_witness :
  let w := withManifestFile (Ok "[[actions") (Err sampleParseError)
             (plainWorld "linux") in
  ESfReadFile "/apps/cave-1/.itch.toml"
    ∈ newEvents sampleState (doStart w sampleOpts sampleState).2
  /\ (doStart w sampleOpts sampleState).1 = Threw sampleParseError.
Proof.
  cbv zeta.
  assert (H : ESfReadFile "/apps/cave-1/.itch.toml"
                ∈ newEvents sampleState
                    (doStart (withManifestFile (Ok "[[actions")
                                (Err sampleParseError) (plainWorld "linux"))
                       sampleOpts sampleState).2).
  { vm_compute. repeat constructor. }
  split; [exact H |].
  refine (proj1 (manifest_failure_is_fatal
                   (withManifestFile (Ok "[[actions") (Err sampleParseError)
                      (plainWorld "linux"))
                   sampleOpts sampleState "/apps/cave-1/.itch.toml"
                   sampleParseError H _)).
  right. exists "[[actions". split; reflexivity.
Defined.

(** ** The play-time timer *)

Lemma try_catch_finally_settles {A} P (body : M A) handler fin s :
  emits P body -> (forall e, emits P (handler e)) ->
  exists r2 s2,
    extends P s s2
    /\ try_catch_finally body handler fin s =
       match fin s2 with
       | (Val _, s3) => (r2, s3)
       | (Returned, s3) => (Returned, s3)
       | (Threw e, s3) => (Threw e, s3)
       end.
Proof.
  intros Hb Hh. unfold try_catch_finally.
  pose proof (Hb s) as H1. fold (extends P s (body s).2) in H1.
  destruct (body s) as [[a| |e] s1]; simpl in H1.
  - now exists (Val a), s1.
  - now exists Returned, s1.
  - pose proof (Hh e s1) as H2. fold (extends P s1 (handler e s1).2) in H2.
    destruct (handler e s1) as [r2 s2]. exists r2, s2.
    split; [| done]. eapply extends_trans; eauto.
Qed.

(** A supervised launch, from the first save to the last: the timer is
    set right before the launcher is called and cleared after it
    settles, then the time of the end is saved. *)
Lemma supervise_cleanup w launchType gameOpts cave s :
  exists mid t,
    trace (supervise w launchType gameOpts cave s).2 =
      trace s
      ++ [ESaveEntity (cave_id cave) (touch (clock w (clockReads s)))]
      ++ [ESetInterval (UPDATE_PLAYTIME_INTERVAL * 1000);
          ELauncher launchType gameOpts]
      ++ mid
      ++ [EClearInterval; ESaveEntity (cave_id cave) (touch t)]
    /\ Forall duringLaunch mid
    /\ caves (supervise w launchType gameOpts cave s).2 !! cave_id cave
         ≫= lastTouched = Some t.
Proof.
  assert (exists r s2 mid,
            trace s2 =
              trace s
              ++ [ESaveEntity (cave_id cave) (touch (clock w (clockReads s)))]
              ++ [ESetInterval (UPDATE_PLAYTIME_INTERVAL * 1000);
                  ELauncher launchType gameOpts]
              ++ mid
            /\ Forall duringLaunch mid
            /\ supervise w launchType gameOpts cave s =
               (r, {| caves := market_save (cave_id cave)
                                 (touch (clock w (clockReads s2))) (caves s2);
                      trace := trace s2
                               ++ [EClearInterval;
                                   ESaveEntity (cave_id cave)
                                     (touch (clock w (clockReads s2)))];
                      clockReads := S (clockReads s2) |}))
    as (r & s2 & mid & E & F & ->).
  { unfold supervise, awaitLauncher.
    unfold bind at 1. simpl. unfold bind at 1. simpl.
    rewrite !try_catch_finally_emit.
    match goal with |- context [try_catch_finally ?b ?h ?f ?s0] =>
      destruct (try_catch_finally_settles duringLaunch b h f s0)
        as (r2 & s2 & (mid & E & F) & ->)
    end.
    { unfold activity, updatePlaytime. emits_auto. }
    { intros e. emits_auto. }
    exists r2, s2, mid. split; [| split; [done |]].
    - rewrite E. simpl. now rewrite <- !app_assoc.
    - unfold bind, emit, now, saveEntity, bind, emit, getCaves, setCaves.
      simpl. now rewrite <- !app_assoc. }
  exists mid, (clock w (clockReads s2)). simpl.
  split; [| split; [done |]].
  - rewrite E. now rewrite <- !app_assoc.
  - unfold market_save. rewrite lookup_insert_eq. reflexivity.
Qed.

(** X5. Whenever the task calls a launcher, it sets the play-time timer
    right before the call and clears it after the launcher has settled,
    whether the launcher succeeds, crashes or fails; the clearing is
    followed by one last save, which leaves its time in the cave's
    [lastTouched]. No other timer is set or cleared, and no other
    launcher is called. *)
Theorem timer_cleared_on_every_path (w : World) (opts : StartTaskOpts)
    (s : State) (launchType : string) (gameOpts : GameOpts) :
  let final := doStart w opts s in
  ELauncher launchType gameOpts ∈ newEvents s final.2 ->
  exists before mid id t,
    newEvents s final.2 =
      before
      ++ [ESetInterval (UPDATE_PLAYTIME_INTERVAL * 1000);
          ELauncher launchType gameOpts]
      ++ mid
      ++ [EClearInterval; ESaveEntity id (touch t)]
    /\ Forall precedesLauncher before
    /\ Forall duringLaunch mid
    /\ caves final.2 !! id ≫= lastTouched = Some t.
Proof.
  cbv zeta. intros Hin.
  destruct (doStart_launcher_called w opts s launchType gameOpts Hin)
    as (game & cave & ma & s1 & s2 & s3 & H1 & Hp & H3 & _ & E).
  rewrite E, function_run. simpl.
  destruct (supervise_cleanup w launchType gameOpts cave s3)
    as (mid & t & Etr & Fmid & Hl).
  pose proof (prepare_emits w opts game (appPath_of w cave)
                (default "native" (cave_launchType (opts_cave opts))) ma s1) as H2.
  rewrite Hp in H2. simpl in H2.
  destruct H1 as (e1 & E1 & F1), H2 as (e2 & E2 & F2), H3 as (e3 & E3 & F3).
  exists (e1 ++ e2 ++ e3
          ++ [ESaveEntity (cave_id cave) (touch (clock w (clockReads s3)))]),
    mid, (cave_id cave), t.
  split; [| split; [| split; [done | done]]].
  - apply newEvents_app. rewrite Etr, E3, E2, E1.
    now rewrite <- !app_assoc.
  - rewrite !Forall_app. repeat split.
    + eapply Forall_impl; [exact F1 |]. now intros [].
    + eapply Forall_impl; [exact F2 |]. now intros [].
    + eapply Forall_impl; [exact F3 |]. now intros [].
    + now repeat constructor.
Qed.

Lemma timer_cleared_on_every_path_witness :
  let w := runningWorld [TimerFires] (Err sampleCrash) [0; 10000; 10500] in
  (doStart w sampleOpts sampleState).1 = Val tt
  /\ exists before mid id t,
       newEvents sampleState (doStart w sampleOpts sampleState).2 =
         before
         ++ [ESetInterval (UPDATE_PLAYTIME_INTERVAL * 1000);
             ELauncher "native" (plainGameOpts sampleOpts)]
         ++ mid
         ++ [EClearInterval; ESaveEntity id (touch t)]
       /\ Forall precedesLauncher before
       /\ Forall duringLaunch mid
       /\ caves (doStart w sampleOpts sampleState).2 !! id ≫= lastTouched
          = Some t.
Proof.
  cbv zeta. split; [reflexivity |].
  apply (timer_cleared_on_every_path
           (runningWorld [TimerFires] (Err sampleCrash) [0; 10000; 10500])
           sampleOpts sampleState "native" (plainGameOpts sampleOpts)).
  vm_compute. repeat constructor.
Defined.

(** ** Processes the task spawns *)



(** *** What leaves the store as it is *)



















Lemma prerequisite_spawned_on_windows :
  List.filter isSpawn
    (newEvents ue4State
       (doStart (windowsWorld (Ok 0))
          {| opts_cave := ue4Cave; credentials_key := "api-key";
             manifestActionName := None |} ue4State).2)
  = [ESpawn "/apps/cave-1/Engine/Extras/Redist/en-us/UE4PrereqSetup_x64.exe"
       ["/quiet"; "/norestart"]].
Proof. vm_compute. reflexivity. Qed.

(** ** The extension placeholder *)

Module ReplaceFacts.
Import RegExp.

Lemma append_nil (s : string) : "" +:+ s = s.
Proof. reflexivity. Qed.

Lemma append_cons a (p s : string) : String a p +:+ s = String a (p +:+ s).
Proof. reflexivity. Qed.

Ltac string_simpl :=
  repeat first [rewrite append_nil | rewrite append_cons].
Ltac string_simpl_in H :=
  repeat first [rewrite append_nil in H | rewrite append_cons in H].

Lemma strip_prefix_spec n : forall s rest,
  strip_prefix n s = Some rest <-> s = n +:+ rest.
Proof.
  induction n as [| c n IH]; intros s rest; simpl; string_simpl.
  - split; congruence.
  - destruct s as [| a s]; [split; discriminate |].
    destruct (N.eqb_spec (N_of_ascii c) (N_of_ascii a)) as [E | E].
    + assert (c = a) as ->.
      { now rewrite <- (ascii_N_embedding c), E, ascii_N_embedding. }
      rewrite IH. split; [now intros -> | now intros [= ->]].
    + split; [discriminate | intros [= -> _]; contradiction].
Qed.

Lemma rmatch_lit n : n <> "" -> forall b s k,
  rmatch false (lit n) b s k =
    match strip_prefix n s with
    | Some rest => k false rest
    | None => None
    end.
Proof.
  induction n as [| c n IH]; [done |]. intros _ b s k.
  destruct n as [| c' n].
  - simpl. destruct s as [| a s]; [done |].
    unfold char_eqb. now destruct (_ =? _)%N.
  - change (lit (String c (String c' n)))
      with (Seq (Char c) (lit (String c' n))).
    cbn [rmatch strip_prefix]. destruct s as [| a s]; [done |].
    unfold char_eqb. destruct (_ =? _)%N; [| done].
    now apply IH.
Qed.

Lemma app_length_inj (p p' x y : string) :
  p +:+ x = p' +:+ y -> String.length p = String.length p' ->
  p = p' /\ x = y.
Proof.
  revert p'. induction p as [| a p IH]; intros [| a' p']; simpl;
    string_simpl; try discriminate; [done |].
  intros [= -> E] [= L]. destruct (IH _ E L) as [-> ->]. done.
Qed.

(** [exec] finds the leftmost occurrence of a literal pattern. *)
Lemma exec_from_lit n : n <> "" -> forall s b,
  match exec_from false (lit n) b s with
  | Some (pre, rest) => leftmost n s pre rest
  | None => ~ occurs n s
  end.
Proof.
  intros Hn. induction s as [| a s IH]; intros b.
  - simpl. rewrite rmatch_lit by done.
    destruct (strip_prefix n "") as [rest |] eqn:E.
    + apply strip_prefix_spec in E. simpl. split; [done |]. intros; simpl; lia.
    + intros ([| ? pre] & post & H); string_simpl_in H; [| discriminate].
      apply strip_prefix_spec in H. congruence.
  - simpl. rewrite rmatch_lit by done.
    destruct (strip_prefix n (String a s)) as [rest |] eqn:E.
    + apply strip_prefix_spec in E. simpl. split; [done |]. intros; simpl; lia.
    + specialize (IH false).
      destruct (exec_from false (lit n) false s) as [[pre rest] |].
      * destruct IH as [-> Hmin]. split; [done |].
        intros [| a' pre'] post' H; string_simpl_in H.
        -- apply strip_prefix_spec in H. congruence.
        -- injection H as _ H. apply Hmin in H. simpl. lia.
      * intros ([| a' pre] & post & H); string_simpl_in H.
        -- apply strip_prefix_spec in H. congruence.
        -- injection H as _ H. apply IH. now exists pre, post.
Qed.

Lemma leftmost_unique n s pre post pre' post' :
  leftmost n s pre post -> leftmost n s pre' post' ->
  pre = pre' /\ post = post'.
Proof.
  intros [E Hmin] [E' Hmin'].
  pose proof (Hmin _ _ E'). pose proof (Hmin' _ _ E).
  rewrite E in E'. apply app_length_inj in E' as [-> E']; [| lia].
  split; [done |].
  apply app_length_inj in E' as [_ ->]; done.
Qed.

Lemma replace_lit n by_ s : n <> "" ->
  (forall pre post, leftmost n s pre post ->
     replace false (lit n) by_ s = pre +:+ by_ +:+ post)
  /\ (~ occurs n s -> replace false (lit n) by_ s = s).
Proof.
  intros Hn. unfold replace, exec.
  pose proof (exec_from_lit n Hn s true) as H.
  destruct (exec_from false (lit n) true s) as [[pre0 rest0] |]; split.
  - intros pre post Hl.
    now destruct (leftmost_unique _ _ _ _ _ _ H Hl) as [-> ->].
  - intros Hno. destruct H as [E _]. exfalso. apply Hno. now exists pre0, rest0.
  - intros pre post [E _]. exfalso. apply H. now exists pre, post.
  - done.
Qed.

End ReplaceFacts.

(** X7. The manifest action a launcher receives is the resolved action
    with the first [{{EXT}}] of its path replaced by the extension of
    the platform: what stands before and after the leftmost placeholder
    is kept as it is (a second placeholder too), a path without
    placeholder is passed on unchanged, and the name, the icon, the
    arguments and the scope of the action are never touched. *)
Theorem placeholder_replaced_once (w : World) (opts : StartTaskOpts)
    (game : GameRecord) (appPath launchType : string) (a : ManifestAction)
    (s : State) (launchType' : string) (gameOpts : GameOpts) :
  (prepare w opts game appPath launchType (Some a) s).1
    = Val (launchType', gameOpts) ->
  exists a',
    manifestAction gameOpts = Some a'
    /\ action_name a' = action_name a
    /\ action_icon a' = action_icon a
    /\ action_args a' = action_args a
    /\ action_scope a' = action_scope a
    /\ (forall pre post,
          leftmost "{{EXT}}" (action_path a) pre post ->
          action_path a' = pre +:+ appExt w +:+ post)
    /\ (~ occurs "{{EXT}}" (action_path a) -> action_path a' = action_path a).
Proof.
  intros Hp. apply prepare_manifestAction in Hp. simpl in Hp.
  exists (withExt w a). repeat (split; [done |]).
  apply (ReplaceFacts.replace_lit "{{EXT}}" (appExt w) (action_path a)).
  discriminate.
Qed.

Lemma placeholder_replaced_once_witness :
  let p := prepare (plainWorld "windows") sampleOpts sampleGame "/apps/cave-1"
             "native" (Some playAction) sampleState in
  exists launchType gameOpts a',
    p.1 = Val (launchType, gameOpts)
    /\ manifestAction gameOpts = Some a'
    /\ action_path a' = "Game.exe".
Proof.
  cbv zeta.
  assert (Hp : exists x,
            (prepare (plainWorld "windows") sampleOpts sampleGame "/apps/cave-1"
               "native" (Some playAction) sampleState).1 = Val x)
    by (vm_compute; eauto).
  destruct Hp as [[launchType gameOpts] Hp].
  destruct (placeholder_replaced_once _ _ _ _ _ _ _ _ _ Hp)
    as (a' & Hm & _ & _ & _ & _ & Hl & _).
  exists launchType, gameOpts, a'.
  split; [exact Hp |]. split; [exact Hm |].
  apply (Hl "Game" ""). split; [reflexivity |].
  intros pre' post' H.
  do 4 (destruct pre' as [| ? pre']; [vm_compute in H; congruence |]).
  simpl. lia.
Defined.

(** ** The action that is launched *)

Lemma pushBigButtons_run w l : forall i acc s,
  (Forall (fun a => Js.truthy (action_name a) = true) l
   /\ pushBigButtons w i l acc s = (Val (acc ++ map (bigButton w) l), s))
  \/ exists e, pushBigButtons w i l acc s = (Threw e, s).
Proof.
  induction l as [| a l IH]; intros i acc s; simpl.
  - left. now rewrite app_nil_r.
  - destruct (Js.truthy (action_name a)) eqn:Ha; simpl; [| right; eauto].
    destruct (IH (S i) (acc ++ [bigButton w a]) s) as [[F E] | [e E]].
    + left. split; [now constructor |]. now rewrite E, <- app_assoc.
    + right. eauto.
Qed.

(** A launcher called in a run that goes from [s1] through the choice
    of the action is called by [dispatch] on the chosen action. *)
Lemma choice_launcher_called w opts action game cave appPath launchType m
    s s1 launchType' gameOpts :
  extends precedesValidation s s1 ->
  ELauncher launchType' gameOpts
    ∈ newEvents s
        (function_
           (do manifestAction <- pickAction w opts action game m;
            dispatch w opts game cave appPath launchType manifestAction)
           (appendTrace [EValidateManifest m] s1)).2 ->
  exists ma s2,
    pickAction w opts action game m (appendTrace [EValidateManifest m] s1)
      = (Val ma, s2)
    /\ manifestAction gameOpts = withExt w <$> ma.
Proof.
  intros (e1 & E1 & F1) Hin. rewrite function_run in Hin. simpl in Hin.
  unfold bind in Hin.
  pose proof (pickAction_emits w opts action game m
                (appendTrace [EValidateManifest m] s1)) as (e2 & E2 & F2).
  destruct (pickAction w opts action game m _) as [[ma | | e] s2] eqn:Hp;
    simpl in *.
  - exists ma, s2. split; [done |].
    pose proof (dispatch_emits (fun _ => True) w opts game cave appPath
                  launchType ma (fun _ _ => I) s2) as (e3 & E3 & _).
    erewrite newEvents_app in Hin
      by (rewrite E3, E2, E1, <- !app_assoc; reflexivity).
    rewrite !elem_of_app in Hin. destruct Hin as [Hin | [Hin | [Hin | Hin]]].
    + rewrite Forall_forall in F1. now apply F1 in Hin.
    + apply list_elem_of_singleton in Hin. discriminate.
    + rewrite Forall_forall in F2. now apply F2 in Hin.
    + eapply prepare_manifestAction, dispatch_launcher_called.
      erewrite newEvents_app by exact E3. exact Hin.
  - exfalso.
    erewrite newEvents_app in Hin by (rewrite E2, E1, <- !app_assoc; reflexivity).
    rewrite !elem_of_app in Hin. destruct Hin as [Hin | [Hin | Hin]].
    + rewrite Forall_forall in F1. now apply F1 in Hin.
    + apply list_elem_of_singleton in Hin. discriminate.
    + rewrite Forall_forall in F2. now apply F2 in Hin.
  - exfalso.
    erewrite newEvents_app in Hin by (rewrite E2, E1, <- !app_assoc; reflexivity).
    rewrite !elem_of_app in Hin. destruct Hin as [Hin | [Hin | Hin]].
    + rewrite Forall_forall in F1. now apply F1 in Hin.
    + apply list_elem_of_singleton in Hin. discriminate.
    + rewrite Forall_forall in F2. now apply F2 in Hin.
Qed.

(** X8. Take a run that validated a manifest of several actions and
    called a launcher. If the options name an action, no chooser was
    shown and the launcher got the first action of that name; if they
    name none, every action of the manifest has a name, the chooser
    answered with a name and the launcher got the first action of that
    name. In both cases the placeholder of the path is replaced, and a
    name that no action bears gives a launch without manifest action. *)
Theorem named_action_is_launched (w : World) (opts : StartTaskOpts)
    (s : State) (m : Manifest) (launchType : string) (gameOpts : GameOpts) :
  let evs := newEvents s (doStart w opts s).2 in
  EValidateManifest m ∈ evs ->
  validateManifest w m = Ok tt ->
  (1 < length (actions m))%nat ->
  ELauncher launchType gameOpts ∈ evs ->
  if Js.truthy_opt (manifestActionName opts) then
    List.filter isChooser evs = []
    /\ manifestAction gameOpts =
       withExt w <$> findWhere_name (actions m)
                       (default "" (manifestActionName opts))
  else
    allNamed m
    /\ exists game name,
         gameLazily w (gameId (opts_cave opts)) (cave_game (opts_cave opts))
           = Ok game
         /\ promisedModal w (chooserSpec game (map (bigButton w) (actions m)))
            = Ok (ModalResponse name)
         /\ manifestAction gameOpts =
            withExt w <$> findWhere_name (actions m) name.
Proof.
  cbv zeta. intros Hv Hok Hlen Hin.
  destruct (doStart_validated w opts s m Hv Hok)
    as (game & cave & s1 & Hg & H1 & E).
  rewrite E in Hin |- *.
  destruct (choice_launcher_called _ _ _ _ _ _ _ _ _ _ _ _ H1 Hin)
    as (ma & s2 & Hp & Hma).
  set (action := actionForGame w (cave_game (opts_cave opts)) (opts_cave opts))
    in *.
  set (s0 := appendTrace [EValidateManifest m] s1) in *.
  destruct (Js.truthy_opt (manifestActionName opts)) eqn:Hn.
  - destruct (manifestActionName opts) as [name |] eqn:Hname; [| discriminate].
    simpl in Hn.
    rewrite (pickAction_explicit w opts action game m name s0 Hlen Hname Hn)
      in Hp.
    destruct (Js.truthy action); [| discriminate].
    injection Hp as <- <-. split; [| exact Hma].
    rewrite function_run. simpl. unfold bind.
    rewrite (pickAction_explicit w opts action game m name s0 Hlen Hname Hn).
    destruct (Js.truthy action) eqn:Ha; simpl.
    + destruct H1 as (e1 & E1 & F1).
      pose proof (dispatch_emits (fun e => prepares e \/ installs e \/ supervises e)
                    w opts game cave (appPath_of w cave)
                    (default "native" (cave_launchType (opts_cave opts)))
                    (findWhere_name (actions m) name) (fun _ H => H) s0)
        as (e3 & E3 & F3).
      erewrite newEvents_app
        by (rewrite E3; subst s0; simpl; rewrite E1, <- !app_assoc; reflexivity).
      rewrite !List.filter_app. simpl.
      rewrite (filter_never isChooser e1), (filter_never isChooser e3); [done | |].
      * eapply Forall_impl; [exact F3 |]. intros ev [H | [H | H]]; now destruct ev.
      * eapply Forall_impl; [exact F1 |]. now intros [].
    + destruct H1 as (e1 & E1 & F1).
      erewrite newEvents_app
        by (subst s0; simpl; rewrite E1, <- !app_assoc; reflexivity).
      rewrite !List.filter_app. simpl.
      rewrite (filter_never isChooser e1); [done |].
      eapply Forall_impl; [exact F1 |]. now intros [].
  - assert (Hall : allNamed m).
    { unfold pickAction in Hp.
      apply Nat.ltb_lt in Hlen. rewrite Hlen, Hn in Hp.
      unfold bind in Hp.
      destruct (pushBigButtons_run w (actions m) 0%nat [] s0)
        as [[F _] | [e Ep]]; [exact F |].
      rewrite Ep in Hp. discriminate. }
    split; [exact Hall |].
    rewrite (pickAction_chooser w opts action game m s0 Hlen Hn Hall) in Hp.
    cbv zeta in Hp.
    destruct (promisedModal w _) as [[name |] | e] eqn:Hmodal;
      [| discriminate ..].
    injection Hp as <- _. exists game, name. done.
Qed.

Lemma named_action_is_launched_witness :
  let w := manifestWorld twoActions (ModalResponse "editor") in
  ELauncher "native"
    {| base_opts := sampleOpts;
       manifestAction :=
         Some {| action_name := "editor"; action_path := "Editor";
                 action_icon := None; action_args := None;
                 action_scope := None |};
       env := ∅; args := [] |}
    ∈ newEvents sampleState (doStart w sampleOpts sampleState).2
  /\ allNamed twoActions.
Proof.
  cbv zeta.
  assert (Hin : ELauncher "native"
            {| base_opts := sampleOpts;
               manifestAction :=
                 Some {| action_name := "editor"; action_path := "Editor";
                         action_icon := None; action_args := None;
                         action_scope := None |};
               env := ∅; args := [] |}
            ∈ newEvents sampleState
                (doStart (manifestWorld twoActions (ModalResponse "editor"))
                   sampleOpts sampleState).2).
  { vm_compute. repeat constructor. }
  split; [exact Hin |].
  refine (proj1 (named_action_is_launched
                   (manifestWorld twoActions (ModalResponse "editor"))
                   sampleOpts sampleState twoActions _ _ _ eq_refl _ Hin)).
  - vm_compute. repeat constructor.
  - simpl. lia.
Defined.

(** * Properties of [start], the wrapper of the launch task *)

Module StartFacts.
Import Start.

Lemma filter_Ran (p : Effect -> bool) evs :
  (forall e, p (Ran e) = false) -> List.filter p (map Ran evs) = [].
Proof. intros H. induction evs as [| e evs IH]; simpl; [done |]. now rewrite H. Qed.

Lemma handler_effects c cave e (p : Effect -> bool) :
  p LoggerClosed || p (LoggerCreated (caveLogPath c (cave_id cave))) = true ->
  (forall x, p (OpenedModal x) = false) ->
  (forall g o, p (FetchedAgain g o) = false) ->
  (forall m, p (LoggedCrash m) = false) ->
  (forall x, p (LoggedStack x) = false) ->
  p DiegoHired = false ->
  List.filter p (handler c cave e).2 = [].
Proof.
  intros _ Hm Hf Hc Hs Hd. unfold handler.
  destruct (gameLazilyAgain c _ _); simpl; [| now rewrite Hf].
  destruct (diego_hire c); simpl; now rewrite Hf, Hc, Hs, Hd, ?Hm.
Qed.

(** X9. Whatever the launch does, [start] creates one logger, on the
    log file of the cave of the options, before anything else, and
    closes it once, after everything else: also when the launch throws
    and when the handler of that error throws itself. The wrapper
    leaves the store as the launch left it. *)
Theorem logger_closed_on_every_path (w : World) (c : Collaborators)
    (opts : StartTaskOpts) (s : State) :
  let '(r, s', effects) := start w c opts s in
  s' = (doStart w opts s).2
  /\ exists mid,
       effects =
         LoggerCreated (caveLogPath c (cave_id (opts_cave opts))) :: mid
         ++ [LoggerClosed]
       /\ List.filter isLoggerCreated mid = []
       /\ List.filter isLoggerClosed mid = [].
Proof.
  unfold start. destruct (doStart w opts s) as [r s']. simpl.
  destruct (match r with
            | Threw e => handler c (opts_cave opts) e
            | _ => (r, [])
            end) as [r' caught] eqn:Hc.
  split; [done |].
  exists (map Ran (newEvents s s') ++ caught). split.
  { simpl. now rewrite <- app_assoc. }
  assert (List.filter isLoggerCreated caught = []
          /\ List.filter isLoggerClosed caught = []) as [Q1 Q2].
  { destruct r as [[] | | e]; try (injection Hc as <- <-; done).
    replace caught with (handler c (opts_cave opts) e).2 by now rewrite Hc.
    split; now apply handler_effects. }
  rewrite !List.filter_app, Q1, Q2, !filter_Ran; done.
Qed.

(** What [start] makes of the outcome of the launch. *)
Lemma start_outcome w c opts s :
  let cave := opts_cave opts in
  let task := doStart w opts s in
  let '(r, _, effects) := start w c opts s in
  let shown := List.filter isModal effects in
  match task.1 with
  | Threw e =>
      match gameLazilyAgain c (gameId cave) (cave_game cave), diego_hire c with
      | Ok game, Ok _ =>
          r = Val tt /\ shown = [OpenedModal (crashModal game cave e)]
      | Ok _, Err e' => r = Threw e' /\ shown = []
      | Err e', _ => r = Threw e' /\ shown = []
      end
  | other => r = other /\ shown = []
  end.
Proof.
  cbv zeta. unfold start. destruct (doStart w opts s) as [r s']. simpl.
  assert (Hran : forall tail,
            List.filter isModal (map Ran (newEvents s s') ++ tail)
            = List.filter isModal tail).
  { intros tail. now rewrite List.filter_app, filter_Ran. }
  destruct r as [[] | | e]; simpl; rewrite ?Hran; [done | done |].
  unfold handler.
  destruct (gameLazilyAgain c _ _) as [game | e1]; simpl;
    [| now rewrite Hran].
  destruct (diego_hire c) as [[] | e2]; simpl; now rewrite Hran.
Qed.

(** X10. Take a run of [start] whose launch called a launcher that
    failed with a crash. If the crash came more than two seconds after
    the start of the launcher, the user is shown nothing and [start]
    settles normally. If it came within two seconds, and the game is
    fetched again and diego hired without error, [start] still settles
    normally, but opens one modal: it names the game fetched, quotes
    the message of the crash, and offers to report or probe the cave
    of the options, or to cancel. An error that is no crash is
    reported in the same way, however late it comes. *)
Theorem failed_launch_is_reported (w : World) (c : Collaborators)
    (opts : StartTaskOpts) (s : State) (launchType : string)
    (gameOpts : GameOpts) (acts : list Activity) (e : Error) :
  let cave := opts_cave opts in
  ELauncher launchType gameOpts ∈ newEvents s (doStart w opts s).2 ->
  launcher w launchType gameOpts = (acts, Err e) ->
  let startedAt := clock w (clockReads s) in
  let caughtAt := clock w (S (clockReads s + timerFirings acts)) in
  let t := secondsBetween startedAt caughtAt in
  let '(r, _, effects) := start w c opts s in
  let shown := List.filter isModal effects in
  (isCrash e = true -> (inject_Z 2 < t)%Q -> r = Val tt /\ shown = [])
  /\ (isCrash e = false \/ (t <= inject_Z 2)%Q ->
      forall game,
        gameLazilyAgain c (gameId cave) (cave_game cave) = Ok game ->
        diego_hire c = Ok tt ->
        r = Val tt /\ shown = [OpenedModal (crashModal game cave e)]).
Proof.
  cbv zeta. intros Hin Hl.
  destruct (doStart_launcher_called w opts s launchType gameOpts Hin)
    as (game0 & cave0 & ma & s1 & s2 & s3 & _ & _ & _ & C3 & E).
  pose proof (supervise_grace_window w launchType gameOpts cave0 s3 acts e Hl)
    as Hg.
  cbv zeta in Hg. rewrite C3, <- E in Hg. destruct Hg as (Hlate & Hearly & Hother).
  pose proof (start_outcome w c opts s) as Ho. cbv zeta in Ho.
  destruct (start w c opts s) as [[r s'] effects].
  split.
  - intros Hc Ht. rewrite (Hlate Hc Ht) in Ho. exact Ho.
  - intros Hcase game Hgame Hd.
    assert ((doStart w opts s).1 = Threw e) as Hthrew.
    { destruct (isCrash e) eqn:Hc.
      - destruct Hcase as [? | Ht]; [done | now apply Hearly].
      - now apply Hother. }
    rewrite Hthrew, Hgame, Hd in Ho. exact Ho.
Qed.

Lemma failed_launch_is_reported_witness :
  let w := runningWorld [] (Err sampleCrash) [0; 1500] in
  let '(r, _, effects) := start w sampleCollaborators sampleOpts sampleState in
  r = Val tt
  /\ List.filter isModal effects
     = [OpenedModal (crashModal sampleGame sampleCave sampleCrash)].
Proof.
  cbv zeta.
  pose proof (failed_launch_is_reported
                (runningWorld [] (Err sampleCrash) [0; 1500])
                sampleCollaborators sampleOpts sampleState
                "native" (plainGameOpts sampleOpts) [] sampleCrash) as H.
  cbv zeta in H.
  destruct (start (runningWorld [] (Err sampleCrash) [0; 1500])
              sampleCollaborators sampleOpts sampleState) as [[r s'] effects].
  destruct H as [_ H].
  - vm_compute. repeat constructor.
  - reflexivity.
  - assert (Ht : (secondsBetween 0 1500 <= inject_Z 2)%Q) by discriminate.
    apply (H (or_intror Ht) sampleGame); reflexivity.
Defined.

End StartFacts.

(** * Properties of [startDownload] *)

Module DownloadFacts.
Import Download.

Lemma newEffects_app s s' evs :
  effects s' = effects s ++ evs -> newEffects s s' = evs.
Proof. intros E. unfold newEffects. now rewrite E, drop_app_length. Qed.

Lemma started_app evs evs' : started (evs ++ evs') = started evs ++ started evs'.
Proof. unfold started. apply omap_app. Qed.

(** One call: the seed moves on by one, and the call either declines
    or starts one download, whose action holds a copy of the options
    with the order of the call, the next identifier and the options
    object itself. *)
Lemma startDownload_run v4 store ref s :
  let s' := startDownload v4 store ref s in
  let opts := with_order (orderSeed s) (heap s ref) in
  orderSeed s' = orderSeed s + 1
  /\ heap s' = write ref opts (heap s)
  /\ exists evs,
       effects s' = effects s ++ evs
       /\ (started evs = [] /\ uuidReads s' = uuidReads s
           \/ started evs = [{| copied := opts;
                                payload_id := v4 (uuidReads s);
                                payload_downloadOpts := ref |}]
              /\ uuidReads s' = S (uuidReads s)).
Proof.
  cbv zeta. unfold startDownload.
  destruct (match store !! _ with Some _ => _ | None => _ end); simpl;
    (split; [done |]; split; [done |]; eexists; split; [reflexivity |]);
    [left | right]; done.
Qed.

Lemma calls_cons v4 c l s :
  calls v4 (c :: l) s = calls v4 l (startDownload v4 c.1 c.2 s).
Proof. reflexivity. Qed.

Lemma calls_run v4 l : forall s,
  let s' := calls v4 l s in
  orderSeed s' = orderSeed s + Z.of_nat (length l)
  /\ exists evs os,
       effects s' = effects s ++ evs
       /\ orders evs = map Some os
       /\ StronglySorted Z.lt os
       /\ Forall (fun o => orderSeed s <= o < orderSeed s') os
       /\ ids evs = map v4 (seq (uuidReads s) (length os))
       /\ uuidReads s' = (uuidReads s + length os)%nat.
Proof.
  induction l as [| c l IH]; intros s; cbv zeta.
  - simpl. split; [lia |]. exists [], []. rewrite app_nil_r.
    repeat split; try done; try constructor; simpl; lia.
  - rewrite calls_cons.
    destruct (startDownload_run v4 c.1 c.2 s) as (Hseed & _ & evs1 & E1 & H1).
    set (s1 := startDownload v4 c.1 c.2 s) in *.
    destruct (IH s1) as (Hseed' & evs2 & os & E2 & Ho & Hs & Hb & Hi & Hu).
    split; [rewrite Hseed', Hseed; simpl length; lia |].
    exists (evs1 ++ evs2).
    destruct H1 as [[Hst Hr] | [Hst Hr]].
    + exists os. unfold orders, ids in *. rewrite started_app, Hst. simpl.
      rewrite E2, E1, <- app_assoc. repeat split; try done.
      * eapply Forall_impl; [exact Hb |]. simpl. intros o. lia.
      * now rewrite <- Hr.
      * now rewrite <- Hr.
    + exists (orderSeed s :: os). unfold orders, ids in *.
      rewrite started_app, Hst. simpl.
      rewrite E2, E1, <- app_assoc. repeat split; try done.
      * now rewrite Ho.
      * constructor; [done |]. eapply Forall_impl; [exact Hb |].
        simpl. intros o. lia.
      * constructor; [lia |]. eapply Forall_impl; [exact Hb |].
        simpl. intros o. lia.
      * rewrite Hi, Hr. reflexivity.
      * rewrite Hu, Hr. lia.
Qed.

(** X11. Over any sequence of calls of [startDownload], with any
    options and any state of the store at each call, every call takes
    the next order number, also a call that declines; so the downloads
    that are started carry strictly increasing orders, all between the
    seed before the calls and the seed after them, and they carry the
    identifiers that [uuid.v4] gave, in turn, none being drawn for a
    call that declines. *)
Theorem orders_strictly_increase (v4 : nat -> string)
    (l : list (gmap Z DownloadItem * Ref)) (s : State) :
  let s' := calls v4 l s in
  let evs := newEffects s s' in
  orderSeed s' = orderSeed s + Z.of_nat (length l)
  /\ exists os,
       orders evs = map Some os
       /\ StronglySorted Z.lt os
       /\ Forall (fun o => orderSeed s <= o < orderSeed s') os
       /\ ids evs = map v4 (seq (uuidReads s) (length os)).
Proof.
  cbv zeta.
  destruct (calls_run v4 l s) as (Hseed & evs & os & E & Ho & Hs & Hb & Hi & _).
  split; [exact Hseed |]. exists os.
  rewrite (newEffects_app _ _ _ E). done.
Qed.

(** X12. The action of a started download holds the options twice: as
    a copy of the fields and as the options object itself. A retry is
    given that object: it writes the new order into it and starts a
    download with the same options and a new identifier. After the
    retry the object held by the first action carries the order of the
    retry, while the copy in that action keeps the order of the first
    call: the two no longer agree. *)
Theorem retry_shares_options (v4 : nat -> string)
    (store1 store2 : gmap Z DownloadItem) (ref : Ref) (s : State)
    (p : StartedPayload) :
  let s1 := queueDownload v4 store1 ref s in
  started (newEffects s s1) = [p] ->
  let s2 := retryDownload v4 store2 (payload_downloadOpts p) s1 in
  payload_downloadOpts p = ref
  /\ copied p = heap s1 ref
  /\ dl_order (copied p) = Some (orderSeed s)
  /\ heap s2 ref = with_order (orderSeed s + 1) (copied p)
  /\ heap s2 (payload_downloadOpts p) <> copied p
  /\ forall p2,
       started (newEffects s1 s2) = [p2] ->
       payload_downloadOpts p2 = ref
       /\ copied p2 = with_order (orderSeed s + 1) (copied p)
       /\ payload_id p2 = v4 (S (uuidReads s)).
Proof.
  cbv zeta. unfold queueDownload, retryDownload. intros Hp.
  destruct (startDownload_run v4 store1 ref s)
    as (Hseed & Hheap & evs1 & E1 & H1).
  rewrite (newEffects_app _ _ _ E1) in Hp.
  destruct H1 as [[Hst _] | [Hst Hu]]; [congruence |].
  rewrite Hst in Hp. injection Hp as <-. simpl.
  set (s1 := startDownload v4 store1 ref s) in *.
  destruct (startDownload_run v4 store2 ref s1)
    as (_ & Hheap2 & evs2 & E2 & H2).
  assert (Hw : forall o h, write ref o h ref = o).
  { intros o h. unfold write. now rewrite Nat.eqb_refl. }
  rewrite Hheap2, Hheap, !Hw, Hseed.
  repeat split; try done.
  - intros Heq. apply (f_equal dl_order) in Heq. simpl in Heq.
    injection Heq. lia.
  - rewrite (newEffects_app _ _ _ E2) in H.
    destruct H2 as [[Hst2 _] | [Hst2 _]]; rewrite Hst2 in H; [done |].
    now injection H as <-.
  - rewrite (newEffects_app _ _ _ E2) in H.
    destruct H2 as [[Hst2 _] | [Hst2 _]]; rewrite Hst2 in H; [done |].
    injection H as <-. simpl. now rewrite Hheap, Hw, Hseed.
  - rewrite (newEffects_app _ _ _ E2) in H.
    destruct H2 as [[Hst2 _] | [Hst2 _]]; rewrite Hst2 in H; [done |].
    injection H as <-. simpl. now rewrite Hu.
Qed.

Lemma retry_shares_options_witness :
  let s1 := queueDownload sampleIds ∅ 0%nat freshState in
  let s2 := retryDownload sampleIds ∅ 0%nat s1 in
  dl_order (heap s1 0%nat) = Some 0
  /\ dl_order (heap s2 0%nat) = Some 1.
Proof.
  cbv zeta. split; [reflexivity |].
  assert (Hp : started (newEffects freshState
                          (queueDownload sampleIds ∅ 0%nat freshState))
               = [{| copied := with_order 0 sampleDownload;
                     payload_id := sampleIds 0;
                     payload_downloadOpts := 0%nat |}])
    by (vm_compute; reflexivity).
  destruct (retry_shares_options sampleIds ∅ ∅ 0%nat freshState _ Hp)
    as (_ & _ & _ & H & _).
  simpl in H. now rewrite H.
Defined.

End DownloadFacts.

(** * Properties of the reinstall reactor *)

Module ReinstallFacts.
Import Download Reinstall.

Lemma newLog_app s s' evs : log s' = log s ++ evs -> newLog s s' = evs.
Proof. intros E. unfold newLog. now rewrite E, drop_app_length. Qed.

Lemma installs_app evs evs' : installs (evs ++ evs') = installs evs ++ installs evs'.
Proof. unfold installs. apply omap_app. Qed.

Lemma installs_Downloading evs : installs (map Downloading evs) = [].
Proof. induction evs; simpl; auto. Qed.

Lemma startDownload_run_heap v4 store ref s :
  orderSeed (startDownload v4 store ref s) = orderSeed s + 1
  /\ heap (startDownload v4 store ref s)
     = write ref (with_order (orderSeed s) (heap s ref)) (heap s).
Proof.
  unfold startDownload.
  now destruct (match store !! _ with Some _ => _ | None => _ end).
Qed.

(** The reactor stops at one of its guards without starting a download
    or an install, or it goes all the way. *)
Lemma queueCaveReinstall_run w caveId s :
  let final := queueCaveReinstall w caveId s in
  (exists evs,
     log final.2 = log s ++ evs /\ installs evs = []
     /\ downloads final.2 = downloads s
     /\ Forall (fun e => match e with Downloading _ => False | _ => True end) evs)
  \/ exists cave game upload rest,
       getEntity w caveId = Some cave
       /\ gameLazily w (credentials w) (gameId cave) = Ok (Some game)
       /\ truthy_id (uploadId cave) = true
       /\ is_Some (uploads cave)
       /\ findUpload w game = Ok (upload :: rest)
       /\ let d := downloads s in
          let allocated :=
            {| orderSeed := orderSeed d;
               heap := write (next s) (reinstallOpts w cave game upload) (heap d);
               uuidReads := uuidReads d; effects := effects d |} in
          let d' := startDownload (v4 w) (downloadsByGameId w) (next s)
                      allocated in
          downloads final.2 = d'
          /\ log final.2 =
             log s ++ [FetchedGame (credentials w) (gameId cave);
                       StartedFindUpload (game_id game) game]
             ++ map Downloading (newEffects d d')
             ++ [StartedInstall (installOpts w cave game upload)]
          /\ final.1 = match install w with Err e => Threw e | Ok _ => Val tt end.
Proof.
  cbv zeta. unfold queueCaveReinstall.
  destruct (getEntity w caveId) as [cave |] eqn:Hc.
  2:{ left. exists []. rewrite app_nil_r. simpl. auto. }
  destruct (gameLazily w (credentials w) (gameId cave)) as [[game |] | e] eqn:Hg.
  2,3: left; eexists; simpl; (split; [reflexivity |]);
       repeat split; repeat constructor.
  destruct (truthy_id (uploadId cave)) eqn:Hu; simpl.
  2:{ left; eexists; simpl; (split; [reflexivity |]);
      repeat split; repeat constructor. }
  destruct (bool_decide (is_Some (uploads cave))) eqn:Hups; simpl.
  2:{ left; eexists; simpl; (split; [reflexivity |]);
      repeat split; repeat constructor. }
  apply bool_decide_eq_true in Hups.
  destruct (findUpload w game) as [[| upload rest] | e] eqn:Hf.
  1,3: left; eexists; simpl; (split; [rewrite <- app_assoc; reflexivity |]);
       repeat split; repeat constructor.
  right. exists cave, game, upload, rest.
  repeat (split; [done |]).
  fold (reinstallOpts w cave game upload).
  fold (installOpts w cave game upload).
  destruct (install w); simpl; rewrite <- !app_assoc; simpl; auto.
Qed.

(** A started install task tells that the reactor went all the way. *)
Lemma install_started (w : World) (caveId : string)
    (s : State) (opts : InstallOpts) :
  let final := queueCaveReinstall w caveId s in
  StartedInstall opts ∈ newLog s final.2 ->
  exists cave game upload rest,
    getEntity w caveId = Some cave
    /\ gameLazily w (credentials w) (gameId cave) = Ok (Some game)
    /\ truthy_id (uploadId cave) = true
    /\ is_Some (uploads cave)
    /\ findUpload w game = Ok (upload :: rest)
    /\ opts = installOpts w cave game upload
    /\ let d := downloads s in
       let allocated :=
         {| orderSeed := orderSeed d;
            heap := write (next s) (reinstallOpts w cave game upload) (heap d);
            uuidReads := uuidReads d; effects := effects d |} in
       let d' := startDownload (v4 w) (downloadsByGameId w) (next s)
                   allocated in
       downloads final.2 = d'
       /\ newLog s final.2 =
          [FetchedGame (credentials w) (gameId cave);
           StartedFindUpload (game_id game) game]
          ++ map Downloading (newEffects d d')
          ++ [StartedInstall opts].
Proof.
  cbv zeta. intros Hin.
  destruct (queueCaveReinstall_run w caveId s)
    as [(evs & E & Hi & _) | (cave & game & upload & rest & Hc & Hg & Hu & Hups
                               & Hf & Hd & E & _)].
  { rewrite (newLog_app _ _ _ E) in Hin. exfalso.
    assert (Hno : forall l, installs l = [] -> StartedInstall opts ∉ l).
    { induction l as [| e l IH]; [intros _ H; inversion H |].
      intros Hl H. apply elem_of_cons in H as [<- | H]; [discriminate |].
      destruct e; simpl in Hl; try discriminate; now apply IH. }
    exact (Hno _ Hi Hin). }
  cbv zeta in Hd, E.
  rewrite (newLog_app _ _ _ E) in Hin |- *.
  exists cave, game, upload, rest. repeat (split; [done |]).
  assert (Hopts : opts = installOpts w cave game upload).
  { rewrite !elem_of_app in Hin. destruct Hin as [Hin | [Hin | Hin]].
    - repeat (apply elem_of_cons in Hin as [Hin | Hin]; [discriminate |]).
      now apply elem_of_nil in Hin.
    - apply list_elem_of_fmap in Hin as (x & Hx & _). discriminate.
    - apply list_elem_of_singleton in Hin. now injection Hin. }
  split; [exact Hopts |]. split; [exact Hd |]. now rewrite Hopts.
Qed.

(** X13. When the reinstall of a cave starts an install task, it
    starts exactly one, on the first upload that [find-upload] reported
    for the game (whatever upload the cave was installed from), with
    [reinstall] set, and from the archive path of that upload; the cave
    has an upload id and uploads, and the game was found. Before that,
    [startDownload] was called on a new options object for the same
    upload and the same path, with the reason reinstall, the size of
    the upload and the download key of the cave or else the first key
    of the market for the game; the call took one order number. *)
Theorem reinstall_installs_what_it_downloads (w : World) (caveId : string)
    (s : State) (opts : InstallOpts) :
  let final := queueCaveReinstall w caveId s in
  let evs := newLog s final.2 in
  StartedInstall opts ∈ evs ->
  exists cave game upload rest,
    getEntity w caveId = Some cave
    /\ gameLazily w (credentials w) (gameId cave) = Ok (Some game)
    /\ truthy_id (uploadId cave) = true
    /\ is_Some (uploads cave)
    /\ findUpload w game = Ok (upload :: rest)
    /\ installs evs = [opts]
    /\ opts = {| reinstall := true; install_upload := upload;
                 install_gameId := game_id game; install_game := game;
                 install_cave := cave; archivePath := downloadPath w upload |}
    /\ heap (downloads final.2) (next s) =
       {| dl_game := game; dl_gameId := game_id game; dl_upload := upload;
          dl_totalSize := up_size upload; dl_destPath := archivePath opts;
          dl_downloadKey :=
            match downloadKey cave with
            | Some key => Some key
            | None => List.find (fun k => key_gameId k =? game_id game)
                        (downloadKeys w)
            end;
          dl_reason := "reinstall";
          dl_order := Some (orderSeed (downloads s)) |}
    /\ orderSeed (downloads final.2) = orderSeed (downloads s) + 1.
Proof.
  cbv zeta. intros Hin.
  destruct (install_started w caveId s opts Hin)
    as (cave & game & upload & rest & Hc & Hg & Hu & Hups & Hf & Hopts
        & Hd & E).
  exists cave, game, upload, rest. repeat (split; [done |]).
  split.
  { rewrite E, !installs_app, installs_Downloading. reflexivity. }
  split; [exact Hopts |].
  rewrite Hd.
  match goal with
  | |- context [startDownload ?v ?t ?r ?st] =>
      destruct (startDownload_run_heap v t r st) as (Hseed & Hheap)
  end.
  rewrite Hheap, Hseed. simpl. split; [| done].
  unfold write. rewrite Nat.eqb_refl. now rewrite Hopts.
Qed.

Lemma reinstall_installs_what_it_downloads_witness :
  let final := queueCaveReinstall busyWorld "cave-1" idle in
  final.1 = Val tt
  /\ installs (newLog idle final.2)
     = [installOpts busyWorld installedCave sampleGame newerUpload]
  /\ orderSeed (downloads final.2) = 1.
Proof.
  cbv zeta. split; [reflexivity |].
  destruct (reinstall_installs_what_it_downloads busyWorld "cave-1" idle
              (installOpts busyWorld installedCave sampleGame newerUpload))
    as (cave & game & upload & rest & _ & _ & _ & _ & _ & Hi & _ & _ & Hs).
  - vm_compute. repeat constructor.
  - split; [exact Hi | exact Hs].
Defined.

Lemma startDownload_declined v4 store ref s d item :
  store !! game_id (dl_game (heap s ref)) = Some item ->
  finished item = false ->
  effects s = effects d ->
  newEffects d (startDownload v4 store ref s)
  = [LogNotStartingAnother (title (dl_game (heap s ref)));
     Dispatched (navigate "downloads")]
  /\ uuidReads (startDownload v4 store ref s) = uuidReads s.
Proof.
  intros Hitem Hfin E. unfold startDownload. simpl. rewrite Hitem, Hfin. simpl.
  split; [| done]. unfold newEffects. simpl. now rewrite E, drop_app_length.
Qed.

(** X14. The install task of a reinstall does not wait for a download
    to be started: when the store already holds an unfinished download
    of the game, [startDownload] declines (it only navigates to the
    downloads tab and starts nothing), and the reactor starts the
    install task on the archive path all the same. *)
Theorem install_follows_declined_download (w : World) (caveId : string)
    (s : State) (opts : InstallOpts) (item : DownloadItem) :
  let final := queueCaveReinstall w caveId s in
  let evs := newLog s final.2 in
  StartedInstall opts ∈ evs ->
  downloadsByGameId w !! game_id (install_game opts) = Some item ->
  finished item = false ->
  downloadsStarted evs = []
  /\ Downloading (Dispatched (navigate "downloads")) ∈ evs
  /\ installs evs = [opts]
  /\ uuidReads (downloads final.2) = uuidReads (downloads s).
Proof.
  cbv zeta. intros Hin Hitem Hfin.
  destruct (install_started w caveId s opts Hin)
    as (cave & game & upload & rest & Hc & Hg & Hu & Hups & Hf & Hopts
        & Hd & E).
  rewrite E, Hd. clear E Hd.
  assert (Hgame : install_game opts = game) by now rewrite Hopts.
  rewrite Hgame in Hitem.
  match goal with
  | |- context [startDownload ?v ?st ?r ?a] =>
      destruct (startDownload_declined v st r a (downloads s) item)
        as [-> ->]
  end.
  - simpl. unfold write. rewrite Nat.eqb_refl. exact Hitem.
  - exact Hfin.
  - reflexivity.
  - simpl. split; [reflexivity |]. split; [| split; [reflexivity | done]].
    do 3 (apply elem_of_cons; right). apply elem_of_cons. now left.
Qed.

Lemma install_follows_declined_download_witness :
  let final := queueCaveReinstall busyWorld "cave-1" idle in
  downloadsStarted (newLog idle final.2) = []
  /\ installs (newLog idle final.2)
     = [installOpts busyWorld installedCave sampleGame newerUpload].
Proof.
  cbv zeta.
  destruct (install_follows_declined_download busyWorld "cave-1" idle
              (installOpts busyWorld installedCave sampleGame newerUpload)
              {| finished := false |})
    as (Hd & _ & Hi & _).
  - vm_compute. repeat constructor.
  - vm_compute. reflexivity.
  - reflexivity.
  - split; [exact Hd | exact Hi].
Defined.

End ReinstallFacts.

(** * Properties of the main window *)

Module MainWindowFacts.
Import MainWindow.

Lemma newEffects_appended s s' evs :
  effects s' = effects s ++ evs -> newEffects s s' = evs.
Proof. intros E. unfold newEffects. now rewrite E, drop_app_length. Qed.

Lemma steps_cons env ev l s :
  steps ((env, ev) :: l) s = steps l (step env ev s).1.
Proof. reflexivity. Qed.

Ltac appended :=
  first
    [ exists []; split; [now rewrite app_nil_r |]
    | eexists; split; [simpl; rewrite <- ?app_assoc; reflexivity |] ].

Ltac cases :=
  repeat
    (match goal with
     | |- context [if ?b then _ else _] => destruct b eqn:?
     | |- context [match ?x with _ => _ end] => destruct x eqn:?
     end; cbn [negb fst]).

(** What one event does to the module variables and to the outside. *)
Lemma step_run env ev s :
  let s1 := (step env ev s).1 in
  exists evs,
    effects s1 = effects s ++ evs
    /\ (quitting s = true ->
        quitting s1 = true /\ List.filter holdsBack evs = [])
    /\ (length (List.filter isFirstWindowReady evs)
        + (if firstWindow s1 then 1 else 0)
        <= (if firstWindow s then 1 else 0))%nat
    /\ (length (List.filter isNewWindow evs)
        + (if createLock s1 then 0 else 1)
        <= (if isReadyToShow ev then 1 else 0)
           + (if createLock s then 0 else 1))%nat.
Proof.
  cbv zeta.
  destruct ev as [id|id|id|id|id|id|id|id|id|id|id|[|id]|id|b|payload| | | | | | | | ];
    unfold step, onWindow, onClose, onFocus, onReadyToShow, onDestroyTimeout,
      createWindow, showWindow, does, setQuitting;
    cbn [fst quitting effects createLock firstWindow windows timers];
    cases; try (exfalso; simpl in *; congruence);
    appended; cbn [quitting createLock firstWindow];
    (split; [intros Hq; first [discriminate Hq | congruence | split; [first [done | congruence] | reflexivity]] |]);
    split; simpl; rewrite ?List.filter_app; simpl; lia.
Qed.

Lemma steps_run l : forall s,
  exists evs,
    effects (steps l s) = effects s ++ evs
    /\ (quitting s = true ->
        quitting (steps l s) = true /\ List.filter holdsBack evs = [])
    /\ (length (List.filter isFirstWindowReady evs)
        + (if firstWindow (steps l s) then 1 else 0)
        <= (if firstWindow s then 1 else 0))%nat
    /\ (length (List.filter isNewWindow evs)
        + (if createLock (steps l s) then 0 else 1)
        <= length (List.filter (fun e => isReadyToShow e.2) l)
           + (if createLock s then 0 else 1))%nat.
Proof.
  induction l as [| [env ev] l IH]; intros s.
  - exists []. rewrite app_nil_r. simpl. repeat split; try done; lia.
  - rewrite steps_cons.
    destruct (step_run env ev s) as (evs1 & E1 & Q1 & F1 & C1).
    destruct (IH (step env ev s).1) as (evs2 & E2 & Q2 & F2 & C2).
    exists (evs1 ++ evs2). rewrite E2, E1, <- app_assoc.
    split; [done |]. rewrite !List.filter_app, !length_app.
    split; [| split].
    + intros Hq. destruct (Q1 Hq) as [Hq1 ->]. destruct (Q2 Hq1) as [Hq2 ->].
      done.
    + lia.
    + cbn [List.filter snd]. destruct (isReadyToShow ev); simpl in *; lia.
Qed.

(** X15. The three actions that announce the end ([prepareQuit],
    [quit], [quitAndInstall]) set [quitting], and nothing ever resets
    it: whatever events follow, no handler of the module prevents a
    close, and neither the quit timeout nor a destroy timeout is set
    again (the module makes no call of [setTimeout]); the handler of
    [close] of any window does nothing but log. Moves and resizes
    still reach the debounced bounds function, which is outside this
    statement. *)
Theorem quitting_is_final (env : Env) (ev : Event) (l : list (Env * Event))
    (s : State) :
  ev ∈ [action_prepareQuit; action_quit; action_quitAndInstall] ->
  let s1 := (step env ev s).1 in
  let s2 := steps l s1 in
  quitting s2 = true
  /\ List.filter holdsBack (newEffects s1 s2) = []
  /\ forall env' id,
       List.filter (fun e => negb (isLog e))
         (newEffects s2 (step env' (window_close id) s2).1) = [].
Proof.
  intros Hev. cbv zeta.
  assert (Hq : quitting (step env ev s).1 = true).
  { repeat (apply elem_of_cons in Hev as [-> | Hev]; [reflexivity |]).
    now apply elem_of_nil in Hev. }
  destruct (steps_run l (step env ev s).1) as (evs & E & Q & _).
  destruct (Q Hq) as [Hq2 Hh].
  rewrite (newEffects_appended _ _ _ E). repeat split; try done.
  intros env' id. clear E Q.
  generalize dependent (steps l (step env ev s).1). intros s2 Hq2.
  unfold step, onWindow; cbn [fst].
  destruct (windows _ !! id) as [c |].
  - unfold onClose, does; cbn [quitting]. rewrite Hq2.
    erewrite newEffects_appended by (simpl; rewrite <- app_assoc; reflexivity).
    reflexivity.
  - unfold newEffects. now rewrite drop_all.
Qed.

Lemma quitting_is_final_witness :
  let s1 := (step sampleEnv (action_focusWindow (Some {| toggle := false;
                                                         hidden := false |}))
               initial).1 in
  let s2 := (step sampleEnv action_quit s1).1 in
  quitting s2 = true
  /\ List.filter holdsBack
       (newEffects s2 (steps [(sampleEnv, window_close 1)] s2)) = [].
Proof.
  cbv zeta.
  destruct (quitting_is_final sampleEnv action_quit [(sampleEnv, window_close 1)]
              (step sampleEnv (action_focusWindow (Some {| toggle := false;
                                                           hidden := false |}))
                 initial).1) as (_ & H & _).
  - apply elem_of_cons. right. apply elem_of_cons. now left.
  - split; [reflexivity | exact H].
Defined.

(** X16. Over any sequence of events, [firstWindowReady] is dispatched
    at most once, and never again once [firstWindow] is unset. *)
Theorem first_window_ready_once (l : list (Env * Event)) (s : State) :
  (length (List.filter isFirstWindowReady (newEffects s (steps l s)))
   <= if firstWindow s then 1 else 0)%nat.
Proof.
  destruct (steps_run l s) as (evs & E & _ & F & _).
  rewrite (newEffects_appended _ _ _ E). lia.
Qed.

(** X17. While a window is being created, [focusWindow] creates no
    other: over any sequence of events, the windows created exceed the
    [ready-to-show] events by at most one, and by none if a creation
    was under way at the start. *)
Theorem one_window_at_a_time (l : list (Env * Event)) (s : State) :
  (length (List.filter isNewWindow (newEffects s (steps l s)))
   <= length (List.filter (fun e => isReadyToShow e.2) l)
      + if createLock s then 0 else 1)%nat.
Proof.
  destruct (steps_run l s) as (evs & E & _ & _ & C).
  rewrite (newEffects_appended _ _ _ E). lia.
Qed.

(** A close of a visible window, close to tray being in force: the
    window is hidden and a destroy timeout is set. *)
Lemma close_to_tray env id c s :
  windows s !! id = Some c ->
  quitting s = false ->
  closeToTray (effectivePreferences env) = true ->
  isVisible env id = true ->
  (step env (window_close id) s).1 =
    {| createLock := createLock s; quitting := quitting s;
       firstWindow := firstWindow s;
       windows := <[id := {| closure_hidden := closure_hidden c;
                             destroyTimeout := Some (timers s) |}]> (windows s);
       timers := S (timers s);
       effects :=
         effects s
         ++ [Log "Main window being closed"; Log "Close to tray enabled"]
         ++ seeYouSoon env
         ++ [PreventDefault id; Log "Hiding main window for a while..";
             Hide id; SetTimeout (timers s) (DestroyWindow id) (10 * 1000)] |}.
Proof.
  intros Hc Hq Ht Hv. unfold step, onWindow. rewrite Hc. cbn [fst].
  unfold onClose, does. cbn [quitting effects createLock firstWindow windows timers].
  rewrite Hq. unfold effectivePreferences in Ht. rewrite Ht, Hv. cbn [negb].
  unfold seeYouSoon, effectivePreferences. f_equal.
  now rewrite <- !app_assoc.
Qed.

Lemma focus_run env id c s :
  windows s !! id = Some c ->
  let s1 := (step env (window_focus id) s).1 in
  List.filter isClearTimeout (newEffects s s1)
  = match destroyTimeout c with
    | Some handle => [ClearTimeout handle]
    | None => []
    end
  /\ windows s1 !! id = Some {| closure_hidden := closure_hidden c;
                                destroyTimeout := None |}
  /\ timers s1 = timers s.
Proof.
  intros Hc. cbv zeta. unfold step, onWindow. rewrite Hc. cbn [fst].
  unfold onFocus, does. destruct (destroyTimeout c) as [handle |] eqn:Hd;
    cbn [effects windows timers].
  - erewrite newEffects_appended by reflexivity. rewrite lookup_insert_eq. done.
  - erewrite newEffects_appended by reflexivity. split; [done |]. split; [| done].
    rewrite Hc. f_equal. destruct c; simpl in *. now rewrite Hd.
Qed.

Lemma filter_clear_seeYouSoon env : List.filter isClearTimeout (seeYouSoon env) = [].
Proof. unfold seeYouSoon. now destruct (negb _). Qed.

(** X18. When a close hides a visible window (the module is not
    quitting and close to tray is in force, as it is without
    preferences), the close is prevented and a destroy timeout of ten
    seconds is set. The next focus of the window clears that timeout,
    once: a second focus clears nothing. A second close before any
    focus sets another timeout and forgets the first: the focus that
    follows clears the second only. *)
Theorem focus_clears_destroy_timeout (env env2 env3 : Env) (id : Z)
    (c : Closure) (s : State) :
  windows s !! id = Some c ->
  quitting s = false ->
  closeToTray (effectivePreferences env) = true ->
  isVisible env id = true ->
  let handle := timers s in
  let s1 := (step env (window_close id) s).1 in
  (PreventDefault id ∈ newEffects s s1
   /\ Hide id ∈ newEffects s s1
   /\ SetTimeout handle (DestroyWindow id) 10000 ∈ newEffects s s1)
  /\ (let s2 := (step env3 (window_focus id) s1).1 in
      let s3 := (step env3 (window_focus id) s2).1 in
      List.filter isClearTimeout (newEffects s1 s2) = [ClearTimeout handle]
      /\ List.filter isClearTimeout (newEffects s2 s3) = [])
  /\ (closeToTray (effectivePreferences env2) = true ->
      isVisible env2 id = true ->
      let s2 := (step env2 (window_close id) s1).1 in
      let s3 := (step env3 (window_focus id) s2).1 in
      SetTimeout (S handle) (DestroyWindow id) 10000 ∈ newEffects s1 s2
      /\ List.filter isClearTimeout (newEffects s1 s3)
         = [ClearTimeout (S handle)]).
Proof.
  intros Hc Hq Ht Hv. cbv zeta.
  rewrite (close_to_tray env id c s Hc Hq Ht Hv).
  set (s1 := {| createLock := createLock s |}).
  assert (Hc1 : windows s1 !! id
                = Some {| closure_hidden := closure_hidden c;
                          destroyTimeout := Some (timers s) |})
    by apply lookup_insert_eq.
  split; [| split].
  - erewrite newEffects_appended by reflexivity.
    rewrite !elem_of_app, !elem_of_cons. repeat split; right; right; tauto.
  - cbv zeta.
    destruct (focus_run env3 id _ s1 Hc1) as (Hf & Hc2 & _).
    split; [exact Hf |].
    destruct (focus_run env3 id _ _ Hc2) as (Hf2 & _). exact Hf2.
  - intros Ht2 Hv2. cbv zeta.
    rewrite (close_to_tray env2 id _ s1 Hc1 Hq Ht2 Hv2).
    set (s2 := {| createLock := createLock s1 |}).
    assert (Hc2 : windows s2 !! id
                  = Some {| closure_hidden := closure_hidden c;
                            destroyTimeout := Some (S (timers s)) |})
      by apply lookup_insert_eq.
    split.
    + erewrite newEffects_appended by reflexivity.
      rewrite !elem_of_app, !elem_of_cons. right; right; tauto.
    + destruct (focus_run env3 id _ s2 Hc2) as (Hf & _).
      cbv zeta in Hf.
      assert (E2 : effects s2 = effects s1 ++ newEffects s1 s2).
      { erewrite newEffects_appended by reflexivity. reflexivity. }
      assert (E3 : exists evs, effects (step env3 (window_focus id) s2).1
                               = effects s2 ++ evs) .
      { destruct (step_run env3 (window_focus id) s2) as (evs & E & _).
        now exists evs. }
      destruct E3 as (evs & E3).
      rewrite (newEffects_appended _ _ _ E3) in Hf.
      erewrite (newEffects_appended s1) by (rewrite E3, E2, <- app_assoc; reflexivity).
      rewrite List.filter_app, Hf.
      erewrite newEffects_appended by reflexivity.
      rewrite !List.filter_app, filter_clear_seeYouSoon. reflexivity.
Qed.

Lemma focus_clears_destroy_timeout_witness :
  let s := (step sampleEnv (action_focusWindow (Some {| toggle := false;
                                                        hidden := false |}))
              initial).1 in
  let s1 := (step sampleEnv (window_close 1) s).1 in
  let s2 := (step sampleEnv (window_focus 1) s1).1 in
  PreventDefault 1 ∈ newEffects s s1
  /\ List.filter isClearTimeout (newEffects s1 s2) = [ClearTimeout 0%nat].
Proof.
  cbv zeta.
  destruct (focus_clears_destroy_timeout sampleEnv sampleEnv sampleEnv 1
              {| closure_hidden := false; destroyTimeout := None |}
              (step sampleEnv (action_focusWindow (Some {| toggle := false;
                                                           hidden := false |}))
                 initial).1)
    as ((Hp & _) & (Hf & _) & _).
  - vm_compute. reflexivity.
  - reflexivity.
  - reflexivity.
  - reflexivity.
  - split; [exact Hp | exact Hf].
Defined.

(** Only [focusWindow] runs [createWindow]. *)
Lemma step_creates env ev s :
  exists evs,
    effects (step env ev s).1 = effects s ++ evs
    /\ (List.filter isNewWindow evs = []
        \/ exists payload,
             ev = action_focusWindow (Some payload)
             /\ truthy_id (mainWindowId env) = false
             /\ createLock s = false
             /\ (step env ev s).1 = createWindow env (hidden payload) s).
Proof.
  destruct ev as [id|id|id|id|id|id|id|id|id|id|id|[|id]|id|b|payload| | | | | | | | ].
  16:{ destruct payload as [payload |], (truthy_id (mainWindowId env)) eqn:Hid,
         (createLock s) eqn:Hl.
       4:{ destruct (step_run env (action_focusWindow (Some payload)) s)
             as (evs & E & _).
           exists evs. split; [exact E |]. right. exists payload.
           repeat split; try done. unfold step. now rewrite Hid. }
       all: unfold step, createWindow, showWindow, does; rewrite ?Hid, ?Hl;
         cbn [fst effects]; cases; appended; left; reflexivity. }
  all: unfold step, onWindow, onClose, onFocus, onReadyToShow, onDestroyTimeout,
         showWindow, does, setQuitting;
       cbn [fst quitting effects createLock firstWindow windows timers];
       cases; try (exfalso; simpl in *; congruence);
       appended; left; simpl; rewrite ?List.filter_app; reflexivity.
Qed.

Lemma createWindow_run env hidden_ s :
  createLock s = false ->
  let id := newWindowId env in
  let bounds := mergeBounds (config_bounds env) in
  let s1 := createWindow env hidden_ s in
  createLock s1 = true
  /\ windows s1 !! id = Some {| closure_hidden := hidden_;
                               destroyTimeout := None |}
  /\ exists before after,
       effects s1 = effects s ++ before
                    ++ [NewBrowserWindow id (windowOptions env)] ++ after
       /\ Forall (fun e => isLog e = true) before
       /\ List.filter isNewWindow after = []
       /\ forall i px py,
            SetPosition i px py ∈ after <->
            opt_center (windowOptions env) = false
            /\ i = id /\ px = x bounds /\ py = y bounds.
Proof.
  intros Hl. cbv zeta. unfold createWindow. rewrite Hl.
  cbn [createLock windows effects]. split; [done |].
  split; [apply lookup_insert_eq |].
  eexists [_; _], _. split; [reflexivity |]. split; [now repeat constructor |].
  unfold windowOptions. cbn [opt_center].
  set (center := (x (mergeBounds (config_bounds env)) =? -1)
                 && (y (mergeBounds (config_bounds env)) =? -1)).
  split.
  - destruct (String.eqb _ _); [destruct (dockSetIcon env) |];
      destruct center; reflexivity.
  - intros i px py.
    destruct (String.eqb _ _); [destruct (dockSetIcon env) |];
      destruct center; cbn [negb app];
      rewrite ?elem_of_cons, ?elem_of_nil; split;
      try (intros [[= -> -> ->] | H]; [done | ]);
      try (intros [H | H]; try discriminate);
      try (intros (? & -> & -> & ->)); try tauto;
      repeat match goal with
             | H : _ \/ _ |- _ => destruct H as [H | H]; try discriminate
             | H : False |- _ => destruct H
             | H : _ /\ _ |- _ => destruct H
             | H : SetPosition _ _ _ = SetPosition _ _ _ |- _ =>
                 injection H as -> -> ->
             end; try done; try discriminate; tauto.
Qed.

(** X19. A window is only ever created by a [focusWindow] action that
    has a payload, at a moment when the store holds no main window id
    and no creation is under way. The window has the title of the
    application, is not shown yet, and takes its width and height from
    the configuration, 1250 by 720 where it gives none; it is centered
    when the merged bounds have x = -1 and y = -1, and positioned at
    these x and y otherwise. From then on a creation is under way, and
    the handlers of the window close over the [hidden] of the payload
    and no destroy timeout. *)
Theorem window_created_only_by_focusWindow (env : Env) (ev : Event)
    (s : State) (id : Z) (options : WindowOptions) :
  let s1 := (step env ev s).1 in
  let bounds := mergeBounds (config_bounds env) in
  NewBrowserWindow id options ∈ newEffects s s1 ->
  exists payload,
    ev = action_focusWindow (Some payload)
    /\ truthy_id (mainWindowId env) = false
    /\ createLock s = false
    /\ id = newWindowId env
    /\ options = windowOptions env
    /\ opt_show options = false
    /\ opt_width options = default 1250 (config_bounds env ≫= user_width)
    /\ opt_height options = default 720 (config_bounds env ≫= user_height)
    /\ createLock s1 = true
    /\ windows s1 !! id = Some {| closure_hidden := hidden payload;
                                 destroyTimeout := None |}
    /\ forall px py,
         SetPosition id px py ∈ newEffects s s1 <->
         opt_center options = false /\ px = x bounds /\ py = y bounds.
Proof.
  cbv zeta. intros Hin.
  destruct (step_creates env ev s) as (evs & E & [Hnone | (payload & -> & Hid & Hl & Hs)]).
  { exfalso. rewrite (newEffects_appended _ _ _ E) in Hin.
    assert (Hno : forall l : list Effect, List.filter isNewWindow l = [] ->
                    NewBrowserWindow id options ∉ l).
    { induction l as [| e l IH]; [intros _ H; inversion H |].
      simpl. intros Hf H. apply elem_of_cons in H as [<- | H]; [discriminate |].
      destruct (isNewWindow e); [discriminate | now apply IH]. }
    exact (Hno _ Hnone Hin). }
  rewrite Hs in *. clear Hs E evs.
  destruct (createWindow_run env (hidden payload) s Hl)
    as (Hl1 & Hw & before & after & E & Fb & Fa & Hpos).
  rewrite (newEffects_appended _ _ _ E) in Hin |- *.
  assert (Hnew : id = newWindowId env /\ options = windowOptions env).
  { rewrite !elem_of_app in Hin. destruct Hin as [Hin | [Hin | Hin]].
    - rewrite Forall_forall in Fb. apply Fb in Hin. discriminate.
    - apply list_elem_of_singleton in Hin. now injection Hin.
    - exfalso. revert Fa Hin. clear. induction after as [| e l IH];
        [intros _ H; inversion H |].
      simpl. intros Hf H. apply elem_of_cons in H as [<- | H]; [discriminate |].
      destruct (isNewWindow e); [discriminate | now apply IH]. }
  destruct Hnew as [-> ->].
  exists payload. repeat (split; [done |]).
  split.
  { unfold windowOptions, mergeBounds. cbn [opt_width width].
    now destruct (config_bounds env). }
  split.
  { unfold windowOptions, mergeBounds. cbn [opt_height height].
    now destruct (config_bounds env). }
  split; [exact Hl1 |]. split; [exact Hw |].
  intros px py. specialize (Hpos (newWindowId env) px py).
  rewrite !elem_of_app. split.
  - intros [H | [H | H]].
    + rewrite Forall_forall in Fb. apply Fb in H. discriminate.
    + apply list_elem_of_singleton in H. discriminate.
    + apply Hpos in H. tauto.
  - intros (Hc & Hx & Hy). right. right. apply Hpos. tauto.
Qed.

Lemma window_created_only_by_focusWindow_witness :
  let ev := action_focusWindow (Some {| toggle := false; hidden := false |}) in
  let s1 := (step sampleEnv ev initial).1 in
  NewBrowserWindow 1 (windowOptions sampleEnv) ∈ newEffects initial s1
  /\ SetPosition 1 40 (-1) ∈ newEffects initial s1.
Proof.
  cbv zeta.
  assert (Hin : NewBrowserWindow 1 (windowOptions sampleEnv)
                  ∈ newEffects initial
                      (step sampleEnv
                         (action_focusWindow (Some {| toggle := false;
                                                      hidden := false |}))
                         initial).1).
  { vm_compute. repeat constructor. }
  split; [exact Hin |].
  destruct (window_created_only_by_focusWindow sampleEnv _ initial 1
              (windowOptions sampleEnv) Hin)
    as (payload & _ & _ & _ & _ & _ & _ & _ & _ & _ & _ & Hpos).
  apply Hpos. repeat split; reflexivity.
Defined.

(** X20. A [focusWindow] action without payload is only served when
    the store holds a main window id. Without one, the handler throws
    a type error on [action.payload.hidden] and creates no window;
    with one, it throws the error of [invariant] (named "Invariant
    Violation", with the message "window still exists") when Electron
    has no window of that id, and otherwise shows the window, which it
    also maximizes when the configuration says so on a platform other
    than macOS. *)
Theorem focusWindow_without_payload (env : Env) (s : State) :
  let r := step env (action_focusWindow None) s in
  let id := default 0 (mainWindowId env) in
  if truthy_id (mainWindowId env) then
    if fromId env id then
      r.2 = None
      /\ newEffects s r.1
         = Show id :: (if config_maximized env
                          && negb (String.eqb (platform env) "darwin")
                       then [Maximize id] else [])
    else r = (s, Some (NamedError "Invariant Violation" "window still exists"))
  else
    r = (s, Some (NamedError "TypeError"
                    "Cannot read property 'hidden' of undefined")).
Proof.
  cbv zeta. unfold step. cbn [default toggle andb].
  destruct (truthy_id (mainWindowId env)); [| reflexivity].
  destruct (fromId env _); cbn [negb]; [| reflexivity].
  split; [reflexivity |].
  erewrite newEffects_appended by reflexivity. reflexivity.
Qed.

End MainWindowFacts.

(** * Further properties of the launch task, continued *)

(** ** A manifest that is not valid *)

Lemma not_in_filter_nil (p : Event -> bool) e evs :
  p e = true -> List.filter p evs = [] -> e ∉ evs.
Proof.
  intros He. induction evs as [| x evs IH]; [intros _ H; inversion H |].
  simpl. intros Hf H. apply elem_of_cons in H as [<- | H].
  - now rewrite He in Hf.
  - destruct (p x); [discriminate | now apply IH].
Qed.

(** X21. A manifest that validation rejects ends the launch: the task
    rejects with the error of the validation, the validation is the
    last thing it does, and it shows no chooser, requests no sub-key
    and calls no launcher. *)
Theorem invalid_manifest_is_fatal (w : World) (opts : StartTaskOpts)
    (s : State) (m : Manifest) (e : Error) :
  let final := doStart w opts s in
  let evs := newEvents s final.2 in
  EValidateManifest m ∈ evs ->
  validateManifest w m = Err e ->
  final.1 = Threw e
  /\ last evs = Some (EValidateManifest m)
  /\ List.filter isChooser evs = []
  /\ List.filter isSubkeyRequest evs = []
  /\ List.filter isLaunch evs = [].
Proof.
  cbv zeta. intros Hin Hv.
  assert (Hpre : forall evs1, Forall precedesValidation evs1 ->
            List.filter isValidation evs1 = []
            /\ List.filter isChooser evs1 = []
            /\ List.filter isSubkeyRequest evs1 = []
            /\ List.filter isLaunch evs1 = []).
  { intros evs1 F. repeat split; apply filter_never;
      (eapply Forall_impl; [exact F |]); now intros []. }
  destruct (doStart_reaches_choice w opts s)
    as [H | [(game & cave & s1 & H1 & E) | [(m' & e' & s1 & H1 & Hv' & E)
       | (game & cave & m' & s1 & _ & H1 & Hv' & E)]]].
  - exfalso. apply extends_newEvents in H as [_ F].
    destruct (Hpre _ F) as (Q & _).
    exact (not_in_filter_nil isValidation (EValidateManifest m) _ eq_refl Q Hin).
  - exfalso. rewrite E in Hin. destruct H1 as (e1 & E1 & F1).
    pose proof (emits_function _ _
                  (dispatch_emits (fun ev => prepares ev \/ installs ev \/ supervises ev)
                     w opts game cave (appPath_of w cave)
                     (default "native" (cave_launchType (opts_cave opts))) None
                     (fun _ H => H)) s1) as (e2 & E2 & F2).
    erewrite newEvents_app in Hin by (rewrite E2, E1, <- app_assoc; reflexivity).
    destruct (Hpre _ F1) as (Q & _).
    apply elem_of_app in Hin as [Hin | Hin].
    + exact (not_in_filter_nil isValidation (EValidateManifest m) _ eq_refl Q Hin).
    + rewrite Forall_forall in F2. apply F2 in Hin.
      destruct Hin as [Hin | [Hin | Hin]]; exact Hin.
  - rewrite E in Hin |- *. destruct H1 as (e1 & E1 & F1).
    destruct (Hpre _ F1) as (Q & Q1 & Q2 & Q3).
    erewrite newEvents_app in Hin |- *
      by (simpl; rewrite E1, <- app_assoc; reflexivity).
    assert (m' = m) as ->.
    { apply elem_of_app in Hin as [Hin | Hin].
      - now destruct (not_in_filter_nil isValidation (EValidateManifest m) _ eq_refl Q Hin).
      - apply list_elem_of_singleton in Hin. now injection Hin. }
    assert (e' = e) as -> by congruence.
    split; [done |]. split; [apply last_snoc |].
    rewrite !List.filter_app, Q1, Q2, Q3. done.
  - exfalso. rewrite E in Hin. destruct H1 as (e1 & E1 & F1).
    destruct (Hpre _ F1) as (Q & _).
    pose proof (emits_function _ _
                  (choice_emits
                     (fun ev => chooses ev \/ prepares ev \/ installs ev \/ supervises ev)
                     w opts
                     (actionForGame w (cave_game (opts_cave opts)) (opts_cave opts))
                     game cave (appPath_of w cave)
                     (default "native" (cave_launchType (opts_cave opts))) m'
                     (fun _ H => H))
                  (appendTrace [EValidateManifest m'] s1)) as (e2 & E2 & F2).
    erewrite newEvents_app in Hin
      by (rewrite E2; simpl; rewrite E1, <- !app_assoc; reflexivity).
    rewrite !elem_of_app in Hin. destruct Hin as [Hin | [Hin | Hin]].
    + exact (not_in_filter_nil isValidation (EValidateManifest m) _ eq_refl Q Hin).
    + apply list_elem_of_singleton in Hin. injection Hin as ->. congruence.
    + rewrite Forall_forall in F2. apply F2 in Hin.
      destruct Hin as [Hin | [Hin | [Hin | Hin]]]; exact Hin.
Qed.

Lemma invalid_manifest_is_fatal_witness :
  let w := withValidation (fun _ => Err sampleInvalid)
             (manifestWorld twoActions ModalClosed) in
  EValidateManifest twoActions
    ∈ newEvents sampleState (doStart w sampleOpts sampleState).2
  /\ (doStart w sampleOpts sampleState).1 = Threw sampleInvalid.
Proof.
  cbv zeta.
  assert (Hin : EValidateManifest twoActions
                  ∈ newEvents sampleState
                      (doStart (withValidation (fun _ => Err sampleInvalid)
                                  (manifestWorld twoActions ModalClosed))
                         sampleOpts sampleState).2).
  { vm_compute. repeat constructor. }
  split; [exact Hin |].
  exact (proj1 (invalid_manifest_is_fatal _ sampleOpts sampleState twoActions
                  sampleInvalid Hin eq_refl)).
Defined.

(** ** Patterns with the [i] flag *)

Module CaseFacts.
Import RegExp.

Lemma canonicalize_cases a :
  canonicalize a = N_of_ascii a
  \/ (65 <= canonicalize a /\ 97 <= N_of_ascii a)%N.
Proof.
  unfold canonicalize.
  destruct (_ && _) eqn:H1.
  - right. apply andb_true_iff in H1 as [H1 _]. apply N.leb_le in H1. lia.
  - destruct (_ && _ && _) eqn:H2; [| now left].
    right. apply andb_true_iff in H2 as [H2 _].
    apply andb_true_iff in H2 as [H2 _]. apply N.leb_le in H2. lia.
Qed.

Lemma canonicalize_lineTerminator a a' :
  canonicalize a = canonicalize a' -> isLineTerminator a = isLineTerminator a'.
Proof.
  intros E. unfold isLineTerminator.
  destruct (canonicalize_cases a) as [Ha | Ha],
    (canonicalize_cases a') as [Ha' | Ha'].
  - rewrite Ha, Ha' in E. now rewrite E.
  - rewrite Ha in E.
    destruct (N.eqb_spec (N_of_ascii a) 10), (N.eqb_spec (N_of_ascii a) 13),
      (N.eqb_spec (N_of_ascii a') 10), (N.eqb_spec (N_of_ascii a') 13);
      try reflexivity; exfalso; lia.
  - rewrite Ha' in E.
    destruct (N.eqb_spec (N_of_ascii a) 10), (N.eqb_spec (N_of_ascii a) 13),
      (N.eqb_spec (N_of_ascii a') 10), (N.eqb_spec (N_of_ascii a') 13);
      try reflexivity; exfalso; lia.
  - destruct (N.eqb_spec (N_of_ascii a) 10), (N.eqb_spec (N_of_ascii a) 13),
      (N.eqb_spec (N_of_ascii a') 10), (N.eqb_spec (N_of_ascii a') 13);
      try reflexivity; exfalso; lia.
Qed.

Lemma rmatch_case r : forall b s s' (k k' : cont),
  sameUpToCase s s' ->
  (forall b t t', sameUpToCase t t' -> agree (k b t) (k' b t')) ->
  agree (rmatch true r b s k) (rmatch true r b s' k').
Proof.
  induction r as [| c | | r1 IH1 r2 IH2 | r1 IH1 r2 IH2 | r1 IH1 | |];
    intros b s s' k k' Hs Hk; cbn [rmatch].
  - now apply Hk.
  - destruct s as [| a s], s' as [| a' s']; try done.
    destruct Hs as [Ha Hs]. unfold char_eqb. rewrite <- Ha.
    destruct (_ =? _)%N; [now apply Hk | done].
  - destruct s as [| a s], s' as [| a' s']; try done.
    destruct Hs as [Ha Hs].
    rewrite <- (canonicalize_lineTerminator a a' Ha).
    destruct (isLineTerminator a); [done | now apply Hk].
  - apply IH1; [done |]. intros b' t t' Ht. now apply IH2.
  - pose proof (IH1 b s s' k k' Hs Hk) as H1.
    destruct (rmatch true r1 b s k), (rmatch true r1 b s' k'); try done.
    now apply IH2.
  - pose proof (IH1 b s s' k k' Hs Hk) as H1.
    destruct (rmatch true r1 b s k), (rmatch true r1 b s' k'); try done.
    now apply Hk.
  - destruct b; [now apply Hk | done].
  - destruct s, s'; try done. now apply Hk.
Qed.

Lemma exec_from_case r : forall s s' b,
  sameUpToCase s s' ->
  exec_from true r b s = None <-> exec_from true r b s' = None.
Proof.
  induction s as [| a s IH]; intros [| a' s'] b Hs; try done.
  pose proof (rmatch_case r b _ _ accept accept Hs (fun _ _ _ H => H)) as H.
  cbn [exec_from].
  destruct (rmatch true r b (String a s) accept),
    (rmatch true r b (String a' s') accept); try done.
  destruct Hs as [_ Hs]. specialize (IH s' false Hs).
  destruct (exec_from true r false s) as [[? ?] |],
    (exec_from true r false s') as [[? ?] |]; try done;
    destruct IH as [I1 I2]; first [now discriminate I1 | now discriminate I2].
Qed.

Lemma test_case r s s' :
  sameUpToCase s s' -> test true r s = test true r s'.
Proof.
  intros Hs. unfold test, exec.
  pose proof (exec_from_case r s s' true Hs) as [H1 H2].
  destruct (exec_from true r true s), (exec_from true r true s'); try done.
  - now discriminate H2.
  - now discriminate H1.
Qed.

End CaseFacts.

(** X22. The patterns of the launch task that carry the [i] flag do
    not tell apart two paths that differ by case only: both are an
    application, a page, a link or the prerequisite installer, or
    neither is. So when one of the two is classified by a pattern, the
    other gets the same launch type, without its file being sniffed. *)
Theorem classification_ignores_case (w : World) (appPath p p' : string)
    (s : State) :
  sameUpToCase p p' ->
  RegExp.test true Pattern.nativeExt p = RegExp.test true Pattern.nativeExt p'
  /\ RegExp.test true Pattern.htmlExt p = RegExp.test true Pattern.htmlExt p'
  /\ RegExp.test true Pattern.httpUrl p = RegExp.test true Pattern.httpUrl p'
  /\ RegExp.test true Pattern.ue4Prereq p = RegExp.test true Pattern.ue4Prereq p'
  /\ (RegExp.test true Pattern.nativeExt p
      || RegExp.test true Pattern.htmlExt p
      || RegExp.test true Pattern.httpUrl p = true ->
      launchTypeForAction w appPath p' s = launchTypeForAction w appPath p s
      /\ (launchTypeForAction w appPath p s).2 = s).
Proof.
  intros Hs.
  pose proof (CaseFacts.test_case Pattern.nativeExt p p' Hs) as H1.
  pose proof (CaseFacts.test_case Pattern.htmlExt p p' Hs) as H2.
  pose proof (CaseFacts.test_case Pattern.httpUrl p p' Hs) as H3.
  pose proof (CaseFacts.test_case Pattern.ue4Prereq p p' Hs) as H4.
  repeat (split; [done |]).
  unfold launchTypeForAction. rewrite <- H1, <- H2, <- H3.
  destruct (RegExp.test true Pattern.nativeExt p); [done |].
  destruct (RegExp.test true Pattern.htmlExt p); [done |].
  destruct (RegExp.test true Pattern.httpUrl p); [done | discriminate].
Qed.

Lemma classification_ignores_case_witness :
  launchTypeForAction (plainWorld "linux") "/apps/cave-1" "GAME.EXE" sampleState
  = (Val "native", sampleState).
Proof.
  destruct (classification_ignores_case (plainWorld "linux") "/apps/cave-1"
              "Game.exe" "GAME.EXE" sampleState)
    as (_ & _ & _ & _ & H).
  - repeat split.
  - destruct (H eq_refl) as [-> _]. reflexivity.
Defined.
